(** * DeepCrawl: a verification development for [web_crawler.py]

    The crawler ([LiveCrawler]) is embedded as pure functions with explicit
    state passing.  Python's [set] and [dict] values that are never iterated
    are [gset]/[gmap]; the frontier ([deque]) is a list; exceptions are
    [option] results.  The standard-library functions the crawler calls
    ([re.search], [re.findall], [str.split], [urllib.parse.urlparse],
    [urllib.parse.urljoin]) are modelled in the modules [Str], [Re] and
    [Urllib]; the network, the HTML parser and the iteration order of
    Python sets are fields of an environment record ([World]). *)

From Stdlib Require Import ZArith Ascii String.
From stdpp Require Import gmap strings list sorting.

Local Open Scope Z_scope.
Set Warnings "-clear-no-such-hyp".

(** ** Characters and strings (Python [str] methods) *)

Module Str.

Definition code (c : ascii) : N := N_of_ascii c.

Definition in_range (lo hi c : ascii) : bool :=
  ((code lo <=? code c) && (code c <=? code hi))%N.

Definition is_upper (c : ascii) : bool := in_range "A" "Z" c.
Definition is_lower (c : ascii) : bool := in_range "a" "z" c.
Definition is_alpha (c : ascii) : bool := is_upper c || is_lower c.
Definition is_digit (c : ascii) : bool := in_range "0" "9" c.

Definition lower (c : ascii) : ascii :=
  if is_upper c then ascii_of_N (code c + 32) else c.
Definition upper (c : ascii) : ascii :=
  if is_lower c then ascii_of_N (code c - 32) else c.

Definition ceqb (a b : ascii) : bool := bool_decide (a = b).

(** [c in s] for a one-character [c]. *)
Fixpoint contains (c : ascii) (s : string) : bool :=
  match s with
  | EmptyString => false
  | String a s' => ceqb a c || contains c s'
  end.

Fixpoint forallb (p : ascii -> bool) (s : string) : bool :=
  match s with
  | EmptyString => true
  | String a s' => p a && forallb p s'
  end.

Fixpoint map (f : ascii -> ascii) (s : string) : string :=
  match s with
  | EmptyString => EmptyString
  | String a s' => String (f a) (map f s')
  end.

(** [s.split(c)[0]], also [s.partition(c)[0]]: the text before the first
    occurrence of [c], all of [s] when there is none. *)
Fixpoint before (p : ascii -> bool) (s : string) : string :=
  match s with
  | EmptyString => EmptyString
  | String a s' => if p a then EmptyString else String a (before p s')
  end.

(** The text from the first character satisfying [p] on (that character
    included); empty when there is none. *)
Fixpoint from (p : ascii -> bool) (s : string) : string :=
  match s with
  | EmptyString => EmptyString
  | String a s' => if p a then s else from p s'
  end.

(** [s[1:]] *)
Definition tail (s : string) : string :=
  match s with
  | EmptyString => EmptyString
  | String _ s' => s'
  end.

Definition split_head (c : ascii) (s : string) : string := before (ceqb c) s.

(** [s.split(c, 1)[1]] when [c in s]. *)
Definition split_rest (c : ascii) (s : string) : string := tail (from (ceqb c) s).

(** [s.split(c)] *)
Fixpoint split_aux (c : ascii) (s : string) (acc : string) : list string :=
  match s with
  | EmptyString => [acc]
  | String a s' =>
      if ceqb a c then acc :: split_aux c s' EmptyString
      else split_aux c s' (acc +:+ String a EmptyString)
  end.
Definition split (c : ascii) (s : string) : list string :=
  split_aux c s EmptyString.

(** [sep.join(l)] *)
Fixpoint join (sep : string) (l : list string) : string :=
  match l with
  | [] => EmptyString
  | [x] => x
  | x :: l' => x +:+ sep +:+ join sep l'
  end.

(** [s.lstrip(chars)] *)
Fixpoint lstrip (p : ascii -> bool) (s : string) : string :=
  match s with
  | EmptyString => EmptyString
  | String a s' => if p a then lstrip p s' else s
  end.

(** [s.replace(c, "")] for every character [c] satisfying [p]. *)
Fixpoint remove (p : ascii -> bool) (s : string) : string :=
  match s with
  | EmptyString => EmptyString
  | String a s' => if p a then remove p s' else String a (remove p s')
  end.

Fixpoint rev_aux (s acc : string) : string :=
  match s with
  | EmptyString => acc
  | String a s' => rev_aux s' (String a acc)
  end.
Definition rev (s : string) : string := rev_aux s EmptyString.

(** [s.rstrip(chars)] and [s.strip(chars)] *)
Definition rstrip (p : ascii -> bool) (s : string) : string :=
  rev (lstrip p (rev s)).
Definition strip (p : ascii -> bool) (s : string) : string :=
  rstrip p (lstrip p s).

(** [s[:n]] and [s[n:]] *)
Fixpoint take (n : nat) (s : string) : string :=
  match n, s with
  | S n', String a s' => String a (take n' s')
  | _, _ => EmptyString
  end.
Fixpoint drop (n : nat) (s : string) : string :=
  match n, s with
  | S n', String _ s' => drop n' s'
  | _, _ => s
  end.

Definition eqb (a b : string) : bool := bool_decide (a = b).

Definition is_empty (s : string) : bool :=
  match s with EmptyString => true | _ => false end.

(** [x in (a, b, ...)] *)
Definition among (l : list string) (x : string) : bool :=
  bool_decide (x ∈ l).

End Str.

(** ** Regular expressions (Python [re]) *)

Module Re.

(** The fragment of the [re] syntax that the crawler's patterns use. *)
Inductive cset_item : Type :=
| CChar (c : ascii)          (* a literal member *)
| CRange (lo hi : ascii)     (* [lo-hi] *)
| CWord                      (* [\w] *)
| CSpace.                    (* [\s] *)

Inductive regex : Type :=
| REps                                         (* the empty pattern *)
| RChar (c : ascii)                            (* a literal character *)
| RSet (negated : bool) (items : list cset_item)   (* [...] and [^...] *)
| RSeq (r1 r2 : regex)                         (* r1 r2 *)
| RAlt (r1 r2 : regex)                         (* r1|r2 *)
| RPlus (r : regex)                            (* r+ (greedy) *)
| RGroup (n : nat) (r : regex)                 (* the n-th (...) *)
| RWordB                                       (* [\b] *)
| REnd.                                        (* [$] *)

(** [\w] and [\s] on ASCII characters.  On [str] Python uses the Unicode
    classes, which agree with these on ASCII text and hold further
    characters beyond it (U+00E9 is a word character, U+00A0 is
    whitespace); the statements that depend on the classes are made for
    ASCII text (see [ascii_text]). *)
Definition is_word (c : ascii) : bool :=
  Str.is_alpha c || Str.is_digit c || Str.ceqb c "_".

Definition is_space (c : ascii) : bool :=
  Str.in_range "009" "013" c || Str.in_range "028" "032" c.

Definition item_has (it : cset_item) (c : ascii) : bool :=
  match it with
  | CChar a => Str.ceqb a c
  | CRange lo hi => Str.in_range lo hi c
  | CWord => is_word c
  | CSpace => is_space c
  end.

(** With [re.IGNORECASE] a member matches either case of a letter. *)
Definition item_match (icase : bool) (it : cset_item) (c : ascii) : bool :=
  item_has it c
  || (icase && (item_has it (Str.lower c) || item_has it (Str.upper c))).

Definition set_match (icase negated : bool) (items : list cset_item)
    (c : ascii) : bool :=
  xorb negated (existsb (fun it => item_match icase it c) items).

(** A literal character; with [re.IGNORECASE] either case of an ASCII
    letter.  Beyond ASCII Python also lets [s] match U+017F and [k] match
    U+212A; on ASCII text this is the whole of it. *)
Definition char_match (icase : bool) (a c : ascii) : bool :=
  if icase then Str.ceqb (Str.lower a) (Str.lower c) else Str.ceqb a c.

Definition word_opt (o : option ascii) : bool :=
  match o with Some c => is_word c | None => false end.

Definition peek (s : string) : option ascii :=
  match s with String c _ => Some c | EmptyString => None end.

(** [$] without [re.MULTILINE]: the end of the text, or just before a
    newline that ends the text. *)
Definition at_end (s : string) : bool :=
  match s with
  | EmptyString => true
  | String c EmptyString => Str.ceqb c "010"
  | _ => false
  end.

Definition captures : Type := list (nat * string).

Definition consumed (s s' : string) : string :=
  Str.take (String.length s - String.length s') s.

(** A backtracking matcher in continuation-passing style: alternatives
    are tried left to right and [+] takes as many repetitions as it can
    before it gives one back, as the [re] engine does.  [prev] is the
    character before the current position, for [\b]. *)
Section Matcher.
Context {A : Type}.
Variable icase : bool.

Definition cont : Type := option ascii -> string -> captures -> option A.

Fixpoint rmatch (r : regex) (prev : option ascii) (s : string)
    (caps : captures) (k : cont) {struct r} : option A :=
  match r with
  | REps => k prev s caps
  | RChar a =>
      match s with
      | String c s' => if char_match icase a c then k (Some c) s' caps else None
      | EmptyString => None
      end
  | RSet negated items =>
      match s with
      | String c s' =>
          if set_match icase negated items c then k (Some c) s' caps else None
      | EmptyString => None
      end
  | RSeq r1 r2 =>
      rmatch r1 prev s caps (fun p1 s1 c1 => rmatch r2 p1 s1 c1 k)
  | RAlt r1 r2 =>
      match rmatch r1 prev s caps k with
      | Some x => Some x
      | None => rmatch r2 prev s caps k
      end
  | RPlus r1 =>
      (fix loop (fuel : nat) (prev : option ascii) (s : string)
           (caps : captures) {struct fuel} : option A :=
         rmatch r1 prev s caps (fun p1 s1 c1 =>
           match fuel with
           | O => k p1 s1 c1
           | S fuel' =>
               match
                 (if (String.length s1 <? String.length s)%nat
                  then loop fuel' p1 s1 c1 else None)
               with
               | Some x => Some x
               | None => k p1 s1 c1
               end
           end)) (String.length s) prev s caps
  | RGroup n r1 =>
      rmatch r1 prev s caps (fun p1 s1 c1 => k p1 s1 ((n, consumed s s1) :: c1))
  | RWordB =>
      if xorb (word_opt prev) (word_opt (peek s)) then k prev s caps else None
  | REnd => if at_end s then k prev s caps else None
  end.
End Matcher.

(** One match: the character before its end, the text after it, and the
    groups. *)
Definition found : Type := option ascii * string * captures.

Definition match_here (icase : bool) (r : regex) (prev : option ascii)
    (s : string) : option found :=
  rmatch icase r prev s [] (fun p s' c => Some (p, s', c)).

(** The leftmost match at or after the current position. *)
Fixpoint scan (icase : bool) (r : regex) (prev : option ascii) (s : string)
    : option found :=
  match match_here icase r prev s with
  | Some m => Some m
  | None =>
      match s with
      | EmptyString => None
      | String c s' => scan icase r (Some c) s'
      end
  end.

(** [re.search(r, s, flags)] as a truth value. *)
Definition search (icase : bool) (r : regex) (s : string) : bool :=
  bool_decide (is_Some (scan icase r None s)).

(** The text of group [n] (the last time it matched), [""] if it did not
    take part. *)
Fixpoint group (n : nat) (caps : captures) : string :=
  match caps with
  | [] => EmptyString
  | (m, v) :: caps' => if (m =? n)%nat then v else group n caps'
  end.

(** The non-overlapping matches, left to right; after an empty match the
    scan moves on by one character. *)
Fixpoint findall_aux (fuel : nat) (icase : bool) (r : regex)
    (prev : option ascii) (s : string) : list captures :=
  match fuel with
  | O => []
  | S fuel' =>
      match scan icase r prev s with
      | None => []
      | Some (p, s', c) =>
          c :: (if (String.length s' <? String.length s)%nat
                then findall_aux fuel' icase r p s'
                else match s' with
                     | EmptyString => []
                     | String a s'' => findall_aux fuel' icase r (Some a) s''
                     end)
      end
  end.

Definition findall (icase : bool) (r : regex) (s : string) : list captures :=
  findall_aux (S (String.length s)) icase r None s.

(** Pattern builders. *)
Fixpoint lit (s : string) : regex :=
  match s with
  | EmptyString => REps
  | String c EmptyString => RChar c
  | String c s' => RSeq (RChar c) (lit s')
  end.

Fixpoint alts (l : list regex) : regex :=
  match l with
  | [] => REps
  | [r] => r
  | r :: l' => RAlt r (alts l')
  end.

Fixpoint seq (l : list regex) : regex :=
  match l with
  | [] => REps
  | [r] => r
  | r :: l' => RSeq r (seq l')
  end.

End Re.

(** ** The crawler's patterns *)

Module Patterns.
Import Re.

(** The double quote character. *)
Definition dquote : ascii := "034".

(** [\.(json|xml|ashx|asmx|php|jsp|do|action|api|rest)\b] *)
Definition backend_ext : regex :=
  seq [RChar "."; 
       RGroup 1 (alts (lit <$> ["json"; "xml"; "ashx"; "asmx"; "php"; "jsp";
                                "do"; "action"; "api"; "rest"]));
       RWordB].

(** [\?(action|method|api_key)=] *)
Definition backend_query : regex :=
  seq [RChar "?"; RGroup 1 (alts (lit <$> ["action"; "method"; "api_key"]));
       RChar "="].

(** [\.cgi\b] *)
Definition backend_cgi : regex := seq [lit ".cgi"; RWordB].

Definition backend_patterns : list regex :=
  [backend_ext; lit "/api/"; lit "/ws/"; lit "/rest/"; backend_query;
   backend_cgi].

(** [\.(html|htm|asp|aspx|cfm)\b] *)
Definition page_ext : regex :=
  seq [RChar ".";
       RGroup 1 (alts (lit <$> ["html"; "htm"; "asp"; "aspx"; "cfm"]));
       RWordB].

(** [/[^/.]+$], the extensionless paths *)
Definition page_plain : regex :=
  seq [RChar "/"; RPlus (RSet true [CChar "/"; CChar "."]); REnd].

Definition page_patterns : list regex := [page_ext; page_plain].

(** [(?:fetch|axios|\.ajax|XMLHttpRequest)\(['"]([^'"]+)] *)
Definition api_call : regex :=
  seq [alts (lit <$> ["fetch"; "axios"; ".ajax"; "XMLHttpRequest"]);
       RChar "(";
       RSet false [CChar "'"; CChar dquote];
       RGroup 1 (RPlus (RSet true [CChar "'"; CChar dquote]))].

(** [\b(function|const|let|var)\s+([a-zA-Z_$][\w$]+)\b] *)
Definition declaration : regex :=
  seq [RWordB;
       RGroup 1 (alts (lit <$> ["function"; "const"; "let"; "var"]));
       RPlus (RSet false [CSpace]);
       RGroup 2 (seq [RSet false [CRange "a" "z"; CRange "A" "Z"; CChar "_"; CChar "$"];
                      RPlus (RSet false [CWord; CChar "$"])]);
       RWordB].
End Patterns.

(** ** Classification *)

Inductive classification : Type := Backend | Html | Unknown.

Global Instance classification_eq_dec : EqDecision classification.
Proof. solve_decision. Defined.

(** [any(re.search(p, url, re.I) for p in patterns)] *)
Definition any_search (patterns : list Re.regex) (url : string) : bool :=
  existsb (fun p => Re.search true p url) patterns.

Definition classify_endpoint (url : string) : classification :=
  if any_search Patterns.backend_patterns url then Backend
  else if any_search Patterns.page_patterns url then Html
  else Unknown.

(** [url.split('?')[0].split('#')[0]] *)
Definition clean_url (url : string) : string :=
  Str.split_head "#" (Str.split_head "?" url).

(** ** URL parsing and joining ([urllib.parse]) *)

Module Urllib.

Record ParseResult : Type := mkParse {
  scheme : string;
  netloc : string;
  path : string;
  params : string;
  query : string;
  fragment : string
}.

Definition uses_relative : list string :=
  [""; "ftp"; "http"; "gopher"; "nntp"; "imap"; "wais"; "file"; "https";
   "shttp"; "mms"; "prospero"; "rtsp"; "rtspu"; "sftp"; "svn"; "svn+ssh";
   "ws"; "wss"].

Definition uses_netloc : list string :=
  [""; "ftp"; "http"; "gopher"; "nntp"; "telnet"; "imap"; "wais"; "file";
   "mms"; "https"; "shttp"; "snews"; "prospero"; "rtsp"; "rtspu"; "rsync";
   "svn"; "svn+ssh"; "sftp"; "nfs"; "git"; "git+ssh"; "ws"; "wss"].

Definition uses_params : list string :=
  [""; "ftp"; "hdl"; "prospero"; "http"; "imap"; "https"; "shttp"; "rtsp";
   "rtspu"; "sip"; "sips"; "mms"; "sftp"; "tel"].

(** The characters [urlsplit] strips from the left of a URL, and the ones
    it deletes everywhere. *)
Definition c0_control_or_space (c : ascii) : bool := (Str.code c <=? 32)%N.
Definition unsafe_byte (c : ascii) : bool :=
  Str.ceqb c "009" || Str.ceqb c "013" || Str.ceqb c "010".

Definition scheme_char (c : ascii) : bool :=
  Str.is_alpha c || Str.is_digit c
  || Str.ceqb c "+" || Str.ceqb c "-" || Str.ceqb c ".".

Definition netloc_delim (c : ascii) : bool :=
  Str.ceqb c "/" || Str.ceqb c "?" || Str.ceqb c "#".

Definition starts_alpha (s : string) : bool :=
  match s with String c _ => Str.is_alpha c | EmptyString => false end.

(** The scheme test of [urlsplit]: a colon at index [i > 0], a letter
    first, and only scheme characters before the colon. *)
Definition split_scheme (url default : string) : string * string :=
  let pre := Str.split_head ":" url in
  if Str.contains ":" url && starts_alpha pre
     && Str.forallb scheme_char pre
  then (Str.map Str.lower pre, Str.split_rest ":" url)
  else (default, url).

(** [_splitnetloc(url, 2)] when [url[:2] == '//']. *)
Definition split_netloc (url : string) : string * string :=
  if Str.eqb (Str.take 2 url) "//" then
    let rest := Str.drop 2 url in
    (Str.before netloc_delim rest, Str.from netloc_delim rest)
  else (EmptyString, url).

Definition bracket_mismatch (netloc : string) : bool :=
  (Str.contains "[" netloc && negb (Str.contains "]" netloc))
  || (Str.contains "]" netloc && negb (Str.contains "[" netloc)).

(** [url.split(c, 1)] when [c in url], [(url, '')] otherwise. *)
Definition cut (c : ascii) (url : string) : string * string :=
  if Str.contains c url then (Str.split_head c url, Str.split_rest c url)
  else (url, EmptyString).

(** [_splitparams] *)
Definition splitparams (url : string) : string * string :=
  if Str.contains "/" url then
    let r := Str.rev url in
    let last := Str.rev (Str.before (Str.ceqb "/") r) in
    let front := Str.rev (Str.from (Str.ceqb "/") r) in
    if Str.contains ";" last
    then (front +:+ Str.split_head ";" last, Str.split_rest ";" last)
    else (url, EmptyString)
  else (Str.split_head ";" url, Str.split_rest ";" url).

Section Parse.
(** [check_netloc] stands for the two validations of the network
    location that raise [ValueError] ([_check_bracketed_netloc] and
    [_checknetloc]); [false] is the exception. *)
Variable check_netloc : string -> bool.

(** [urlsplit(url, scheme)] followed by the parameter split of
    [urlparse(url, scheme)]; [None] is [ValueError]. *)
Definition urlparse (url default : string) : option ParseResult :=
  let url := Str.remove unsafe_byte (Str.lstrip c0_control_or_space url) in
  let default :=
    Str.remove unsafe_byte (Str.strip c0_control_or_space default) in
  let '(scheme, url) := split_scheme url default in
  let '(netloc, url) := split_netloc url in
  if bracket_mismatch netloc then None else
  let '(url, fragment) := cut "#" url in
  let '(url, query) := cut "?" url in
  if negb (check_netloc netloc) then None else
  let '(url, params) :=
    if Str.among uses_params scheme && Str.contains ";" url
    then splitparams url else (url, EmptyString) in
  Some (mkParse scheme netloc url params query fragment).

(** [urlunparse] *)
Definition urlunparse (p : ParseResult) : string :=
  let url :=
    if Str.is_empty (params p) then path p
    else path p +:+ ";" +:+ params p in
  let url :=
    if negb (Str.is_empty (netloc p))
       || (negb (Str.is_empty (scheme p))
           && Str.among uses_netloc (scheme p)
           && negb (Str.eqb (Str.take 2 url) "//"))
    then
      let url :=
        if negb (Str.is_empty url) && negb (Str.eqb (Str.take 1 url) "/")
        then "/" +:+ url else url in
      "//" +:+ netloc p +:+ url
    else url in
  let url :=
    if Str.is_empty (scheme p) then url else scheme p +:+ ":" +:+ url in
  let url :=
    if Str.is_empty (query p) then url else url +:+ "?" +:+ query p in
  if Str.is_empty (fragment p) then url else url +:+ "#" +:+ fragment p.

(** [segments[1:-1] = filter(None, segments[1:-1])] *)
Definition drop_empty_middle (segments : list string) : list string :=
  match segments with
  | first :: (_ :: _) as rest =>
      first :: filter (fun s => s ≠ EmptyString) (removelast rest)
            ++ [List.last rest EmptyString]
  | _ => segments
  end.

(** The loop of [urljoin] that resolves [.] and [..] segments. *)
Fixpoint resolve (segments resolved_path : list string) : list string :=
  match segments with
  | [] => resolved_path
  | seg :: segments' =>
      if Str.eqb seg ".." then resolve segments' (removelast resolved_path)
      else if Str.eqb seg "." then resolve segments' resolved_path
      else resolve segments' (resolved_path ++ [seg])
  end.

(** [urljoin(base, url)]; [None] is [ValueError]. *)
Definition urljoin (base url : string) : option string :=
  if Str.is_empty base then Some url
  else if Str.is_empty url then Some base
  else
    b ← urlparse base EmptyString;
    u ← urlparse url (scheme b);
    if negb (Str.eqb (scheme u) (scheme b))
       || negb (Str.among uses_relative (scheme u))
    then Some url
    else if Str.among uses_netloc (scheme u)
            && negb (Str.is_empty (netloc u))
    then Some (urlunparse u)
    else
      let netloc' :=
        if Str.among uses_netloc (scheme u) then netloc b else netloc u in
      if Str.is_empty (path u) && Str.is_empty (params u) then
        let query' :=
          if Str.is_empty (query u) then query b else query u in
        Some (urlunparse (mkParse (scheme u) netloc' (path b) (params b)
                                  query' (fragment u)))
      else
        let base_parts := Str.split "/" (path b) in
        let base_parts :=
          if Str.is_empty (List.last base_parts EmptyString)
          then base_parts else removelast base_parts in
        let segments :=
          if Str.eqb (Str.take 1 (path u)) "/"
          then Str.split "/" (path u)
          else drop_empty_middle (base_parts ++ Str.split "/" (path u)) in
        let resolved_path := resolve segments [] in
        let resolved_path :=
          if Str.among ["."; ".."] (List.last segments EmptyString)
          then resolved_path ++ [EmptyString] else resolved_path in
        let joined := Str.join "/" resolved_path in
        Some (urlunparse (mkParse (scheme u) netloc'
                            (if Str.is_empty joined then "/" else joined)
                            (params u) (query u) (fragment u))).
End Parse.

End Urllib.

(** ** Documents, the environment and Python sets that are iterated *)

(** An element of a parsed document ([bs4.element.Tag]): its name and its
    attribute dictionary. *)
Record Tag : Type := mkTag {
  tag_name : string;
  tag_attrs : gmap string string
}.

(** A Python [set] of strings that the program iterates over is kept as the
    sequence of its distinct members in order of first insertion; the order
    in which Python yields them depends on the string hashes (randomised
    per interpreter process), so it is a field of the environment. *)
Definition pyset : Type := list string.

Definition pyset_add (x : string) (s : pyset) : pyset :=
  if bool_decide (x ∈ s) then s else s ++ [x].

Definition pyset_of (l : list string) : pyset :=
  foldl (fun s x => pyset_add x s) [] l.

Record World : Type := mkWorld {
  (** [requests.get(url, timeout=...).text]; [None] when the call raises. *)
  requests_get : string -> option string;
  (** [BeautifulSoup(text, 'html.parser')], as the elements of the
      document in document order. *)
  BeautifulSoup : string -> list Tag;
  (** The value of the expression [script.src] where it is truthy.  bs4
      resolves this attribute access to [script.find('src')], the first
      child element named [src], and [html.parser] gives a script element
      no child elements, so in a run the value is [None] (see
      [child_lookup]); the field is left open so that the results that do
      not depend on it hold for every parser. *)
  script_src : Tag -> option string;
  (** The order in which [for x in s] yields the members of a set. *)
  set_iter : pyset -> list string;
  (** See [Urllib.urlparse]. *)
  check_netloc : string -> bool
}.

(** [soup.find_all(names)] *)
Definition find_all (names : list string) (soup : list Tag) : list Tag :=
  filter (fun t => tag_name t ∈ names) soup.

(** [element.get(attr, '')] *)
Definition tag_get (t : Tag) (attr : string) : string :=
  default EmptyString (tag_attrs t !! attr).

(** ** The crawler state *)

Inductive finding_type : Type := FHtml | FBackend | FFunction.

Global Instance finding_type_eq_dec : EqDecision finding_type.
Proof. solve_decision. Defined.

Record progress : Type := mkProgress {
  crawled : Z;
  queued : Z;
  depth : Z
}.

Record crawler : Type := mkCrawler {
  base_url : string;
  domain : string;
  max_depth : Z;
  visited_urls : gset string;
  queue : list (string * Z);
  html_pages : gset string;          (* found['html_pages'] *)
  backend_endpoints : gset string;   (* found['backend_endpoints'] *)
  functions : gset string;           (* found['functions'] *)
  stop_event : bool;
  prog : progress;
  (** The calls of [print_finding], in order. *)
  printed : list (finding_type * string);
  (** History: the frontier entries that passed the guard of the loop (and
      for which the page request was then sent), in order. *)
  processed : list (string * Z)
}.

Definition set_queue (q : list (string * Z)) (st : crawler) : crawler :=
  mkCrawler (base_url st) (domain st) (max_depth st) (visited_urls st) q
    (html_pages st) (backend_endpoints st) (functions st) (stop_event st)
    (prog st) (printed st) (processed st).

Definition set_prog (p : progress) (st : crawler) : crawler :=
  mkCrawler (base_url st) (domain st) (max_depth st) (visited_urls st)
    (queue st) (html_pages st) (backend_endpoints st) (functions st)
    (stop_event st) p (printed st) (processed st).

Definition set_stop_event (b : bool) (st : crawler) : crawler :=
  mkCrawler (base_url st) (domain st) (max_depth st) (visited_urls st)
    (queue st) (html_pages st) (backend_endpoints st) (functions st) b
    (prog st) (printed st) (processed st).

Definition print_finding (t : finding_type) (value : string) (st : crawler)
    : crawler :=
  mkCrawler (base_url st) (domain st) (max_depth st) (visited_urls st)
    (queue st) (html_pages st) (backend_endpoints st) (functions st)
    (stop_event st) (prog st) (printed st ++ [(t, value)]) (processed st).

Definition add_html (x : string) (st : crawler) : crawler :=
  mkCrawler (base_url st) (domain st) (max_depth st) (visited_urls st)
    (queue st) ({[x]} ∪ html_pages st) (backend_endpoints st) (functions st)
    (stop_event st) (prog st) (printed st) (processed st).

Definition add_backend (x : string) (st : crawler) : crawler :=
  mkCrawler (base_url st) (domain st) (max_depth st) (visited_urls st)
    (queue st) (html_pages st) ({[x]} ∪ backend_endpoints st) (functions st)
    (stop_event st) (prog st) (printed st) (processed st).

Definition update_functions (fs : pyset) (st : crawler) : crawler :=
  mkCrawler (base_url st) (domain st) (max_depth st) (visited_urls st)
    (queue st) (html_pages st) (backend_endpoints st)
    (functions st ∪ list_to_set fs) (stop_event st) (prog st) (printed st)
    (processed st).

(** The locked block at the head of a loop iteration. *)
Definition mark_visited (url : string) (d : Z) (st : crawler) : crawler :=
  mkCrawler (base_url st) (domain st) (max_depth st)
    ({[url]} ∪ visited_urls st) (queue st) (html_pages st)
    (backend_endpoints st) (functions st) (stop_event st)
    (mkProgress (crawled (prog st) + 1) (Z.of_nat (length (queue st))) d)
    (printed st) (processed st ++ [(url, d)]).

(** [self.queue.append((link, depth + 1))] and the update of the queued
    counter. *)
Definition enqueue (link : string) (d : Z) (st : crawler) : crawler :=
  let st := set_queue (queue st ++ [(link, d)]) st in
  set_prog (mkProgress (crawled (prog st)) (Z.of_nat (length (queue st)))
              (depth (prog st))) st.

Section Crawler.
Variable W : World.

Definition urlparse (url : string) : option Urllib.ParseResult :=
  Urllib.urlparse (check_netloc W) url EmptyString.

Definition urljoin (base url : string) : option string :=
  Urllib.urljoin (check_netloc W) base url.

(** [LiveCrawler.__init__]; [None] when [urlparse(base_url)] raises. *)
Definition init (base : string) (maxd : Z) : option crawler :=
  p ← urlparse base;
  Some (mkCrawler base (Urllib.netloc p) maxd ∅ [(base, 0)] ∅ ∅ ∅ false
          (mkProgress 0 1 0) [] []).

(** [is_valid_url]; [None] when [urlparse(url)] raises. *)
Definition is_valid_url (dom url : string) : option bool :=
  parsed ← urlparse url;
  Some (Str.eqb (Urllib.netloc parsed) dom
        && Str.among ["http"; "https"] (Urllib.scheme parsed)).

(** The attribute [find_links] reads from an element. *)
Definition link_attr (name : string) : option string :=
  if Str.among ["a"; "link"] name then Some "href"
  else if Str.among ["script"; "frame"; "iframe"] name then Some "src"
  else if Str.eqb name "form" then Some "action"
  else None.

Fixpoint find_links_loop (dom : string) (elements : list Tag)
    (base : string) (links : pyset) : option pyset :=
  match elements with
  | [] => Some links
  | element :: rest =>
      match link_attr (tag_name element) with
      | Some attr =>
          match urljoin base (tag_get element attr) with
          | None => None
          | Some url =>
              match is_valid_url dom url with
              | None => None
              | Some valid =>
                  find_links_loop dom rest base
                    (if valid then pyset_add url links else links)
              end
          end
      | None => find_links_loop dom rest base links
      end
  end.

(** [find_links]; [None] when [urljoin] or [urlparse] raises. *)
Definition find_links (dom : string) (soup : list Tag) (base : string)
    : option pyset :=
  find_links_loop dom
    (find_all ["a"; "form"; "frame"; "iframe"; "script"; "link"] soup)
    base [].

Definition process_endpoint (url : string) (st : crawler) : crawler :=
  let classification := classify_endpoint url in
  let clean := clean_url url in
  if bool_decide (classification = Html)
     && negb (bool_decide (clean ∈ html_pages st))
  then print_finding FHtml clean (add_html clean st)
  else if bool_decide (classification = Backend)
          && negb (bool_decide (clean ∈ backend_endpoints st))
  then print_finding FBackend clean (add_backend clean st)
  else st.

(** The loop over the API calls found in a script; the flag is [true]
    when [urljoin] or [is_valid_url] raised, the state is the one reached
    until then. *)
Fixpoint analyze_api_calls (url : string) (api_calls : list string)
    (st : crawler) : crawler * bool :=
  match api_calls with
  | [] => (st, false)
  | ep :: rest =>
      match urljoin url ep with
      | None => (st, true)
      | Some full_url =>
          match is_valid_url (domain st) full_url with
          | None => (st, true)
          | Some valid =>
              analyze_api_calls url rest
                (if valid then process_endpoint full_url st else st)
          end
      end
  end.

(** The [try] block of [analyze_js]: the set it returns, or [None] when
    an exception is raised; the state is the one reached until then. *)
Definition analyze_js_try (url : string) (st : crawler)
    : option pyset * crawler :=
  match requests_get W url with
  | None => (None, st)
  | Some content =>
      let api_calls :=
        Re.group 1 <$> Re.findall true Patterns.api_call content in
      let '(st, raised) := analyze_api_calls url api_calls st in
      if raised then (None, st)
      else
        let fns := Re.findall false Patterns.declaration content in
        (Some (pyset_of (Re.group 2 <$> fns)), st)
  end.

(** [analyze_js]: the bare [except] answers every exception with the
    empty set. *)
Definition analyze_js (url : string) (st : crawler) : pyset * crawler :=
  let '(r, st) := analyze_js_try url st in (default [] r, st).

(** The locked block that merges the names returned by [analyze_js]. *)
Definition merge_functions (fns : pyset) (st : crawler) : crawler :=
  foldl (fun st fn => print_finding FFunction fn st)
    (update_functions fns st) (set_iter W fns).

(** The loop over the links of a page. *)
Definition crawl_links (links : list string) (d : Z) (st : crawler)
    : crawler :=
  foldl (fun st link =>
           let st := process_endpoint link st in
           if bool_decide (link ∈ visited_urls st) then st
           else enqueue link (d + 1) st)
    st links.

(** The loop over the script elements of a page; the flag is [true] when
    [urljoin] raised. *)
Fixpoint crawl_scripts (url : string) (scripts : list Tag) (st : crawler)
    : crawler * bool :=
  match scripts with
  | [] => (st, false)
  | script :: rest =>
      match script_src W script with
      | None => crawl_scripts url rest st
      | Some src =>
          match urljoin url src with
          | None => (st, true)
          | Some js_url =>
              let '(fns, st) := analyze_js js_url st in
              crawl_scripts url rest (merge_functions fns st)
          end
      end
  end.

(** The body of the inner [try]: any exception abandons the entry and
    keeps the state reached until then. *)
Definition crawl_page (url : string) (d : Z) (st : crawler) : crawler :=
  match requests_get W url with
  | None => st
  | Some text =>
      let st := process_endpoint url st in
      let soup := BeautifulSoup W text in
      match find_links (domain st) soup url with
      | None => st
      | Some links =>
          let st := crawl_links (set_iter W links) d st in
          fst (crawl_scripts url (find_all ["script"] soup) st)
      end
  end.

(** One iteration of the [while] loop; [None] when the loop condition
    fails. *)
Definition crawl_step (st : crawler) : option crawler :=
  if stop_event st then None
  else
    match queue st with
    | [] => None
    | (url, d) :: q =>
        let st := set_queue q st in
        if bool_decide (url ∈ visited_urls st) || (d >? max_depth st)
        then Some st
        else Some (crawl_page url d (mark_visited url d st))
    end.

(** The [while] loop; [None] when the fuel runs out before the loop
    ends. *)
Fixpoint crawl_loop (fuel : nat) (st : crawler) : option crawler :=
  match crawl_step st with
  | None => Some st
  | Some st' =>
      match fuel with
      | O => None
      | S fuel' => crawl_loop fuel' st'
      end
  end.

(** [crawl]: the loop, then [self.stop_event.set()]. *)
Definition crawl (fuel : nat) (st : crawler) : option crawler :=
  set_stop_event true <$> crawl_loop fuel st.

End Crawler.

(** ** The report and the command line *)

(** [sorted(s)] for a set of strings: Python orders strings by code point,
    a shorter string before its extensions. *)
Definition str_le (a b : string) : Prop := String.leb a b = true.

Global Instance str_le_dec : RelDecision str_le.
Proof. intros a b. unfold str_le. apply _. Defined.

Definition py_sorted (s : gset string) : list string :=
  merge_sort str_le (elements s).

Record stats : Type := mkStats {
  total_html : nat;
  total_backend : nat;
  total_functions : nat;
  stats_max_depth : Z
}.

Record report : Type := mkReport {
  report_target : string;
  report_html_pages : list string;
  report_backend_endpoints : list string;
  report_functions : list string;
  report_stats : stats
}.

(** [generate_report] *)
Definition generate_report (st : crawler) : report :=
  mkReport (base_url st)
    (py_sorted (html_pages st))
    (py_sorted (backend_endpoints st))
    (py_sorted (functions st))
    (mkStats (size (html_pages st)) (size (backend_endpoints st))
       (size (functions st)) (max_depth st)).

(** [s.replace(a, b)] for one-character [a] and [b]. *)
Definition replace_char (a b : ascii) (s : string) : string :=
  Str.map (fun c => if Str.ceqb c a then b else c) s.

(** The first lines of [main]: the URL is stripped of surrounding
    whitespace and gets the scheme http when [urlparse] finds none;
    [None] when [urlparse] raises.  [strip()] removes the ASCII whitespace
    here; Python also removes whitespace beyond ASCII (U+00A0 and others),
    so the statements about this function are made for ASCII input. *)
Definition normalize_target (W : World) (url : string) : option string :=
  let target_url := Str.strip Re.is_space url in
  match urlparse W target_url with
  | None => None
  | Some p =>
      Some (if Str.is_empty (Urllib.scheme p)
            then "http://" +:+ target_url else target_url)
  end.

(** The depth [main] announces: [None] stands for the word "unlimited". *)
Definition announced_depth (d : Z) : option Z :=
  if d >? 0 then Some d else None.

(** The name of the report file. *)
Definition report_filename (W : World) (target_url : string)
    : option string :=
  match urlparse W target_url with
  | None => None
  | Some p =>
      Some (replace_char ":" "_" (Urllib.netloc p) +:+ "_security_scan.json")
  end.

(** [main] up to the report it writes: [None] when [urlparse] raises or the
    fuel does not suffice. *)
Definition main (W : World) (url : string) (d : Z) (fuel : nat)
    : option (string * report) :=
  match normalize_target W url with
  | None => None
  | Some target_url =>
      match init W target_url d with
      | None => None
      | Some c =>
          match crawl W fuel c with
          | None => None
          | Some st =>
              match report_filename W target_url with
              | None => None
              | Some filename => Some (filename, generate_report st)
              end
          end
      end
  end.

(** ** Notions used in the statements *)

Definition query_or_fragment (c : ascii) : bool :=
  Str.ceqb "?" c || Str.ceqb "#" c.

Definition matches_any (patterns : list Re.regex) (url : string) : Prop :=
  exists p, p ∈ patterns /\ Re.search true p url = true.

(** The states the loop can reach from [st0]. *)
Inductive reachable (W : World) (st0 : crawler) : crawler -> Prop :=
| reachable_start : reachable W st0 st0
| reachable_step st st' :
    reachable W st0 st -> crawl_step W st = Some st' -> reachable W st0 st'.

(** [process_endpoint] over a list of URLs, and the canonical keys such a
    run files under each category. *)
Definition process_all (us : list string) (st : crawler) : crawler :=
  foldl (fun st u => process_endpoint u st) st us.

Definition html_keys (us : list string) : gset string :=
  list_to_set (clean_url <$> filter (fun u => classify_endpoint u = Html) us).

Definition backend_keys (us : list string) : gset string :=
  list_to_set
    (clean_url <$> filter (fun u => classify_endpoint u = Backend) us).

(** What the steps of a page visit do, as data: the URLs handed to
    [process_endpoint], the names merged into [found['functions']] and the
    links offered to the frontier.  These follow the control flow of
    [analyze_js] and [crawl] and are related to them by the lemmas
    [analyze_js_trace] and [crawl_page_effect]. *)
Fixpoint api_trace (W : World) (dom url : string) (api_calls : list string)
    : list string * bool :=
  match api_calls with
  | [] => ([], false)
  | ep :: rest =>
      match urljoin W url ep with
      | None => ([], true)
      | Some full_url =>
          match is_valid_url W dom full_url with
          | None => ([], true)
          | Some valid =>
              let '(us, raised) := api_trace W dom url rest in
              ((if valid then [full_url] else []) ++ us, raised)
          end
      end
  end.

Definition js_trace (W : World) (dom url : string)
    : list string * option pyset :=
  match requests_get W url with
  | None => ([], None)
  | Some content =>
      let '(us, raised) :=
        api_trace W dom url
          (Re.group 1 <$> Re.findall true Patterns.api_call content) in
      (us,
       if raised then None
       else Some (pyset_of (Re.group 2 <$>
                              Re.findall false Patterns.declaration content)))
  end.

Fixpoint scripts_trace (W : World) (dom url : string) (scripts : list Tag)
    : list string * list string :=
  match scripts with
  | [] => ([], [])
  | script :: rest =>
      match script_src W script with
      | None => scripts_trace W dom url rest
      | Some src =>
          match urljoin W url src with
          | None => ([], [])
          | Some js_url =>
              let '(us, r) := js_trace W dom js_url in
              let '(us', fs') := scripts_trace W dom url rest in
              (us ++ us', default [] r ++ fs')
          end
      end
  end.

(** The set [find_links] returns for a page, empty when the page cannot be
    fetched or [find_links] raises. *)
Definition page_link_set (W : World) (dom url : string) : pyset :=
  match requests_get W url with
  | None => []
  | Some text =>
      default [] (find_links W dom (BeautifulSoup W text) url)
  end.

(** The links of a page in the order the loop takes them. *)
Definition page_links (W : World) (dom url : string) : list string :=
  match requests_get W url with
  | None => []
  | Some text =>
      match find_links W dom (BeautifulSoup W text) url with
      | None => []
      | Some links => set_iter W links
      end
  end.

Definition page_trace (W : World) (dom url : string)
    : list string * list string :=
  match requests_get W url with
  | None => ([], [])
  | Some text =>
      let soup := BeautifulSoup W text in
      match find_links W dom soup url with
      | None => ([url], [])
      | Some links =>
          let '(us, fs) :=
            scripts_trace W dom url (find_all ["script"] soup) in
          (url :: set_iter W links ++ us, fs)
      end
  end.

(** The iteration order of every set is a rearrangement of its members. *)
Definition lawful (W : World) : Prop :=
  forall s : pyset, set_iter W s ≡ₚ s.

(** Two worlds that differ at most in the iteration order of sets. *)
Definition same_site (W1 W2 : World) : Prop :=
  requests_get W1 = requests_get W2
  /\ BeautifulSoup W1 = BeautifulSoup W2
  /\ script_src W1 = script_src W2
  /\ check_netloc W1 = check_netloc W2.

(** The scheme and the network location [urlparse] finds in a URL. *)
Definition url_head (url : string) : string * string :=
  let url :=
    Str.remove Urllib.unsafe_byte
      (Str.lstrip Urllib.c0_control_or_space url) in
  let '(scheme, rest) := Urllib.split_scheme url EmptyString in
  (scheme, (Urllib.split_netloc rest).1).

(** A URL on the target: it parses, its host is the target domain and its
    scheme is http or https. *)
Definition on_target (W : World) (dom url : string) : Prop :=
  exists p, urlparse W url = Some p /\ Urllib.netloc p = dom
            /\ Urllib.scheme p ∈ ["http"; "https"].

(** The transport of [requests] serves http and https only: a seed with
    another scheme makes [requests.get] raise. *)
Definition seed_transport (W : World) (base : string) : Prop :=
  forall text p,
    requests_get W base = Some text -> urlparse W base = Some p ->
    Urllib.scheme p ∈ ["http"; "https"].

(** *** The link graph of a site *)

(** [link_path W dom n u v]: [v] is reached from [u] by following [n]
    links, each taken from a page that is fetched and scanned without an
    exception. *)
Inductive link_path (W : World) (dom : string)
    : nat -> string -> string -> Prop :=
| link_path_here u : link_path W dom 0 u u
| link_path_next n u v w :
    link_path W dom n u v -> w ∈ page_link_set W dom v ->
    link_path W dom (S n) u w.

(** The URLs at most [maxd] links away from [base]. *)
Definition within_depth (W : World) (dom base : string) (maxd : Z)
    (u : string) : Prop :=
  exists n : nat, Z.of_nat n <= maxd /\ link_path W dom n base u.

(** The number of frontier entries that a frontier entry for [u] can give
    rise to (itself included) when [r] more levels may be processed. *)
Fixpoint tree_size (W : World) (dom : string) (r : nat) (u : string) : nat :=
  match r with
  | O => 1
  | S r' => S (sum_list_with (tree_size W dom r') (page_links W dom u))
  end.

(** The levels left for an entry of depth [d]. *)
Definition budget (maxd d : Z) : nat := Z.to_nat (maxd + 1 - d).

Definition entry_weight (W : World) (dom : string) (maxd : Z)
    (e : string * Z) : nat :=
  tree_size W dom (budget maxd e.2) e.1.

(** A bound on the number of iterations the loop still makes. *)
Definition queue_weight (W : World) (st : crawler) : nat :=
  sum_list_with (entry_weight W (domain st) (max_depth st)) (queue st).

(** The frontier during a breadth-first traversal that is at level [k]:
    [q1] holds the pending entries of level [k], [q2] the entries of level
    [k + 1] appended so far. *)
Record bfs_inv (W : World) (base dom : string) (maxd : Z) (st : crawler)
    (k : nat) (q1 q2 : list (string * Z)) : Prop := mkBfs {
  bfs_queue : queue st = q1 ++ q2;
  bfs_q1 : forall u d, (u, d) ∈ q1 ->
                       d = Z.of_nat k /\ link_path W dom k base u;
  bfs_q2 : forall u d, (u, d) ∈ q2 ->
                       d = Z.of_nat k + 1 /\ link_path W dom (S k) base u;
  bfs_below : forall n u, (n < k)%nat -> Z.of_nat n <= maxd ->
                          link_path W dom n base u -> u ∈ visited_urls st;
  bfs_level : Z.of_nat k <= maxd ->
              forall u, link_path W dom k base u ->
                        u ∈ visited_urls st \/ (u, Z.of_nat k) ∈ q1;
  bfs_closed : forall v l,
      v ∈ visited_urls st -> l ∈ page_link_set W dom v ->
      l ∈ visited_urls st \/ (l, Z.of_nat k) ∈ q1
      \/ (l, Z.of_nat k + 1) ∈ q2 \/ ~ within_depth W dom base maxd l;
  bfs_sound : forall v, v ∈ visited_urls st ->
                        within_depth W dom base maxd v;
  bfs_seed : base ∈ visited_urls st \/ (base, 0) ∈ q1 \/ maxd < 0;
  bfs_domain : domain st = dom;
  bfs_max_depth : max_depth st = maxd;
  bfs_running : stop_event st = false
}.

(** The findings are those of the pages visited so far. *)
Definition findings_inv (W : World) (dom : string) (st : crawler) : Prop :=
  (forall x, x ∈ html_pages st <->
             exists v, v ∈ visited_urls st
                       /\ x ∈ html_keys (page_trace W dom v).1)
  /\ (forall x, x ∈ backend_endpoints st <->
                exists v, v ∈ visited_urls st
                          /\ x ∈ backend_keys (page_trace W dom v).1)
  /\ (forall x, x ∈ functions st <->
                exists v, v ∈ visited_urls st
                          /\ x ∈ (page_trace W dom v).2).

(** The values printed for one kind of finding, in order. *)
Definition notified (t : finding_type) (st : crawler) : list string :=
  (filter (fun n => n.1 = t) (printed st)).*2.

(** The output agrees with the findings: every page key and every backend
    key in the findings has been printed exactly once, and the function
    names printed are the names in the findings. *)
Definition notifications_agree (st : crawler) : Prop :=
  NoDup (notified FHtml st)
  /\ (forall x, x ∈ notified FHtml st <-> x ∈ html_pages st)
  /\ NoDup (notified FBackend st)
  /\ (forall x, x ∈ notified FBackend st <-> x ∈ backend_endpoints st)
  /\ (forall x, x ∈ notified FFunction st <-> x ∈ functions st).

(** [st'] extends [st]: nothing found, printed, visited or processed in
    [st] is missing from [st']. *)
Definition extends (st st' : crawler) : Prop :=
  html_pages st ⊆ html_pages st'
  /\ backend_endpoints st ⊆ backend_endpoints st'
  /\ functions st ⊆ functions st'
  /\ printed st `prefix_of` printed st'
  /\ visited_urls st ⊆ visited_urls st'
  /\ processed st `prefix_of` processed st'.

(** The bookkeeping of the loop: each URL is processed once, the visited
    set holds the processed URLs, and the counters follow. *)
Definition bookkeeping (st : crawler) : Prop :=
  NoDup (processed st).*1
  /\ visited_urls st = list_to_set (processed st).*1
  /\ crawled (prog st) = Z.of_nat (length (processed st))
  /\ size (visited_urls st) = length (processed st)
  /\ forall e, last (processed st) = Some e -> depth (prog st) = e.2.

(** The frontier of a run from [base]: the seed at depth 0 and validated
    links at depths from 1 to one past the bound; the [queued] counter is
    never below the length of the frontier. *)
Definition frontier_ok (W : World) (base dom : string) (maxd : Z)
    (st : crawler) : Prop :=
  (forall u d, (u, d) ∈ queue st ->
     (u = base /\ d = 0) \/ (on_target W dom u /\ 1 <= d <= maxd + 1))
  /\ Z.of_nat (length (queue st)) <= queued (prog st).

(** [n] is the least number of links from [base] to [u]. *)
Definition shortest_path (W : World) (dom base : string) (n : nat)
    (u : string) : Prop :=
  link_path W dom n base u
  /\ forall m, (m < n)%nat -> ~ link_path W dom m base u.

(** Entries are processed in order of depth, each URL at the depth that is
    its distance from the seed. *)
Definition breadth_first (W : World) (base dom : string) (st : crawler)
    : Prop :=
  StronglySorted Z.le (processed st).*2
  /\ forall u d, (u, d) ∈ processed st ->
                 exists n : nat, d = Z.of_nat n
                                 /\ shortest_path W dom base n u.

(** [element] offers the reference [ref] to [find_links]: it is of a
    scanned kind and [ref] is the value of the attribute read from it (the
    empty string when the attribute is missing). *)
Definition offers (element : Tag) (ref : string) : Prop :=
  exists attr, link_attr (tag_name element) = Some attr
               /\ tag_get element attr = ref.

(** A character that can stand in a plain host name: not a delimiter of
    the network location, not a bracket, and not one of the characters
    [urlparse] deletes. *)
Definition host_char (c : ascii) : bool :=
  negb (Urllib.netloc_delim c || Urllib.unsafe_byte c
        || Str.ceqb c "[" || Str.ceqb c "]").

(** The text is empty or starts with [/], [?] or [#]. *)
Definition at_delimiter (rest : string) : bool :=
  match rest with
  | EmptyString => true
  | String c _ => Urllib.netloc_delim c
  end.

(** [text] is [word] up to the case of letters. *)
Fixpoint same_text (word text : string) : bool :=
  match word, text with
  | EmptyString, EmptyString => true
  | String a word', String c text' =>
      Re.char_match true a c && same_text word' text'
  | _, _ => false
  end.

(** *** ASCII text *)

(** The character classes of [Re] and [Str] are those of Python for ASCII
    text; statements that depend on them are made for ASCII text. *)
Definition ascii_char (c : ascii) : bool := (Str.code c <? 128)%N.

Definition ascii_text (s : string) : bool := Str.forallb ascii_char s.

(** The text is empty or starts with an ASCII character that is not a
    word character. *)
Definition ascii_word_end (rest : string) : bool :=
  match rest with
  | EmptyString => true
  | String c _ => ascii_char c && negb (Re.is_word c)
  end.

(** *** The shapes the classifier looks for *)

Definition backend_extensions : list string :=
  ["json"; "xml"; "ashx"; "asmx"; "php"; "jsp"; "do"; "action"; "api";
   "rest"; "cgi"].

Definition page_extensions : list string :=
  ["html"; "htm"; "asp"; "aspx"; "cfm"].

(** [url] holds a dot, then one of the extensions [exts] in any case,
    and the extension ends the URL or is followed by a character that is
    not a word character. *)
Definition has_extension (exts : list string) (url : string) : Prop :=
  exists pre text post ext,
    url = pre +:+ "." +:+ text +:+ post
    /\ ext ∈ exts /\ same_text ext text = true
    /\ ascii_word_end post = true.

(** [url] holds one of [markers], in any case. *)
Definition has_marker (markers : list string) (url : string) : Prop :=
  exists pre text post marker,
    url = pre +:+ text +:+ post
    /\ marker ∈ markers /\ same_text marker text = true.

(** [url] holds a question mark, then at once one of [keys] in any case
    and an equals sign. *)
Definition has_first_key (keys : list string) (url : string) : Prop :=
  exists pre text post key,
    url = pre +:+ "?" +:+ text +:+ "=" +:+ post
    /\ key ∈ keys /\ same_text key text = true.

Definition plain_char (c : ascii) : bool :=
  negb (Str.ceqb c "/" || Str.ceqb c ".").

(** [url] ends with a slash and a non-empty text without slash and dot. *)
Definition has_plain_end (url : string) : Prop :=
  exists pre seg,
    url = pre +:+ "/" +:+ seg
    /\ seg <> EmptyString /\ Str.forallb plain_char seg = true.

Definition backend_shape (url : string) : Prop :=
  has_extension backend_extensions url
  \/ has_marker ["/api/"; "/ws/"; "/rest/"] url
  \/ has_first_key ["action"; "method"; "api_key"] url.

Definition page_shape (url : string) : Prop :=
  has_extension page_extensions url \/ has_plain_end url.

(** *** What a pattern matches *)

(** [re_matches icase r prev s caps prev' s' caps']: the pattern [r] matches
    a prefix of [s] that leaves [s']; [prev] and [prev'] are the characters
    before the two positions, [caps] and [caps'] the groups before and
    after. *)
Inductive re_matches (icase : bool)
  : Re.regex -> option ascii -> string -> Re.captures ->
    option ascii -> string -> Re.captures -> Prop :=
| matches_eps prev s caps :
    re_matches icase Re.REps prev s caps prev s caps
| matches_char a c s prev caps :
    Re.char_match icase a c = true ->
    re_matches icase (Re.RChar a) prev (String c s) caps (Some c) s caps
| matches_set negated items c s prev caps :
    Re.set_match icase negated items c = true ->
    re_matches icase (Re.RSet negated items) prev (String c s) caps
      (Some c) s caps
| matches_seq r1 r2 prev s caps p1 s1 c1 p2 s2 c2 :
    re_matches icase r1 prev s caps p1 s1 c1 ->
    re_matches icase r2 p1 s1 c1 p2 s2 c2 ->
    re_matches icase (Re.RSeq r1 r2) prev s caps p2 s2 c2
| matches_alt_l r1 r2 prev s caps p1 s1 c1 :
    re_matches icase r1 prev s caps p1 s1 c1 ->
    re_matches icase (Re.RAlt r1 r2) prev s caps p1 s1 c1
| matches_alt_r r1 r2 prev s caps p1 s1 c1 :
    re_matches icase r2 prev s caps p1 s1 c1 ->
    re_matches icase (Re.RAlt r1 r2) prev s caps p1 s1 c1
| matches_plus_one r prev s caps p1 s1 c1 :
    re_matches icase r prev s caps p1 s1 c1 ->
    re_matches icase (Re.RPlus r) prev s caps p1 s1 c1
| matches_plus_more r prev s caps p1 s1 c1 p2 s2 c2 :
    re_matches icase r prev s caps p1 s1 c1 ->
    re_matches icase (Re.RPlus r) p1 s1 c1 p2 s2 c2 ->
    re_matches icase (Re.RPlus r) prev s caps p2 s2 c2
| matches_group n r prev s caps p1 s1 c1 :
    re_matches icase r prev s caps p1 s1 c1 ->
    re_matches icase (Re.RGroup n r) prev s caps p1 s1
      ((n, Re.consumed s s1) :: c1)
| matches_wordb prev s caps :
    xorb (Re.word_opt prev) (Re.word_opt (Re.peek s)) = true ->
    re_matches icase Re.RWordB prev s caps prev s caps
| matches_end prev s caps :
    Re.at_end s = true ->
    re_matches icase Re.REnd prev s caps prev s caps.

(** The character before the position reached after reading [s], when
    [prev] is the character before [s]. *)
Fixpoint last_char (prev : option ascii) (s : string) : option ascii :=
  match s with
  | EmptyString => prev
  | String c s' => last_char (Some c) s'
  end.

(** *** What the script analysis reads *)

(** The first character and the further characters of a name that the
    declaration pattern accepts, and the two quote characters. *)
Definition ident_start (c : ascii) : bool :=
  Str.is_alpha c || Str.ceqb c "_" || Str.ceqb c "$".

Definition ident_char (c : ascii) : bool :=
  Re.is_word c || Str.ceqb c "$".

Definition quote_char (c : ascii) : bool :=
  Str.ceqb c "'" || Str.ceqb c Patterns.dquote.

(** [name] stands in [content] the way the declaration pattern reads it:
    after one of the four keywords, which does not follow a word
    character, and some whitespace; it has an accepted first character and
    at least one further accepted character, and a word boundary follows
    it. *)
Definition declared_in (content name : string) : Prop :=
  exists pre kw sp post c rest,
    content = pre +:+ kw +:+ sp +:+ name +:+ post
    /\ kw ∈ ["function"; "const"; "let"; "var"]
    /\ Re.word_opt (last_char None pre) = false
    /\ sp <> EmptyString /\ Str.forallb Re.is_space sp = true
    /\ name = String c rest /\ ident_start c = true
    /\ rest <> EmptyString /\ Str.forallb ident_char rest = true
    /\ xorb (Re.word_opt (last_char None name)) (Re.word_opt (Re.peek post))
       = true.

(** [ep] stands in [content] the way the API-call pattern reads it: after
    one of the four callee names (in any case), an opening parenthesis and
    a quote; it is not empty and holds no quote. *)
Definition called_in (content ep : string) : Prop :=
  exists pre callee q post w,
    content = pre +:+ callee +:+ "(" +:+ String q ep +:+ post
    /\ w ∈ ["fetch"; "axios"; ".ajax"; "XMLHttpRequest"]
    /\ same_text w callee = true
    /\ quote_char q = true
    /\ ep <> EmptyString
    /\ Str.forallb (fun c => negb (quote_char c)) ep = true.

(** The key [x] comes from an API call in the script at [url]: the script
    holds a call with the reference [ep], which [urljoin] resolves against
    the URL of the script to a URL that passes [is_valid_url], has the
    class [k] and the canonical key [x]. *)
Definition key_of_call (W : World) (dom url : string) (k : classification)
    (x : string) : Prop :=
  exists content ep full,
    requests_get W url = Some content /\ called_in content ep
    /\ urljoin W url ep = Some full
    /\ is_valid_url W dom full = Some true
    /\ classify_endpoint full = k /\ clean_url full = x.

(** *** The URLs of a run *)

(** [u] was handed to [process_endpoint] during the visit of one of the
    pages visited so far. *)
Definition handed (W : World) (dom : string) (st : crawler) (u : string)
    : Prop :=
  exists v, v ∈ visited_urls st /\ u ∈ (page_trace W dom v).1.


(** What [analyze_js] does with one API call: the URL the reference is
    resolved to and whether it is valid; [None] when [urljoin] or
    [is_valid_url] raises. *)
Definition call_target (W : World) (dom url ep : string)
    : option (string * bool) :=
  match urljoin W url ep with
  | None => None
  | Some full_url =>
      match is_valid_url W dom full_url with
      | None => None
      | Some valid => Some (full_url, valid)
      end
  end.

(** The URLs handed to [process_endpoint] for the calls [eps]. *)
Definition stored_targets (W : World) (dom url : string) (eps : list string)
    : list string :=
  omap (fun ep =>
          match call_target W dom url ep with
          | Some (full_url, true) => Some full_url
          | _ => None
          end) eps.

(** *** Which fields an operation leaves alone *)

(** [st'] differs from [st] in the findings and the output only. *)
Definition same_control (st st' : crawler) : Prop :=
  base_url st' = base_url st /\ domain st' = domain st
  /\ max_depth st' = max_depth st /\ visited_urls st' = visited_urls st
  /\ queue st' = queue st /\ stop_event st' = stop_event st
  /\ prog st' = prog st /\ processed st' = processed st.

(** [st'] differs from [st] at most in the frontier, the counters, the
    findings and the output. *)
Definition same_fixed (st st' : crawler) : Prop :=
  base_url st' = base_url st /\ domain st' = domain st
  /\ max_depth st' = max_depth st /\ visited_urls st' = visited_urls st
  /\ stop_event st' = stop_event st /\ processed st' = processed st.

(** [st'] has the findings and the output of [st]. *)
Definition same_findings (st st' : crawler) : Prop :=
  html_pages st' = html_pages st
  /\ backend_endpoints st' = backend_endpoints st
  /\ functions st' = functions st /\ printed st' = printed st.

(** The frontier entries a page visit appends for its links. *)
Definition fresh_entries (visited : gset string) (links : list string)
    (d : Z) : list (string * Z) :=
  (fun l => (l, d)) <$> filter (fun l => l ∉ visited) links.

(** ** A small mocked site *)

Module Site.

Definition anchor (href : string) : Tag := mkTag "a" {[ "href" := href ]}.

Definition seed : string := "http://x.test/".

(** The responses of the site, by URL. *)
Definition pages (url : string) : option string :=
  if Str.eqb url "http://x.test/" then Some "home"
  else if Str.eqb url "http://x.test/page" then Some "page"
  else if Str.eqb url "http://x.test/app.js"
  then Some "fetch('/api/orders'); function loadData(){}"
  else if Str.eqb url "http://x.test/lib.js"
  then Some "function loadData(){ return 1 }"
  else if Str.eqb url "http://x.test/short.js"
  then Some "function f(){} var x = 1; let y; const z = 2"
  else if Str.eqb url "http://x.test/broken.js"
  then Some "fetch('/api/a'); fetch('//['); function late(){}"
  else None.

(** The home page links to [/page?action=show], to [/page] and to another
    host, and has a form without an action; the other pages are empty. *)
Definition parse (text : string) : list Tag :=
  if Str.eqb text "home"
  then [anchor "/page?action=show"; anchor "/page";
        anchor "http://other.test/evil"; mkTag "form" ∅]
  else [].

(** Two interpreter processes: the same site, two iteration orders.
    [script.src] is [None] for every element, as with [html.parser]. *)
Definition world (order : pyset -> list string) : World :=
  mkWorld pages parse (fun _ => None) order (fun _ => true).

Definition W1 : World := world (fun s => s).
Definition W2 : World := world (@rev string).

Definition start : crawler :=
  mkCrawler seed "x.test" 3 ∅ [(seed, 0)] ∅ ∅ ∅ false (mkProgress 0 1 0)
    [] [].

End Site.

(** Closed decidable statements are settled by evaluation. *)
Ltac by_compute := apply (bool_decide_unpack _); vm_compute; exact I.

(** ** Facts about strings *)

Module StrFacts.
Import Str.

Lemma ceqb_eq a b : ceqb a b = true <-> a = b.
Proof. unfold ceqb. by rewrite bool_decide_eq_true. Qed.

Lemma eqb_eq a b : eqb a b = true <-> a = b.
Proof. unfold eqb. by rewrite bool_decide_eq_true. Qed.

Lemma among_spec l x : among l x = true <-> x ∈ l.
Proof. unfold among. by rewrite bool_decide_eq_true. Qed.

Lemma before_none p s : forallb (fun c => negb (p c)) s = true -> before p s = s.
Proof.
  induction s as [|a s IH]; simpl; [done|].
  intros [Ha Hs]%andb_prop. apply negb_true_iff in Ha. rewrite Ha.
  by rewrite IH.
Qed.

Lemma before_clear p s : forallb (fun c => negb (p c)) (before p s) = true.
Proof.
  induction s as [|a s IH]; simpl; [done|].
  destruct (p a) eqn:Ha; simpl; [done|]. by rewrite Ha, IH.
Qed.

Lemma before_forallb p q s : forallb q s = true -> forallb q (before p s) = true.
Proof.
  induction s as [|a s IH]; simpl; [done|].
  intros [Ha Hs]%andb_prop. destruct (p a); simpl; [done|].
  by rewrite Ha, IH.
Qed.

(** Cutting at the first character of a larger class, after cutting at
    the first character of a smaller one. *)
Lemma before_before p q s :
  (forall c, q c = true -> p c = true) -> before p (before q s) = before p s.
Proof.
  intros Hqp. induction s as [|a s IH]; simpl; [done|].
  destruct (q a) eqn:Hq; simpl.
  - by rewrite (Hqp _ Hq).
  - destruct (p a); [done|]. by rewrite IH.
Qed.

Lemma before_idem p s : before p (before p s) = before p s.
Proof. by apply before_before. Qed.

(** Two cuts in a row are one cut at the first character of either
    class. *)
Lemma before_or p q s :
  before q (before p s) = before (fun c => p c || q c) s.
Proof.
  induction s as [|a s IH]; simpl; [done|].
  destruct (p a); simpl; [done|]. destruct (q a); [done|]. by rewrite IH.
Qed.

Lemma lstrip_before p q s :
  (forall c, q c = true -> p c = false) ->
  lstrip p (before q s) = before q (lstrip p s).
Proof.
  intros Hd. induction s as [|a s IH]; simpl; [done|].
  destruct (q a) eqn:Hq.
  - rewrite (Hd _ Hq). simpl. by rewrite Hq.
  - simpl. destruct (p a); [done|]. simpl. by rewrite Hq.
Qed.

Lemma remove_before p q s :
  (forall c, q c = true -> p c = false) ->
  remove p (before q s) = before q (remove p s).
Proof.
  intros Hd. induction s as [|a s IH]; simpl; [done|].
  destruct (q a) eqn:Hq.
  - rewrite (Hd _ Hq). simpl. by rewrite Hq.
  - simpl. destruct (p a); [done|]. simpl. by rewrite Hq, IH.
Qed.

Lemma take_before n p s :
  forallb (fun c => negb (p c)) (take n s) = true ->
  take n (before p s) = take n s.
Proof.
  revert s. induction n as [|n IH]; intros [|a s]; simpl; try done.
  intros [Ha Hs]%andb_prop. apply negb_true_iff in Ha. rewrite Ha. simpl.
  by rewrite IH.
Qed.

Lemma drop_before n p s :
  forallb (fun c => negb (p c)) (take n s) = true ->
  drop n (before p s) = before p (drop n s).
Proof.
  revert s. induction n as [|n IH]; intros [|a s]; simpl; try done.
  intros [Ha Hs]%andb_prop. apply negb_true_iff in Ha. rewrite Ha. simpl.
  by rewrite IH.
Qed.

End StrFacts.

(** ** Canonical keys *)

Lemma clean_url_before url : clean_url url = Str.before query_or_fragment url.
Proof. unfold clean_url, Str.split_head. apply StrFacts.before_or. Qed.

(** C8. Canonicalization, [url.split('?')[0].split('#')[0]], is idempotent:
    the canonical key of a canonical key is that key. *)
Theorem clean_url_idempotent (u : string) :
  clean_url (clean_url u) = clean_url u.
Proof. rewrite !clean_url_before. apply StrFacts.before_idem. Qed.

(** ** The classifier *)

Lemma any_search_true patterns url :
  any_search patterns url = true <-> matches_any patterns url.
Proof.
  unfold any_search, matches_any. rewrite existsb_exists.
  split; intros (p & Hp & Hs); exists p; split; try done;
    by apply list_elem_of_In.
Qed.

Lemma any_search_false patterns url :
  any_search patterns url = false <-> ~ matches_any patterns url.
Proof. rewrite <- any_search_true. by destruct (any_search patterns url). Qed.

(** ** The link extractor *)

Lemma elem_of_pyset_add x y s : x ∈ pyset_add y s <-> x = y \/ x ∈ s.
Proof.
  unfold pyset_add. case_bool_decide as Hy.
  - split; [by right|]. by intros [->|].
  - rewrite elem_of_app, list_elem_of_singleton. tauto.
Qed.

Lemma NoDup_pyset_add y s : NoDup s -> NoDup (pyset_add y s).
Proof.
  intros Hs. unfold pyset_add. case_bool_decide as Hy; [done|].
  apply NoDup_app. split; [done|]. split; [|apply NoDup_singleton].
  intros x Hx ->%list_elem_of_singleton. done.
Qed.

Lemma urljoin_empty W base : urljoin W base EmptyString = Some base.
Proof. unfold urljoin, Urllib.urljoin. by destruct base. Qed.

Lemma link_attr_kinds name :
  name ∈ ["a"; "link"; "form"; "frame"; "iframe"; "script"] <->
  is_Some (link_attr name).
Proof.
  unfold link_attr. rewrite !elem_of_cons, elem_of_nil.
  repeat (match goal with
          | |- context [Str.among ?l ?x] =>
              destruct (Str.among l x) eqn:?
          | |- context [Str.eqb ?a ?b] => destruct (Str.eqb a b) eqn:?
          | H : Str.among _ _ = true |- _ =>
              apply StrFacts.among_spec in H;
              rewrite !elem_of_cons, elem_of_nil in H
          | H : Str.among _ _ = false |- _ =>
              apply not_true_iff_false in H;
              rewrite StrFacts.among_spec, !elem_of_cons, elem_of_nil in H
          | H : Str.eqb _ _ = true |- _ => apply StrFacts.eqb_eq in H
          | H : Str.eqb _ _ = false |- _ =>
              apply not_true_iff_false in H; rewrite StrFacts.eqb_eq in H
          end);
    split; intros; try (by eexists); try tauto.
  by destruct H as [? ?].
Qed.

Lemma find_links_loop_mono W dom elements base links r :
  find_links_loop W dom elements base links = Some r -> links ⊆ r.
Proof.
  revert links. induction elements as [|e els IH]; simpl; intros links H.
  - by injection H as ->.
  - destruct (link_attr (tag_name e)); [|by apply IH].
    destruct (urljoin W base _); [|done].
    destruct (is_valid_url W dom s0) as [[]|]; [| by apply IH | done].
    apply IH in H. intros x Hx. apply H, elem_of_pyset_add. by right.
Qed.

Lemma find_links_loop_missing W dom elements base links r element :
  element ∈ elements ->
  (exists attr, link_attr (tag_name element) = Some attr
                /\ tag_attrs element !! attr = None) ->
  is_valid_url W dom base = Some true ->
  find_links_loop W dom elements base links = Some r ->
  base ∈ r.
Proof.
  intros Hin (attr & Hattr & Hnone) Hvalid. revert links.
  induction elements as [|e els IH]; [by apply elem_of_nil in Hin|].
  intros links H. simpl in H. apply elem_of_cons in Hin as [<-|Hin].
  - rewrite Hattr in H. unfold tag_get in H. rewrite Hnone in H. simpl in H.
    rewrite urljoin_empty, Hvalid in H.
    apply find_links_loop_mono in H. apply H, elem_of_pyset_add. by left.
  - destruct (link_attr (tag_name e)); [|by eapply IH].
    destruct (urljoin W base _); [|done].
    destruct (is_valid_url W dom s0) as [[]|]; [| |done]; by eapply IH.
Qed.

(** C10. An element of one of the scanned kinds that does not carry the
    attribute [find_links] reads from it ([href], [src] or [action])
    contributes the empty reference, which resolves to the base URL; so
    the base URL is in the returned set whenever it passes the validator. *)
Theorem find_links_missing_attribute (W : World) (dom : string)
    (soup : list Tag) (base : string) (element : Tag) (links : pyset) :
  element ∈ soup ->
  tag_name element ∈ ["a"; "link"; "form"; "frame"; "iframe"; "script"] ->
  (forall attr, link_attr (tag_name element) = Some attr ->
                tag_attrs element !! attr = None) ->
  is_valid_url W dom base = Some true ->
  find_links W dom soup base = Some links ->
  (forall attr, link_attr (tag_name element) = Some attr ->
                urljoin W base (tag_get element attr) = Some base)
  /\ base ∈ links.
Proof.
  intros Hin Hkind Hnone Hvalid Hfind. split.
  - intros attr Hattr. unfold tag_get. rewrite (Hnone _ Hattr). simpl.
    apply urljoin_empty.
  - unfold find_links in Hfind.
    eapply find_links_loop_missing; [| |done|done].
    + unfold find_all. apply list_elem_of_filter. split; [|done].
      revert Hkind. rewrite !elem_of_cons, !elem_of_nil. tauto.
    + apply link_attr_kinds in Hkind as [attr Hattr]. eauto.
Qed.

Lemma find_links_missing_attribute_witness :
  mkTag "form" ∅ ∈ Site.parse "home"
  /\ "http://x.test/" ∈ ["http://x.test/page?action=show";
                         "http://x.test/page"; "http://x.test/"].
Proof.
  split; [vm_compute; set_solver|].
  apply (find_links_missing_attribute Site.W1 "x.test" (Site.parse "home")
           "http://x.test/" (mkTag "form" ∅)).
  - vm_compute. set_solver.
  - vm_compute. set_solver.
  - intros attr H. vm_compute in H. injection H as <-. reflexivity.
  - vm_compute. reflexivity.
  - vm_compute. reflexivity.
Defined.

(** ** The fields each operation touches *)

Lemma same_control_refl st : same_control st st.
Proof. by repeat split. Qed.

Lemma same_control_trans st1 st2 st3 :
  same_control st1 st2 -> same_control st2 st3 -> same_control st1 st3.
Proof.
  unfold same_control. intros H1 H2.
  destruct H1 as (?&?&?&?&?&?&?&?), H2 as (?&?&?&?&?&?&?&?).
  repeat split; congruence.
Qed.

Lemma process_endpoint_control u st : same_control st (process_endpoint u st).
Proof.
  unfold process_endpoint.
  repeat (case_bool_decide; simpl); by repeat split.
Qed.

Lemma process_endpoint_html u st :
  html_pages (process_endpoint u st) =
  html_pages st ∪ html_keys [u].
Proof.
  unfold process_endpoint, html_keys. rewrite filter_cons, filter_nil.
  destruct (decide (classify_endpoint u = Html)) as [Hc|Hc]; simpl.
  - rewrite (bool_decide_eq_true_2 _ Hc). simpl.
    rewrite (bool_decide_eq_false_2 (classify_endpoint u = Backend))
      by (by rewrite Hc).
    case_bool_decide as Hin; simpl; set_solver.
  - rewrite (bool_decide_eq_false_2 _ Hc). simpl.
    repeat (case_bool_decide; simpl); set_solver.
Qed.

Lemma process_endpoint_backend u st :
  backend_endpoints (process_endpoint u st) =
  backend_endpoints st ∪ backend_keys [u].
Proof.
  unfold process_endpoint, backend_keys. rewrite filter_cons, filter_nil.
  destruct (decide (classify_endpoint u = Backend)) as [Hc|Hc]; simpl.
  - rewrite (bool_decide_eq_true_2 _ Hc).
    rewrite (bool_decide_eq_false_2 (classify_endpoint u = Html))
      by (by rewrite Hc).
    simpl. case_bool_decide as Hin; simpl; set_solver.
  - rewrite (bool_decide_eq_false_2 _ Hc). simpl.
    repeat (case_bool_decide; simpl); set_solver.
Qed.

Lemma process_endpoint_functions u st :
  functions (process_endpoint u st) = functions st.
Proof.
  unfold process_endpoint. by repeat (case_bool_decide; simpl).
Qed.

(** [process_endpoint] prints at most one notification, and only for a key
    that is new to the container of the URL's category. *)
Lemma process_endpoint_printed u st :
  printed (process_endpoint u st) =
  printed st ++
    (if bool_decide (classify_endpoint u = Html
                     /\ clean_url u ∉ html_pages st)
     then [(FHtml, clean_url u)]
     else if bool_decide (classify_endpoint u = Backend
                          /\ clean_url u ∉ backend_endpoints st)
     then [(FBackend, clean_url u)]
     else []).
Proof.
  unfold process_endpoint.
  destruct (classify_endpoint u);
    repeat (case_bool_decide; simpl); rewrite ?app_nil_r;
    try done; try tauto; naive_solver.
Qed.

Lemma html_keys_app us vs : html_keys (us ++ vs) = html_keys us ∪ html_keys vs.
Proof.
  unfold html_keys. by rewrite filter_app, fmap_app, list_to_set_app_L.
Qed.

Lemma backend_keys_app us vs :
  backend_keys (us ++ vs) = backend_keys us ∪ backend_keys vs.
Proof.
  unfold backend_keys. by rewrite filter_app, fmap_app, list_to_set_app_L.
Qed.

Lemma elem_of_html_keys x us :
  x ∈ html_keys us <->
  exists u, u ∈ us /\ classify_endpoint u = Html /\ clean_url u = x.
Proof.
  unfold html_keys. rewrite elem_of_list_to_set, list_elem_of_fmap.
  setoid_rewrite list_elem_of_filter. naive_solver.
Qed.

Lemma elem_of_backend_keys x us :
  x ∈ backend_keys us <->
  exists u, u ∈ us /\ classify_endpoint u = Backend /\ clean_url u = x.
Proof.
  unfold backend_keys. rewrite elem_of_list_to_set, list_elem_of_fmap.
  setoid_rewrite list_elem_of_filter. naive_solver.
Qed.

Lemma process_all_app us vs st :
  process_all (us ++ vs) st = process_all vs (process_all us st).
Proof. unfold process_all. apply foldl_app. Qed.

Lemma process_all_control us st : same_control st (process_all us st).
Proof.
  revert st. induction us as [|u us IH]; intros st; [apply same_control_refl|].
  eapply same_control_trans; [apply (process_endpoint_control u)|apply IH].
Qed.

Lemma process_all_html us st :
  html_pages (process_all us st) = html_pages st ∪ html_keys us.
Proof.
  revert st. induction us as [|u us IH]; intros st; simpl.
  - unfold html_keys. simpl. set_solver.
  - unfold process_all in *. simpl. rewrite IH, process_endpoint_html.
    change (u :: us) with ([u] ++ us). rewrite html_keys_app. set_solver.
Qed.

Lemma process_all_backend us st :
  backend_endpoints (process_all us st) =
  backend_endpoints st ∪ backend_keys us.
Proof.
  revert st. induction us as [|u us IH]; intros st; simpl.
  - unfold backend_keys. simpl. set_solver.
  - unfold process_all in *. simpl. rewrite IH, process_endpoint_backend.
    change (u :: us) with ([u] ++ us). rewrite backend_keys_app. set_solver.
Qed.

Lemma process_all_functions us st :
  functions (process_all us st) = functions st.
Proof.
  revert st. induction us as [|u us IH]; intros st; [done|].
  unfold process_all in *. simpl. by rewrite IH, process_endpoint_functions.
Qed.

(** ** The script analyzer, step by step *)

Lemma analyze_api_calls_trace W url calls st :
  analyze_api_calls W url calls st =
  (process_all (api_trace W (domain st) url calls).1 st,
   (api_trace W (domain st) url calls).2).
Proof.
  revert st. induction calls as [|ep rest IH]; intros st; simpl; [done|].
  destruct (urljoin W url ep) as [full|]; [|done].
  destruct (is_valid_url W (domain st) full) as [valid|]; [|done].
  rewrite IH.
  assert (domain (if valid then process_endpoint full st else st) = domain st)
    as -> by (destruct valid; [apply process_endpoint_control|done]).
  destruct (api_trace W (domain st) url rest) as [us raised]. simpl.
  rewrite process_all_app. by destruct valid.
Qed.

Lemma analyze_js_try_trace W url st :
  analyze_js_try W url st =
  ((js_trace W (domain st) url).2,
   process_all (js_trace W (domain st) url).1 st).
Proof.
  unfold analyze_js_try, js_trace.
  destruct (requests_get W url) as [content|]; [|done].
  rewrite analyze_api_calls_trace.
  destruct (api_trace W (domain st) url _) as [us raised]. simpl.
  by destruct raised.
Qed.

Lemma analyze_js_trace W url st :
  analyze_js W url st =
  (default [] (js_trace W (domain st) url).2,
   process_all (js_trace W (domain st) url).1 st).
Proof. unfold analyze_js. by rewrite analyze_js_try_trace. Qed.

Lemma foldl_print_finding t fns st :
  let st' := foldl (fun st fn => print_finding t fn st) st fns in
  same_control st st' /\ html_pages st' = html_pages st
  /\ backend_endpoints st' = backend_endpoints st
  /\ functions st' = functions st
  /\ printed st' = printed st ++ ((fun fn => (t, fn)) <$> fns).
Proof.
  revert st. induction fns as [|fn fns IH]; intros st; simpl.
  - rewrite app_nil_r. by repeat split.
  - destruct (IH (print_finding t fn st)) as (Hc & Hh & Hb & Hf & Hp).
    simpl in *. rewrite Hh, Hb, Hf, Hp.
    split; [|by rewrite <- app_assoc].
    eapply same_control_trans; [|exact Hc]. by repeat split.
Qed.

Lemma merge_functions_effect W fns st :
  let st' := merge_functions W fns st in
  same_control st st' /\ html_pages st' = html_pages st
  /\ backend_endpoints st' = backend_endpoints st
  /\ functions st' = functions st ∪ list_to_set fns
  /\ printed st' =
     printed st ++ ((fun fn => (FFunction, fn)) <$> set_iter W fns).
Proof.
  unfold merge_functions.
  destruct (foldl_print_finding FFunction (set_iter W fns)
              (update_functions fns st)) as (Hc & Hh & Hb & Hf & Hp).
  simpl in *. rewrite Hh, Hb, Hf, Hp. repeat split; apply Hc.
Qed.

Lemma crawl_scripts_effect W url scripts st :
  let st' := (crawl_scripts W url scripts st).1 in
  let tr := scripts_trace W (domain st) url scripts in
  same_control st st'
  /\ html_pages st' = html_pages st ∪ html_keys tr.1
  /\ backend_endpoints st' = backend_endpoints st ∪ backend_keys tr.1
  /\ functions st' = functions st ∪ list_to_set tr.2.
Proof.
  revert st. induction scripts as [|script rest IH]; intros st; simpl.
  - split; [apply same_control_refl|].
    unfold html_keys, backend_keys. simpl. set_solver.
  - destruct (script_src W script) as [src|]; [|apply IH].
    destruct (urljoin W url src) as [js_url|]; simpl.
    2:{ split; [apply same_control_refl|].
        unfold html_keys, backend_keys. simpl. set_solver. }
    rewrite analyze_js_trace.
    destruct (js_trace W (domain st) js_url) as [us r] eqn:Hjs. simpl.
    set (st1 := process_all us st).
    set (st2 := merge_functions W (default [] r) st1).
    assert (same_control st st1) as Hc1 by apply process_all_control.
    destruct (merge_functions_effect W (default [] r) st1)
      as (Hc2 & Hh2 & Hb2 & Hf2 & _). fold st2 in Hc2, Hh2, Hb2, Hf2.
    assert (same_control st st2) as Hc by (by eapply same_control_trans).
    assert (domain st2 = domain st) as Hd by apply Hc.
    specialize (IH st2). simpl in IH. rewrite Hd in IH.
    destruct (scripts_trace W (domain st) url rest) as [us' fs']. simpl in *.
    destruct IH as (Hc3 & Hh3 & Hb3 & Hf3).
    split; [by eapply same_control_trans|].
    rewrite Hh3, Hb3, Hf3, Hh2, Hb2, Hf2.
    unfold st1. rewrite process_all_html, process_all_backend,
      process_all_functions, html_keys_app, backend_keys_app,
      list_to_set_app_L.
    set_solver.
Qed.

(** ** The loop over the links of a page *)

Lemma same_control_fixed st st' : same_control st st' -> same_fixed st st'.
Proof. intros (?&?&?&?&?&?&?&?). by repeat split. Qed.

Lemma same_fixed_refl st : same_fixed st st.
Proof. by repeat split. Qed.

Lemma same_fixed_trans st1 st2 st3 :
  same_fixed st1 st2 -> same_fixed st2 st3 -> same_fixed st1 st3.
Proof.
  unfold same_fixed. intros (?&?&?&?&?&?) (?&?&?&?&?&?).
  repeat split; congruence.
Qed.

Lemma crawl_links_effect links d st :
  let st' := crawl_links links d st in
  same_fixed st st'
  /\ html_pages st' = html_pages st ∪ html_keys links
  /\ backend_endpoints st' = backend_endpoints st ∪ backend_keys links
  /\ functions st' = functions st
  /\ queue st' = queue st ++ fresh_entries (visited_urls st) links (d + 1).
Proof.
  revert st. induction links as [|link links IH]; intros st.
  - simpl. split; [apply same_fixed_refl|].
    unfold html_keys, backend_keys, fresh_entries. simpl.
    rewrite app_nil_r. set_solver.
  - unfold crawl_links in *. simpl.
    set (st1 := process_endpoint link st).
    assert (same_control st st1) as Hc1 by apply process_endpoint_control.
    assert (html_pages st1 = html_pages st ∪ html_keys [link]) as Hh1
      by apply process_endpoint_html.
    assert (backend_endpoints st1 =
            backend_endpoints st ∪ backend_keys [link]) as Hb1
      by apply process_endpoint_backend.
    assert (functions st1 = functions st) as Hf1
      by apply process_endpoint_functions.
    destruct Hc1 as (Hc1a & Hc1b & Hc1c & Hc1d & Hc1e & Hc1f & Hc1g & Hc1h).
    set (st2 := if bool_decide (link ∈ visited_urls st1) then st1
                else enqueue link (d + 1) st1).
    assert (same_fixed st st2
            /\ html_pages st2 = html_pages st1
            /\ backend_endpoints st2 = backend_endpoints st1
            /\ functions st2 = functions st1
            /\ queue st2 = queue st ++
                 fresh_entries (visited_urls st) [link] (d + 1))
      as (Hx & Hh2 & Hb2 & Hf2 & Hq2).
    { unfold st2, fresh_entries. rewrite filter_cons, filter_nil, Hc1d.
      case_bool_decide as Hv.
      - rewrite decide_False by (intros Hn; by apply Hn). simpl.
        rewrite app_nil_r. by repeat split.
      - rewrite decide_True by done. simpl. rewrite Hc1e.
        by repeat split. }
    destruct (IH st2) as (Hy & Hh3 & Hb3 & Hf3 & Hq3).
    split; [by eapply same_fixed_trans|].
    rewrite Hh3, Hb3, Hf3, Hq3, Hh2, Hb2, Hf2, Hq2, Hh1, Hb1, Hf1.
    assert (visited_urls st2 = visited_urls st) as -> by apply Hx.
    change (link :: links) with ([link] ++ links).
    rewrite html_keys_app, backend_keys_app. unfold fresh_entries.
    rewrite filter_app, fmap_app, <- app_assoc.
    repeat split; set_solver.
Qed.

(** ** One page visit and one loop iteration *)

Lemma crawl_page_effect W url d st :
  let st' := crawl_page W url d st in
  let tr := page_trace W (domain st) url in
  same_fixed st st'
  /\ html_pages st' = html_pages st ∪ html_keys tr.1
  /\ backend_endpoints st' = backend_endpoints st ∪ backend_keys tr.1
  /\ functions st' = functions st ∪ list_to_set tr.2
  /\ queue st' =
     queue st ++
       fresh_entries (visited_urls st) (page_links W (domain st) url) (d + 1).
Proof.
  unfold crawl_page, page_trace, page_links.
  destruct (requests_get W url) as [text|]; simpl.
  2:{ split; [apply same_fixed_refl|].
      unfold html_keys, backend_keys, fresh_entries. simpl.
      rewrite app_nil_r. set_solver. }
  set (st1 := process_endpoint url st).
  assert (same_control st st1) as Hc1 by apply process_endpoint_control.
  assert (html_pages st1 = html_pages st ∪ html_keys [url]) as Hh1
    by apply process_endpoint_html.
  assert (backend_endpoints st1 = backend_endpoints st ∪ backend_keys [url])
    as Hb1 by apply process_endpoint_backend.
  assert (functions st1 = functions st) as Hf1
    by apply process_endpoint_functions.
  assert (domain st1 = domain st) as -> by apply Hc1.
  destruct (find_links W (domain st) (BeautifulSoup W text) url)
    as [links|]; simpl.
  2:{ split; [by apply same_control_fixed|].
      rewrite Hh1, Hb1, Hf1. unfold fresh_entries. simpl.
      rewrite app_nil_r. repeat split; [set_solver|apply Hc1]. }
  destruct (crawl_links_effect (set_iter W links) d st1)
    as (Hx2 & Hh2 & Hb2 & Hf2 & Hq2).
  set (st2 := crawl_links (set_iter W links) d st1) in *.
  destruct (crawl_scripts_effect W url
              (find_all ["script"] (BeautifulSoup W text)) st2)
    as (Hc3 & Hh3 & Hb3 & Hf3).
  assert (domain st2 = domain st) as Hd2
    by (destruct Hx2 as (_ & -> & _); apply Hc1).
  rewrite Hd2 in Hh3, Hb3, Hf3.
  destruct (scripts_trace W (domain st) url _) as [us fs]. simpl in *.
  split.
  { eapply same_fixed_trans; [by apply same_control_fixed|].
    eapply same_fixed_trans; [exact Hx2|by apply same_control_fixed]. }
  rewrite Hh3, Hb3, Hf3, Hh2, Hb2, Hf2, Hh1, Hb1, Hf1.
  change (url :: set_iter W links ++ us)
    with ([url] ++ set_iter W links ++ us).
  rewrite !html_keys_app, !backend_keys_app.
  repeat split; [set_solver..|].
  destruct Hc3 as (_ & _ & _ & _ & -> & _). rewrite Hq2.
  destruct Hc1 as (_ & _ & _ & -> & -> & _). done.
Qed.

(** What one iteration does to a state whose frontier starts with
    [(url, d)]: the entry is dropped when the URL is visited or the depth is
    over the bound; otherwise the URL is marked and the page is visited. *)
Lemma crawl_step_effect W st st' :
  crawl_step W st = Some st' ->
  exists url d q,
    stop_event st = false /\ queue st = (url, d) :: q
    /\ (((url ∈ visited_urls st \/ d > max_depth st) /\ st' = set_queue q st)
        \/ ((url ∉ visited_urls st) /\ d <= max_depth st
            /\ base_url st' = base_url st /\ domain st' = domain st
            /\ max_depth st' = max_depth st /\ stop_event st' = false
            /\ visited_urls st' = {[url]} ∪ visited_urls st
            /\ processed st' = processed st ++ [(url, d)]
            /\ html_pages st' =
               html_pages st ∪ html_keys (page_trace W (domain st) url).1
            /\ backend_endpoints st' =
               backend_endpoints st
                 ∪ backend_keys (page_trace W (domain st) url).1
            /\ functions st' =
               functions st ∪ list_to_set (page_trace W (domain st) url).2
            /\ queue st' =
               q ++ fresh_entries ({[url]} ∪ visited_urls st)
                      (page_links W (domain st) url) (d + 1))).
Proof.
  unfold crawl_step. destruct (stop_event st) eqn:Hstop; [done|].
  destruct (queue st) as [|[url d] q] eqn:Hq; [done|].
  intros H. exists url, d, q. split; [done|]. split; [done|].
  destruct (bool_decide (url ∈ visited_urls (set_queue q st))
            || (d >? max_depth (set_queue q st))) eqn:Hguard.
  - left. injection H as <-. split; [|done]. simpl in Hguard.
    apply orb_true_iff in Hguard as [Hv%bool_decide_eq_true|Hd%Z.gtb_gt];
      [by left|right; lia].
  - right. injection H as <-. simpl in Hguard.
    apply orb_false_iff in Hguard as [Hv%bool_decide_eq_false Hd].
    assert (d <= max_depth st)
      by (rewrite Z.gtb_ltb in Hd; apply Z.ltb_ge in Hd; lia).
    destruct (crawl_page_effect W url d (mark_visited url d (set_queue q st)))
      as ((H1 & H2 & H3 & H4 & H5 & H6) & Hh & Hb & Hf & Hqq).
    simpl in *. rewrite H1, H2, H3, H4, H5, H6, Hh, Hb, Hf, Hqq.
    by repeat split.
Qed.

(** ** Runs *)

Lemma reachable_invariant W (P : crawler -> Prop) c0 st :
  P c0 ->
  (forall st st', P st -> crawl_step W st = Some st' -> P st') ->
  reachable W c0 st -> P st.
Proof. intros H0 Hstep Hr. induction Hr; eauto. Qed.

Lemma reachable_trans W c0 st st' :
  reachable W c0 st -> reachable W st st' -> reachable W c0 st'.
Proof. intros H1 H2. induction H2; [done|]. by eapply reachable_step. Qed.

Lemma crawl_loop_reachable W fuel st st' :
  crawl_loop W fuel st = Some st' -> reachable W st st'.
Proof.
  revert st. induction fuel as [|fuel IH]; intros st; simpl.
  - destruct (crawl_step W st); [done|]. intros [= <-]. constructor.
  - destruct (crawl_step W st) as [st1|] eqn:Hs.
    + intros H%IH. eapply reachable_trans; [|exact H].
      eapply reachable_step; [constructor|done].
    + intros [= <-]. constructor.
Qed.

Lemma crawl_loop_exit W fuel st st' :
  crawl_loop W fuel st = Some st' -> crawl_step W st' = None.
Proof.
  revert st. induction fuel as [|fuel IH]; intros st; simpl;
    destruct (crawl_step W st) as [st1|] eqn:Hs; try done.
  - by intros [= <-].
  - apply IH.
  - by intros [= <-].
Qed.

Lemma init_fields W base maxd c0 :
  init W base maxd = Some c0 ->
  base_url c0 = base /\ max_depth c0 = maxd /\ visited_urls c0 = ∅
  /\ queue c0 = [(base, 0)] /\ html_pages c0 = ∅
  /\ backend_endpoints c0 = ∅ /\ functions c0 = ∅
  /\ stop_event c0 = false /\ printed c0 = [] /\ processed c0 = []
  /\ exists p, urlparse W base = Some p /\ domain c0 = Urllib.netloc p.
Proof.
  unfold init. destruct (urlparse W base) as [p|]; simpl; [|done].
  intros [= <-]. simpl. repeat split. by exists p.
Qed.

(** C3. An iteration whose frontier entry has a depth over the configured
    maximum only drops the entry; an entry whose depth is at most the
    maximum (equal included) and whose URL is new is marked visited and
    its page requested.  So in every run each processed entry has a depth
    at most the maximum, and with maximum 0 the seed is processed and
    nothing else. *)
Theorem crawl_depth_guard (W : World) :
  (forall st url d q,
      stop_event st = false -> queue st = (url, d) :: q ->
      (d > max_depth st -> crawl_step W st = Some (set_queue q st))
      /\ (d <= max_depth st -> url ∉ visited_urls st ->
          exists st', crawl_step W st = Some st'
                      /\ url ∈ visited_urls st'
                      /\ processed st' = processed st ++ [(url, d)]))
  /\ (forall base maxd c0 st,
        init W base maxd = Some c0 -> reachable W c0 st ->
        forall url d, (url, d) ∈ processed st -> d <= maxd)
  /\ (forall base c0,
        init W base 0 = Some c0 ->
        (exists st1, crawl_step W c0 = Some st1
                     /\ processed st1 = [(base, 0)])
        /\ forall st, reachable W c0 st ->
                      processed st = [] \/ processed st = [(base, 0)]).
Proof.
  split; [|split].
  - intros st url d q Hstop Hq. unfold crawl_step. rewrite Hstop, Hq.
    split.
    + intros Hd. simpl.
      assert ((d >? max_depth st) = true) as -> by (apply Z.gtb_gt; lia).
      by rewrite orb_true_r.
    + intros Hd Hv. simpl.
      rewrite (bool_decide_eq_false_2 _ Hv).
      assert ((d >? max_depth st) = false) as ->
        by (rewrite Z.gtb_ltb; apply Z.ltb_ge; lia).
      simpl. eexists. split; [done|].
      destruct (crawl_page_effect W url d
                  (mark_visited url d (set_queue q st)))
        as ((_ & _ & _ & -> & _ & ->) & _). simpl. split; [set_solver|done].
  - intros base maxd c0 st Hinit Hr.
    apply init_fields in Hinit as (_ & Hm & _ & _ & _ & _ & _ & _ & _ & Hp & _).
    apply (reachable_invariant W
             (fun st => max_depth st = maxd
                        /\ forall url d, (url, d) ∈ processed st -> d <= maxd)
             c0 st); [| |exact Hr].
    + split; [done|]. rewrite Hp. intros ?? []%elem_of_nil.
    + clear. intros st st' [Hm Hp] Hs.
      apply crawl_step_effect in Hs
        as (url & d & q & _ & _ & [[_ ->]|(_ & Hd & _ & _ & Hm' & _ & _ & Hp' & _)]).
      * done.
      * split; [congruence|]. rewrite Hp'. intros u k.
        rewrite elem_of_app, list_elem_of_singleton.
        intros [?|[= -> ->]]; [by eapply Hp|lia].
  - intros base c0 Hinit.
    apply init_fields in Hinit
      as (_ & Hm & Hv & Hq & _ & _ & _ & Hs & _ & Hp & _).
    assert (exists st1, crawl_step W c0 = Some st1
                        /\ processed st1 = [(base, 0)]
                        /\ max_depth st1 = 0
                        /\ forall u k, (u, k) ∈ queue st1 -> k > 0)
      as (st1 & Hs1 & Hp1 & Hm1 & Hq1).
    { unfold crawl_step. rewrite Hs, Hq. simpl. rewrite Hv, Hm. simpl.
      rewrite bool_decide_eq_false_2 by set_solver. simpl.
      eexists. split; [done|].
      destruct (crawl_page_effect W base 0
                  (mark_visited base 0 (set_queue [] c0)))
        as ((_ & _ & -> & _ & _ & ->) & _ & _ & _ & ->). simpl.
      rewrite Hp, Hm. repeat split.
      intros u k. unfold fresh_entries.
      intros (l & [= -> ->] & _)%list_elem_of_fmap. lia. }
    split; [by exists st1|].
    intros st Hr.
    assert ((st = c0 \/ (processed st = [(base, 0)] /\ max_depth st = 0
                         /\ forall u k, (u, k) ∈ queue st -> k > 0)))
      as [->|(? & _)]; [|by left|by right].
    apply (reachable_invariant W
             (fun st => st = c0
                        \/ (processed st = [(base, 0)] /\ max_depth st = 0
                            /\ forall u k, (u, k) ∈ queue st -> k > 0))
             c0 st); [by left| |exact Hr].
    clear st Hr. intros st st' [->|(Hp' & Hm' & Hq')] Hstep.
    + right. rewrite Hs1 in Hstep. by injection Hstep as <-.
    + right.
      apply crawl_step_effect in Hstep
        as (url & d & q & _ & Hqq & [[_ ->]|(_ & Hd & _)]).
      * simpl. repeat split; [done..|]. intros u k Hin. apply (Hq' u k).
        rewrite Hqq. by right.
      * specialize (Hq' url d). rewrite Hqq in Hq'.
        specialize (Hq' ltac:(left)). lia.
Qed.

Lemma crawl_depth_guard_witness :
  crawl_step Site.W1
    (set_queue [("http://x.test/deep", 4)] Site.start) =
  Some (set_queue [] (set_queue [("http://x.test/deep", 4)] Site.start))
  /\ exists c0 st,
       init Site.W1 Site.seed 1 = Some c0
       /\ crawl_loop Site.W1 10 c0 = Some st
       /\ forall url d, (url, d) ∈ processed st -> d <= 1.
Proof.
  split.
  - apply (proj1 (crawl_depth_guard Site.W1)
             (set_queue [("http://x.test/deep", 4)] Site.start)
             "http://x.test/deep" 4 []); [reflexivity|reflexivity|].
    simpl. lia.
  - eexists. eexists. split; [vm_compute; reflexivity|].
    split; [vm_compute; reflexivity|].
    eapply (proj1 (proj2 (crawl_depth_guard Site.W1)) Site.seed 1).
    + vm_compute. reflexivity.
    + apply (crawl_loop_reachable Site.W1 10). vm_compute. reflexivity.
Defined.

(** ** The validator and canonical keys *)

Lemma urlparse_some W url p :
  urlparse W url = Some p ->
  (Urllib.scheme p, Urllib.netloc p) = url_head url
  /\ Urllib.bracket_mismatch (Urllib.netloc p) = false
  /\ check_netloc W (Urllib.netloc p) = true.
Proof.
  unfold urlparse, Urllib.urlparse, url_head.
  change (Str.remove Urllib.unsafe_byte
            (Str.strip Urllib.c0_control_or_space EmptyString))
    with EmptyString.
  destruct (Urllib.split_scheme _ _) as [scheme rest].
  destruct (Urllib.split_netloc rest) as [netloc rest1]. simpl.
  destruct (Urllib.bracket_mismatch netloc) eqn:Hb; [done|].
  destruct (Urllib.cut "#" rest1) as [rest2 fragment].
  destruct (Urllib.cut "?" rest2) as [rest3 query].
  destruct (check_netloc W netloc) eqn:Hc; [|done]. simpl.
  destruct (if Str.among Urllib.uses_params scheme && Str.contains ";" rest3
            then Urllib.splitparams rest3 else (rest3, EmptyString))
    as [rest4 params].
  by intros [= <-].
Qed.

Lemma urlparse_is_some W url :
  Urllib.bracket_mismatch (url_head url).2 = false ->
  check_netloc W (url_head url).2 = true ->
  exists p, urlparse W url = Some p
            /\ (Urllib.scheme p, Urllib.netloc p) = url_head url.
Proof.
  unfold urlparse, Urllib.urlparse, url_head.
  change (Str.remove Urllib.unsafe_byte
            (Str.strip Urllib.c0_control_or_space EmptyString))
    with EmptyString.
  destruct (Urllib.split_scheme _ _) as [scheme rest].
  destruct (Urllib.split_netloc rest) as [netloc rest1]. simpl.
  intros -> ->. simpl.
  destruct (Urllib.cut "#" rest1) as [rest2 fragment].
  destruct (Urllib.cut "?" rest2) as [rest3 query].
  destruct (if Str.among Urllib.uses_params scheme && Str.contains ";" rest3
            then Urllib.splitparams rest3 else (rest3, EmptyString))
    as [rest4 params].
  by eexists.
Qed.

Lemma is_valid_url_on_target W dom url :
  is_valid_url W dom url = Some true <-> on_target W dom url.
Proof.
  unfold is_valid_url, on_target. split.
  - destruct (urlparse W url) as [p|]; simpl; [|done].
    intros [= [H1%StrFacts.eqb_eq H2%StrFacts.among_spec]%andb_prop].
    by exists p.
  - intros (p & -> & Hn & Hs). simpl. f_equal. apply andb_true_intro.
    split; [by apply StrFacts.eqb_eq|by apply StrFacts.among_spec].
Qed.

Lemma on_target_head W dom url :
  on_target W dom url <->
  (url_head url).1 ∈ ["http"; "https"] /\ (url_head url).2 = dom
  /\ Urllib.bracket_mismatch dom = false /\ check_netloc W dom = true.
Proof.
  unfold on_target. split.
  - intros (p & Hp & <- & Hs). apply urlparse_some in Hp as (<- & ? & ?).
    done.
  - intros (Hs & <- & Hb & Hc).
    destruct (urlparse_is_some W url Hb Hc) as (p & Hp & Hh).
    exists p. rewrite <- Hh in *. done.
Qed.

Lemma query_or_fragment_chars c :
  query_or_fragment c = true -> c = "?"%char \/ c = "#"%char.
Proof.
  unfold query_or_fragment.
  intros [H%StrFacts.ceqb_eq|H%StrFacts.ceqb_eq]%orb_prop; auto.
Qed.

Lemma scheme_char_not_cut c :
  Urllib.scheme_char c = true -> query_or_fragment c = false.
Proof.
  intros H. destruct (query_or_fragment c) eqn:Hq; [|done].
  apply query_or_fragment_chars in Hq as [->| ->]; by vm_compute in H.
Qed.

(** Cutting a URL at its query or fragment keeps the scheme split. *)
Lemma split_scheme_parts s :
  Str.contains ":" s = true ->
  Str.forallb Urllib.scheme_char (Str.split_head ":" s) = true ->
  Str.contains ":" (Str.before query_or_fragment s) = true
  /\ Str.split_head ":" (Str.before query_or_fragment s)
     = Str.split_head ":" s
  /\ Str.split_rest ":" (Str.before query_or_fragment s)
     = Str.before query_or_fragment (Str.split_rest ":" s).
Proof.
  unfold Str.split_head, Str.split_rest.
  induction s as [|a s IH]; simpl; [done|].
  destruct (Str.ceqb ":" a) eqn:Ha.
  - apply StrFacts.ceqb_eq in Ha as <-. intros _ _. by vm_compute.
  - simpl. intros Hc [Hsa Hs]%andb_prop.
    rewrite (scheme_char_not_cut _ Hsa). simpl. rewrite Ha.
    assert (Str.ceqb a ":" = false) as Ha'.
    { unfold Str.ceqb in *. apply bool_decide_eq_false.
      apply bool_decide_eq_false in Ha. congruence. }
    rewrite Ha' in *. simpl in *.
    destruct (IH Hc Hs) as (-> & -> & ->). done.
Qed.

Lemma split_netloc_before r :
  (Urllib.split_netloc (Str.before query_or_fragment r)).1
  = (Urllib.split_netloc r).1.
Proof.
  unfold Urllib.split_netloc.
  destruct (Str.eqb (Str.take 2 r) "//") eqn:Hr.
  - apply StrFacts.eqb_eq in Hr.
    assert (Str.forallb (fun c => negb (query_or_fragment c)) (Str.take 2 r)
            = true) as Hclear by (by rewrite Hr).
    rewrite (StrFacts.take_before _ _ _ Hclear),
      (StrFacts.drop_before _ _ _ Hclear), Hr.
    change (Str.eqb "//" "//") with true. cbv iota beta. cbn [fst].
    apply StrFacts.before_before.
    intros c [-> | ->]%query_or_fragment_chars; by vm_compute.
  - destruct (Str.eqb (Str.take 2 (Str.before query_or_fragment r)) "//")
      eqn:Hb; [|done].
    exfalso. apply StrFacts.eqb_eq in Hb.
    apply not_true_iff_false in Hr. apply Hr, StrFacts.eqb_eq.
    destruct r as [|a [|b r]]; simpl in *; try done.
    + by destruct (query_or_fragment a).
    + destruct (query_or_fragment a); [done|]. simpl in Hb.
      destruct (query_or_fragment b); [done|]. done.
Qed.

Lemma url_head_clean u :
  (url_head u).1 ∈ ["http"; "https"] -> url_head (clean_url u) = url_head u.
Proof.
  rewrite clean_url_before. unfold url_head.
  rewrite StrFacts.lstrip_before, StrFacts.remove_before.
  2:{ intros c [-> | ->]%query_or_fragment_chars; by vm_compute. }
  2:{ intros c [-> | ->]%query_or_fragment_chars; by vm_compute. }
  set (s := Str.remove Urllib.unsafe_byte
              (Str.lstrip Urllib.c0_control_or_space u)).
  unfold Urllib.split_scheme.
  destruct (Str.contains ":" s && Urllib.starts_alpha (Str.split_head ":" s)
            && Str.forallb Urllib.scheme_char (Str.split_head ":" s))
    eqn:Hcond; simpl.
  - apply andb_prop in Hcond as [[Hc Ha]%andb_prop Hf].
    destruct (split_scheme_parts s Hc Hf) as (-> & -> & ->).
    rewrite Ha, Hf. simpl. intros _. f_equal. apply split_netloc_before.
  - rewrite !elem_of_cons, elem_of_nil. intros [?|[?|[]]]; done.
Qed.

(** The canonical key of a URL on the target is on the target. *)
Lemma on_target_clean W dom u :
  on_target W dom u -> on_target W dom (clean_url u).
Proof.
  rewrite !on_target_head. intros (Hs & Hn & Hb & Hc).
  rewrite (url_head_clean u Hs). done.
Qed.

(** ** Every URL handed to [process_endpoint] is on the target *)

Lemma find_links_loop_valid W dom elements base links r :
  find_links_loop W dom elements base links = Some r ->
  (forall l, l ∈ links -> on_target W dom l) ->
  forall l, l ∈ r -> on_target W dom l.
Proof.
  revert links. induction elements as [|e els IH]; simpl; intros links H Hl.
  - by injection H as <-.
  - destruct (link_attr (tag_name e)); [|by eapply IH].
    destruct (urljoin W base _) as [url|]; [|done].
    destruct (is_valid_url W dom url) as [[]|] eqn:Hv; [| by eapply IH | done].
    eapply IH; [exact H|]. intros l [->|?]%elem_of_pyset_add; [|by apply Hl].
    by apply is_valid_url_on_target.
Qed.

Lemma find_links_valid W dom soup base links :
  find_links W dom soup base = Some links ->
  forall l, l ∈ links -> on_target W dom l.
Proof.
  intros H. eapply find_links_loop_valid; [exact H|].
  intros l []%elem_of_nil.
Qed.

Lemma lawful_elem_of W s x : lawful W -> x ∈ set_iter W s <-> x ∈ s.
Proof. intros HW. by rewrite (HW s). Qed.

Lemma page_links_valid W dom url l :
  lawful W -> l ∈ page_links W dom url -> on_target W dom l.
Proof.
  intros HW. unfold page_links.
  destruct (requests_get W url) as [text|]; [|by intros []%elem_of_nil].
  destruct (find_links W dom _ url) as [links|] eqn:Hf;
    [|by intros []%elem_of_nil].
  rewrite (lawful_elem_of _ _ _ HW). apply (find_links_valid _ _ _ _ _ Hf).
Qed.

Lemma api_trace_valid W dom url calls u :
  u ∈ (api_trace W dom url calls).1 -> on_target W dom u.
Proof.
  induction calls as [|ep rest IH]; simpl; [by intros []%elem_of_nil|].
  destruct (urljoin W url ep) as [full|]; [|by intros []%elem_of_nil].
  destruct (is_valid_url W dom full) as [valid|] eqn:Hv;
    [|by intros []%elem_of_nil].
  destruct (api_trace W dom url rest) as [us raised]. simpl in *.
  rewrite elem_of_app. intros [Hu|Hu]; [|by apply IH].
  destruct valid; [|by apply elem_of_nil in Hu].
  apply list_elem_of_singleton in Hu as ->. by apply is_valid_url_on_target.
Qed.

Lemma js_trace_valid W dom url u :
  u ∈ (js_trace W dom url).1 -> on_target W dom u.
Proof.
  unfold js_trace.
  destruct (requests_get W url) as [content|]; [|by intros []%elem_of_nil].
  pose proof (api_trace_valid W dom url
                (Re.group 1 <$> Re.findall true Patterns.api_call content) u)
    as H.
  by destruct (api_trace W dom url _).
Qed.

Lemma scripts_trace_valid W dom url scripts u :
  u ∈ (scripts_trace W dom url scripts).1 -> on_target W dom u.
Proof.
  induction scripts as [|script rest IH]; simpl; [by intros []%elem_of_nil|].
  destruct (script_src W script) as [src|]; [|done].
  destruct (urljoin W url src) as [js_url|]; [|by intros []%elem_of_nil].
  pose proof (js_trace_valid W dom js_url u) as Hjs.
  destruct (js_trace W dom js_url) as [us r].
  destruct (scripts_trace W dom url rest) as [us' fs']. simpl in *.
  rewrite elem_of_app. intros [?|?]; auto.
Qed.

Lemma page_trace_valid W dom url u :
  lawful W ->
  u ∈ (page_trace W dom url).1 ->
  is_Some (requests_get W url) /\ (u = url \/ on_target W dom u).
Proof.
  intros HW. unfold page_trace.
  destruct (requests_get W url) as [text|]; [|by intros []%elem_of_nil].
  split; [done|].
  destruct (find_links W dom (BeautifulSoup W text) url) as [links|] eqn:Hf.
  - pose proof (scripts_trace_valid W dom url
                  (find_all ["script"] (BeautifulSoup W text)) u) as Hs.
    destruct (scripts_trace W dom url _) as [us fs]. simpl in *.
    apply elem_of_cons in H as [->|H]; [by left|right].
    apply elem_of_app in H as [H|H]; [|by apply Hs].
    apply (proj1 (lawful_elem_of W links u HW)) in H.
    by apply (find_links_valid _ _ _ _ _ Hf).
  - simpl in H. apply list_elem_of_singleton in H. by left.
Qed.

(** C2. Every URL in [html_pages] or [backend_endpoints] parses with the
    target domain as its host and http or https as its scheme; so a link to
    another host is never stored.  (The seed is stored only after
    [requests.get] answered for it, which [requests] does for http and
    https only.) *)
Theorem findings_on_target (W : World) (base : string) (maxd : Z)
    (c0 st : crawler) :
  lawful W ->
  seed_transport W base ->
  init W base maxd = Some c0 ->
  reachable W c0 st ->
  (forall x, x ∈ html_pages st ∪ backend_endpoints st ->
             on_target W (domain c0) x)
  /\ (forall x p, urlparse W x = Some p ->
                  Urllib.netloc p <> domain c0 ->
                  x ∉ html_pages st ∪ backend_endpoints st).
Proof.
  intros HW Hseed Hinit Hr.
  assert (forall x, x ∈ html_pages st ∪ backend_endpoints st ->
                    on_target W (domain c0) x) as Hall.
  2:{ split; [done|]. intros x p Hp Hn Hx.
      destruct (Hall x Hx) as (p' & Hp' & Hn' & _). congruence. }
  apply init_fields in Hinit
    as (Hb & _ & _ & Hq & Hh & Hbk & _ & _ & _ & _ & p & Hp & Hd).
  pose (I := fun st =>
    domain st = domain c0
    /\ (forall u d, (u, d) ∈ queue st ->
                    u = base \/ on_target W (domain c0) u)
    /\ (forall x, x ∈ html_pages st ∪ backend_endpoints st ->
                  on_target W (domain c0) x)).
  cut (I st); [by intros (_ & _ & ?)|].
  apply (reachable_invariant W I c0 st); [| |exact Hr].
  - split; [done|]. split.
    + rewrite Hq. intros u d [= -> _]%list_elem_of_singleton. by left.
    + rewrite Hh, Hbk. set_solver.
  - clear st Hr. intros st st' (Hdom & Hqueue & Hstore) Hstep.
    apply crawl_step_effect in Hstep
      as (url & d & q & _ & Hqq & [[_ ->]|Hproc]).
    + simpl. split; [done|]. split; [|done].
      intros u k Hu. apply (Hqueue u k). rewrite Hqq. by right.
    + destruct Hproc
        as (_ & _ & _ & Hd' & _ & _ & _ & _ & Hh' & Hb' & _ & Hq').
      assert (forall u, u ∈ (page_trace W (domain st) url).1 ->
                        on_target W (domain c0) u) as Htrace.
      { intros u Hu. rewrite Hdom in Hu.
        apply (page_trace_valid W _ _ _ HW) in Hu as [[text Hget] [->|Hu]];
          [|done].
        destruct (Hqueue url d) as [->|Hu]; [rewrite Hqq; by left| |done].
        exists p. split; [done|]. split; [done|]. by eapply Hseed. }
      split; [congruence|]. split.
      * rewrite Hq'. intros u k.
        rewrite elem_of_app. intros [Hu|Hu].
        { apply (Hqueue u k). rewrite Hqq. by right. }
        right. unfold fresh_entries in Hu.
        apply list_elem_of_fmap in Hu as (l & [= -> ->] & Hl).
        apply list_elem_of_filter in Hl as [_ Hl]. rewrite Hdom in Hl.
        by eapply page_links_valid.
      * rewrite Hh', Hb'. intros x.
        rewrite !elem_of_union, elem_of_html_keys, elem_of_backend_keys.
        intros [[Hx|(u & Hu & _ & <-)]|[Hx|(u & Hu & _ & <-)]].
        -- apply Hstore. set_solver.
        -- by apply on_target_clean, Htrace.
        -- apply Hstore. set_solver.
        -- by apply on_target_clean, Htrace.
Qed.

Lemma findings_on_target_witness :
  exists st,
    crawl_loop Site.W1 10 Site.start = Some st
    /\ forall x, x ∈ html_pages st ∪ backend_endpoints st ->
                 on_target Site.W1 "x.test" x.
Proof.
  eexists. split; [vm_compute; reflexivity|].
  apply (findings_on_target Site.W1 Site.seed 3 Site.start).
  - intros s. reflexivity.
  - intros text p _ Hp. vm_compute in Hp. injection Hp as <-.
    simpl. apply elem_of_cons. by left.
  - vm_compute. reflexivity.
  - apply (crawl_loop_reachable Site.W1 10). vm_compute. reflexivity.
Defined.

(** ** Canonical keys in both containers *)

(** The home page links to [/page?action=show] (a backend URL by its
    query) and to [/page] (a page URL); both have the canonical key
    [http://x.test/page], which ends up in [html_pages] and in
    [backend_endpoints]. *)
Lemma canonical_key_in_both_sets :
  init Site.W1 Site.seed 3 = Some Site.start
  /\ classify_endpoint "http://x.test/page?action=show" = Backend
  /\ classify_endpoint "http://x.test/page" = Html
  /\ clean_url "http://x.test/page?action=show" = "http://x.test/page"
  /\ exists st,
       crawl Site.W1 10 Site.start = Some st
       /\ "http://x.test/page" ∈ html_pages st ∩ backend_endpoints st.
Proof.
  repeat split; try (vm_compute; reflexivity).
  eexists. split; [vm_compute; reflexivity|].
  by_compute.
Qed.

(** ** Failures of the script analyzer *)

(** The script [broken.js] calls [fetch('/api/a')] and then [fetch('//[')];
    joining the second reference raises [ValueError] (an unmatched
    bracket in the network location), after the first endpoint has been
    stored. *)
Lemma analyze_js_failure_after_endpoint :
  Site.pages "http://x.test/broken.js"
  = Some "fetch('/api/a'); fetch('//['); function late(){}"
  /\ urljoin Site.W1 "http://x.test/broken.js" "//[" = None
  /\ (analyze_js_try Site.W1 "http://x.test/broken.js" Site.start).1 = None
  /\ (analyze_js Site.W1 "http://x.test/broken.js" Site.start).1 = []
  /\ backend_endpoints Site.start = ∅
  /\ "http://x.test/api/a"
     ∈ backend_endpoints
         (analyze_js Site.W1 "http://x.test/broken.js" Site.start).2.
Proof.
  repeat split; try (vm_compute; reflexivity).
  all: by_compute.
Qed.

(** ** Function names *)

(** C7 (the code at a failing input). The pattern asks for an identifier
    of at least two characters ([[a-zA-Z_$][\w$]+]): from a script that
    declares [f], [x], [y] and [z] no name is collected, while
    [loadData] is. *)
Theorem single_character_identifiers_missed :
  Site.pages "http://x.test/short.js"
  = Some "function f(){} var x = 1; let y; const z = 2"
  /\ (analyze_js Site.W1 "http://x.test/short.js" Site.start).1 = []
  /\ Site.pages "http://x.test/app.js"
     = Some "fetch('/api/orders'); function loadData(){}"
  /\ (analyze_js Site.W1 "http://x.test/app.js" Site.start).1 = ["loadData"].
Proof. repeat split; vm_compute; reflexivity. Qed.

(** ** Termination of the loop *)

Lemma fresh_entries_weight W dom maxd visited links d :
  (sum_list_with (entry_weight W dom maxd) (fresh_entries visited links d)
   <= sum_list_with (tree_size W dom (budget maxd d)) links)%nat.
Proof.
  unfold fresh_entries. induction links as [|l links IH]; [done|].
  rewrite filter_cons. destruct (decide (l ∉ visited)).
  - rewrite fmap_cons. cbn [sum_list_with]. unfold entry_weight at 1.
    cbn [fst snd]. lia.
  - cbn [sum_list_with]. lia.
Qed.

Lemma tree_size_pos W dom r u : (1 <= tree_size W dom r u)%nat.
Proof. destruct r; simpl; lia. Qed.

Lemma crawl_step_weight W st st' :
  crawl_step W st = Some st' ->
  (queue_weight W st' < queue_weight W st)%nat.
Proof.
  intros Hstep.
  apply crawl_step_effect in Hstep
    as (url & d & q & _ & Hq & [[_ ->]|Hproc]).
  - unfold queue_weight. cbn [queue set_queue domain max_depth].
    rewrite Hq. cbn [sum_list_with].
    pose proof (tree_size_pos W (domain st) (budget (max_depth st) d) url).
    unfold entry_weight at 2. cbn [fst snd]. lia.
  - destruct Hproc as (_ & Hd & _ & Hdom & Hmax & _ & _ & _ & _ & _ & _ & Hq').
    unfold queue_weight.
    rewrite Hq', Hq, Hdom, Hmax, sum_list_with_app. cbn [sum_list_with].
    unfold entry_weight at 3. cbn [fst snd].
    assert (budget (max_depth st) d = S (budget (max_depth st) (d + 1)))
      as -> by (unfold budget; lia).
    cbn [tree_size].
    pose proof (fresh_entries_weight W (domain st) (max_depth st)
                  ({[url]} ∪ visited_urls st)
                  (page_links W (domain st) url) (d + 1)) as Hle.
    lia.
Qed.

(** With enough fuel the loop runs to its end. *)
Lemma crawl_loop_terminates W fuel st :
  (queue_weight W st <= fuel)%nat -> is_Some (crawl_loop W fuel st).
Proof.
  revert st. induction fuel as [|fuel IH]; intros st Hw; simpl.
  - destruct (crawl_step W st) as [st'|] eqn:Hs; [|done].
    apply crawl_step_weight in Hs. lia.
  - destruct (crawl_step W st) as [st'|] eqn:Hs; [|done].
    apply IH. apply crawl_step_weight in Hs. lia.
Qed.

Lemma crawl_loop_fuel_mono W fuel fuel' st st' :
  crawl_loop W fuel st = Some st' -> (fuel <= fuel')%nat ->
  crawl_loop W fuel' st = Some st'.
Proof.
  revert fuel' st. induction fuel as [|fuel IH]; intros fuel' st; simpl.
  - destruct (crawl_step W st) eqn:Hs; [done|]. intros [= <-] _.
    destruct fuel'; simpl; by rewrite Hs.
  - destruct (crawl_step W st) as [st1|] eqn:Hs.
    + intros H Hle. destruct fuel' as [|fuel']; [lia|]. simpl. rewrite Hs.
      apply IH; [done|lia].
    + intros [= <-] _. destruct fuel'; simpl; by rewrite Hs.
Qed.

(** ** The findings are those of the visited pages *)

Lemma findings_inv_init W base maxd c0 :
  init W base maxd = Some c0 -> findings_inv W (domain c0) c0.
Proof.
  intros (_ & _ & Hv & _ & Hh & Hb & Hf & _)%init_fields.
  unfold findings_inv. rewrite Hv, Hh, Hb, Hf.
  repeat split; try (by intros []%not_elem_of_empty);
    by intros (v & []%not_elem_of_empty & _).
Qed.

Lemma findings_inv_step W dom st st' :
  domain st = dom -> findings_inv W dom st -> crawl_step W st = Some st' ->
  findings_inv W dom st'.
Proof.
  intros Hdom (Hh & Hb & Hf) Hstep.
  apply crawl_step_effect in Hstep
    as (url & d & q & _ & _ & [[_ ->]|Hproc]); [done|].
  destruct Hproc as (_ & _ & _ & _ & _ & _ & Hv' & _ & Hh' & Hb' & Hf' & _).
  rewrite Hdom in *. unfold findings_inv.
  rewrite Hv', Hh', Hb', Hf'. repeat split.
  - intros [(v & ? & ?)%Hh|?]%elem_of_union;
      [exists v|exists url]; set_solver.
  - intros (v & [->%elem_of_singleton|Hv]%elem_of_union & Hx);
      [set_solver|]. apply elem_of_union. left. apply Hh. eauto.
  - intros [(v & ? & ?)%Hb|?]%elem_of_union;
      [exists v|exists url]; set_solver.
  - intros (v & [->%elem_of_singleton|Hv]%elem_of_union & Hx);
      [set_solver|]. apply elem_of_union. left. apply Hb. eauto.
  - intros [(v & ? & ?)%Hf|?%elem_of_list_to_set]%elem_of_union;
      [exists v|exists url]; set_solver.
  - intros (v & [->%elem_of_singleton|Hv]%elem_of_union & Hx).
    + apply elem_of_union. right. by apply elem_of_list_to_set.
    + apply elem_of_union. left. apply Hf. eauto.
Qed.

(** ** Breadth-first traversal *)

Lemma page_links_set W dom u l :
  lawful W -> l ∈ page_links W dom u <-> l ∈ page_link_set W dom u.
Proof.
  intros HW. unfold page_links, page_link_set.
  destruct (requests_get W u) as [text|]; [|done].
  destruct (find_links W dom (BeautifulSoup W text) u) as [links|]; [|done].
  apply (lawful_elem_of _ _ _ HW).
Qed.

Lemma bfs_inv_init W base maxd c0 :
  init W base maxd = Some c0 ->
  bfs_inv W base (domain c0) maxd c0 0 [(base, 0)] [].
Proof.
  intros (_ & Hm & Hv & Hq & _ & _ & _ & Hs & _)%init_fields.
  split; try done.
  - intros u d [= -> ->]%list_elem_of_singleton. split; [done|constructor].
  - intros u d []%elem_of_nil.
  - intros n u Hn. lia.
  - intros _ u Hp. inversion Hp; subst. right. by left.
  - rewrite Hv. intros v l []%not_elem_of_empty.
  - rewrite Hv. intros v []%not_elem_of_empty.
  - right. left. by left.
Qed.

(** When the entries of level [k] are used up, the traversal is at level
    [k + 1]. *)
Lemma bfs_inv_advance W base dom maxd st k q2 :
  bfs_inv W base dom maxd st k [] q2 ->
  bfs_inv W base dom maxd st (S k) q2 [].
Proof.
  intros [Hq H1 H2 Hbelow Hlevel Hclosed Hsound Hseed Hdom Hmax Hrun].
  assert (forall n u, (n < S k)%nat -> Z.of_nat n <= maxd ->
                      link_path W dom n base u -> u ∈ visited_urls st)
    as Hbelow'.
  { intros n u Hn Hle Hp. destruct (decide (n = k)) as [->|Hne].
    - destruct (Hlevel Hle u Hp) as [?|[]%elem_of_nil]. done.
    - apply (Hbelow n); [lia|done..]. }
  split; try done.
  - by rewrite app_nil_r.
  - intros u d [-> Hp]%H2. split; [lia|done].
  - intros u d []%elem_of_nil.
  - intros Hle u Hp. inversion Hp as [|n ? v ? Hpv Hl]; subst.
    assert (v ∈ visited_urls st) as Hv by (apply (Hbelow' k); [lia|lia|done]).
    destruct (Hclosed v u Hv Hl) as [?|[[]%elem_of_nil|[Hin|Hnot]]].
    + by left.
    + right. by replace (Z.of_nat (S k)) with (Z.of_nat k + 1) by lia.
    + destruct Hnot. by exists (S k).
  - intros v l Hv Hl.
    destruct (Hclosed v l Hv Hl) as [?|[[]%elem_of_nil|[Hin|Hnot]]].
    + by left.
    + right. left. by replace (Z.of_nat (S k)) with (Z.of_nat k + 1) by lia.
    + by repeat right.
  - destruct Hseed as [?|[[]%elem_of_nil|?]]; [by left|by repeat right].
Qed.

(** One iteration at level [k]. *)
Lemma bfs_inv_step W base dom maxd st st' k u d q1 q2 :
  lawful W ->
  bfs_inv W base dom maxd st k ((u, d) :: q1) q2 ->
  crawl_step W st = Some st' ->
  exists q2', bfs_inv W base dom maxd st' k q1 q2'.
Proof.
  intros HW [Hq H1 H2 Hbelow Hlevel Hclosed Hsound Hseed Hdom Hmax Hrun]
    Hstep.
  destruct (H1 u d ltac:(by left)) as [-> Hpu].
  apply crawl_step_effect in Hstep
    as (url & d0 & q & _ & Hq0 & Hcases).
  rewrite Hq in Hq0. simpl in Hq0. injection Hq0 as <- <- <-.
  rewrite Hmax, Hdom in Hcases.
  destruct Hcases as [[Hskip ->]|Hproc].
  - exists q2. split; try done.
    + intros x dx Hx. apply H1. by right.
    + intros Hle x Hp.
      destruct (Hlevel Hle x Hp) as [?|[[= ->]|?]%elem_of_cons];
        [by left| |by right].
      left. destruct Hskip as [?|?]; [done|lia].
    + simpl. intros v l Hv Hl.
      destruct (Hclosed v l Hv Hl) as [?|[[[= ->]|?]%elem_of_cons|?]];
        [by left| |by right; left|by right; right].
      destruct (decide (u ∈ visited_urls st)) as [?|Hnv]; [by left|].
      repeat right. intros (n & Hn & Hp).
      destruct Hskip as [?|Hgt]; [done|].
      apply Hnv, (Hbelow n); [lia|done..].
    + simpl. destruct Hseed as [?|[[[= -> Hd0]|?]%elem_of_cons|?]];
        [by left| |by right; left|by repeat right].
      destruct Hskip as [?|?]; [by left|repeat right; lia].
  - destruct Hproc
      as (Hnv & Hle & _ & Hd' & Hm' & Hs' & Hv' & _ & _ & _ & _ & Hq').
    exists (q2 ++ fresh_entries ({[u]} ∪ visited_urls st)
                    (page_links W dom u) (Z.of_nat k + 1)).
    split.
    + by rewrite Hq', app_assoc.
    + intros x dx Hx. apply H1. by right.
    + intros x dx [Hx|Hx]%elem_of_app; [by apply H2|].
      unfold fresh_entries in Hx.
      apply list_elem_of_fmap in Hx as (l & [= -> ->] & Hl).
      apply list_elem_of_filter in Hl as [_ Hl].
      split; [done|]. econstructor; [exact Hpu|].
      by apply (page_links_set _ _ _ _ HW).
    + rewrite Hv'. intros n x Hn Hn' Hp. apply elem_of_union. right.
      by apply (Hbelow n).
    + rewrite Hv'. intros Hle' x Hp.
      destruct (Hlevel Hle' x Hp) as [?|[[= ->]|?]%elem_of_cons];
        [left|left|by right]; set_solver.
    + rewrite Hv'. intros v l [->%elem_of_singleton|Hv]%elem_of_union Hl.
      * destruct (decide (l ∈ {[u]} ∪ visited_urls st)) as [?|Hnl];
          [by left|].
        right. right. left. apply elem_of_app. right.
        unfold fresh_entries. apply list_elem_of_fmap. exists l.
        split; [done|]. apply list_elem_of_filter. split; [done|].
        by apply (page_links_set _ _ _ _ HW).
      * destruct (Hclosed v l Hv Hl) as [?|[[[= ->]|?]%elem_of_cons|[?|?]]].
        -- left. set_solver.
        -- left. set_solver.
        -- by right; left.
        -- right. right. left. apply elem_of_app. by left.
        -- by repeat right.
    + rewrite Hv'. intros v [->%elem_of_singleton|Hv]%elem_of_union;
        [|by apply Hsound].
      by exists k.
    + rewrite Hv'.
      destruct Hseed as [?|[[[= -> Hd0]|?]%elem_of_cons|?]];
        [left|left|by right; left|by repeat right]; set_solver.
    + congruence.
    + congruence.
    + done.
Qed.

Lemma bfs_inv_preserved W base dom maxd st st' :
  lawful W ->
  (exists k q1 q2, bfs_inv W base dom maxd st k q1 q2) ->
  crawl_step W st = Some st' ->
  exists k q1 q2, bfs_inv W base dom maxd st' k q1 q2.
Proof.
  intros HW (k & q1 & q2 & Hinv) Hstep.
  destruct q1 as [|[u d] q1].
  - apply bfs_inv_advance in Hinv. destruct q2 as [|[u d] q2].
    + exfalso. destruct Hinv as [Hq _ _ _ _ _ _ _ _ _ Hrun].
      unfold crawl_step in Hstep. by rewrite Hrun, Hq in Hstep.
    + destruct (bfs_inv_step _ _ _ _ _ _ _ _ _ _ _ HW Hinv Hstep) as [q2' ?].
      eauto.
  - destruct (bfs_inv_step _ _ _ _ _ _ _ _ _ _ _ HW Hinv Hstep) as [q2' ?].
    eauto.
Qed.

(** When the loop ends, the visited URLs are those within the depth bound. *)
Lemma bfs_inv_exit W base dom maxd st k q1 q2 :
  bfs_inv W base dom maxd st k q1 q2 ->
  crawl_step W st = None ->
  forall u, u ∈ visited_urls st <-> within_depth W dom base maxd u.
Proof.
  intros [Hq H1 H2 Hbelow Hlevel Hclosed Hsound Hseed Hdom Hmax Hrun] Hexit.
  unfold crawl_step in Hexit. rewrite Hrun in Hexit.
  destruct (queue st) as [|[u0 d0] q0] eqn:Hq0.
  2:{ by destruct (_ || _) in Hexit. }
  symmetry in Hq. apply app_eq_nil in Hq as [-> ->].
  intros u. split; [apply Hsound|].
  intros (n & Hn & Hp). revert u Hn Hp.
  induction n as [|n IH]; intros u Hn Hp.
  - inversion Hp; subst.
    destruct Hseed as [?|[[]%elem_of_nil|?]]; [done|lia].
  - inversion Hp as [|? ? v ? Hpv Hl]; subst.
    assert (v ∈ visited_urls st) as Hv by (apply IH; [lia|done]).
    destruct (Hclosed v u Hv Hl)
      as [?|[[]%elem_of_nil|[[]%elem_of_nil|Hnot]]]; [done|].
    destruct Hnot. by exists (S n).
Qed.

(** ** Two worlds that differ in the iteration order only *)

Section SameSite.
Variables W1 W2 : World.
Hypothesis Hsite : same_site W1 W2.

Lemma same_site_urlparse : urlparse W1 = urlparse W2.
Proof. destruct Hsite as (_ & _ & _ & Hc). unfold urlparse. by rewrite Hc. Qed.

Lemma same_site_urljoin : urljoin W1 = urljoin W2.
Proof. destruct Hsite as (_ & _ & _ & Hc). unfold urljoin. by rewrite Hc. Qed.

Lemma same_site_is_valid_url : is_valid_url W1 = is_valid_url W2.
Proof. unfold is_valid_url. by rewrite same_site_urlparse. Qed.

Lemma same_site_init : init W1 = init W2.
Proof. unfold init. by rewrite same_site_urlparse. Qed.

Lemma same_site_find_links_loop dom elements base links :
  find_links_loop W1 dom elements base links
  = find_links_loop W2 dom elements base links.
Proof.
  revert links. induction elements as [|e els IH]; intros links; simpl;
    [done|].
  rewrite same_site_urljoin, same_site_is_valid_url.
  destruct (link_attr (tag_name e)); [|done].
  destruct (urljoin W2 base _) as [url|]; [|done].
  by destruct (is_valid_url W2 dom url).
Qed.

Lemma same_site_page_link_set dom u :
  page_link_set W1 dom u = page_link_set W2 dom u.
Proof.
  unfold page_link_set, find_links. destruct Hsite as (-> & -> & _).
  destruct (requests_get W2 u); [|done].
  by rewrite same_site_find_links_loop.
Qed.

Lemma same_site_api_trace dom url calls :
  api_trace W1 dom url calls = api_trace W2 dom url calls.
Proof.
  induction calls as [|ep rest IH]; simpl; [done|].
  rewrite same_site_urljoin, same_site_is_valid_url.
  destruct (urljoin W2 url ep) as [full|]; [|done].
  destruct (is_valid_url W2 dom full); [|done]. by rewrite IH.
Qed.

Lemma same_site_js_trace dom url : js_trace W1 dom url = js_trace W2 dom url.
Proof.
  unfold js_trace. destruct Hsite as (-> & _).
  destruct (requests_get W2 url); [|done]. by rewrite same_site_api_trace.
Qed.

Lemma same_site_scripts_trace dom url scripts :
  scripts_trace W1 dom url scripts = scripts_trace W2 dom url scripts.
Proof.
  induction scripts as [|script rest IH]; simpl; [done|].
  destruct Hsite as (_ & _ & -> & _).
  destruct (script_src W2 script) as [src|]; [|done].
  rewrite same_site_urljoin.
  destruct (urljoin W2 url src) as [js_url|]; [|done].
  by rewrite same_site_js_trace, IH.
Qed.

Lemma same_site_page_trace dom u :
  lawful W1 -> lawful W2 ->
  (forall x, x ∈ (page_trace W1 dom u).1 <-> x ∈ (page_trace W2 dom u).1)
  /\ (page_trace W1 dom u).2 = (page_trace W2 dom u).2.
Proof.
  intros H1 H2. unfold page_trace, find_links.
  destruct Hsite as (-> & -> & _).
  destruct (requests_get W2 u) as [text|]; [|done].
  rewrite same_site_find_links_loop.
  destruct (find_links_loop W2 dom _ u []) as [links|]; [|done].
  rewrite same_site_scripts_trace.
  destruct (scripts_trace W2 dom u _) as [us fs]. simpl. split; [|done].
  intros x. rewrite !elem_of_cons, !elem_of_app.
  by rewrite (lawful_elem_of W1 links x H1), (lawful_elem_of W2 links x H2).
Qed.

Lemma same_site_link_path dom n u v :
  link_path W1 dom n u v -> link_path W2 dom n u v.
Proof.
  induction 1 as [|n u v w _ IH Hl]; [constructor|].
  econstructor; [exact IH|]. by rewrite <- same_site_page_link_set.
Qed.

End SameSite.

Lemma same_site_sym W1 W2 : same_site W1 W2 -> same_site W2 W1.
Proof. intros (?&?&?&?). by repeat split. Qed.

Lemma same_site_within_depth W1 W2 dom base maxd u :
  same_site W1 W2 ->
  within_depth W1 dom base maxd u <-> within_depth W2 dom base maxd u.
Proof.
  intros Hs. split; intros (n & Hn & Hp); exists n; split; try done.
  - by apply (same_site_link_path W1 W2).
  - by apply (same_site_link_path W2 W1); [apply same_site_sym|].
Qed.

Lemma html_keys_ext us vs :
  (forall x, x ∈ us <-> x ∈ vs) -> html_keys us = html_keys vs.
Proof.
  intros H. apply set_eq. intros x. rewrite !elem_of_html_keys.
  by setoid_rewrite H.
Qed.

Lemma backend_keys_ext us vs :
  (forall x, x ∈ us <-> x ∈ vs) -> backend_keys us = backend_keys vs.
Proof.
  intros H. apply set_eq. intros x. rewrite !elem_of_backend_keys.
  by setoid_rewrite H.
Qed.

(** ** Complete runs *)

(** A run from the initial state ends, and its final state is described
    by the link graph of the site. *)
Lemma crawl_loop_result W base maxd c0 :
  lawful W ->
  init W base maxd = Some c0 ->
  exists st,
    (forall fuel, (queue_weight W c0 <= fuel)%nat ->
                  crawl_loop W fuel c0 = Some st)
    /\ (forall u, u ∈ visited_urls st <->
                  within_depth W (domain c0) base maxd u)
    /\ findings_inv W (domain c0) st.
Proof.
  intros HW Hinit.
  destruct (crawl_loop_terminates W (queue_weight W c0) c0 ltac:(lia))
    as [st Hst].
  exists st. split.
  { intros fuel Hf. by eapply crawl_loop_fuel_mono. }
  pose proof (crawl_loop_reachable _ _ _ _ Hst) as Hr.
  pose proof (crawl_loop_exit _ _ _ _ Hst) as Hexit.
  assert ((exists k q1 q2, bfs_inv W base (domain c0) maxd st k q1 q2)
          /\ findings_inv W (domain c0) st) as [(k & q1 & q2 & Hbfs) Hfind].
  { apply (reachable_invariant W
             (fun st =>
                (exists k q1 q2, bfs_inv W base (domain c0) maxd st k q1 q2)
                /\ findings_inv W (domain c0) st) c0 st); [| |exact Hr].
    - split; [|by eapply findings_inv_init].
      exists 0%nat, [(base, 0)], []. by apply bfs_inv_init.
    - intros s s' [Hb Hf] Hstep. split.
      + by eapply bfs_inv_preserved.
      + eapply findings_inv_step; [|exact Hf|exact Hstep].
        destruct Hb as (? & ? & ? & Hb). apply Hb. }
  split; [|done]. by eapply bfs_inv_exit.
Qed.

(** ** Two runs over the same site *)

(** The two worlds [Site.W1] and [Site.W2] serve the same responses and
    yield the two links of the home page in opposite orders; the two runs
    report the same findings in different orders. *)
Lemma notification_order_follows_set_order :
  same_site Site.W1 Site.W2
  /\ lawful Site.W1 /\ lawful Site.W2
  /\ exists st1 st2,
       crawl Site.W1 10 Site.start = Some st1
       /\ crawl Site.W2 10 Site.start = Some st2
       /\ printed st1 = [(FBackend, "http://x.test/page");
                         (FHtml, "http://x.test/page")]
       /\ printed st2 = [(FHtml, "http://x.test/page");
                         (FBackend, "http://x.test/page")]
       /\ printed st1 <> printed st2.
Proof.
  split; [by repeat split|]. split; [intros s; reflexivity|].
  split; [intros s; symmetry; apply Permutation_rev|].
  eexists. eexists. split; [vm_compute; reflexivity|].
  split; [vm_compute; reflexivity|].
  split; [vm_compute; reflexivity|]. split; [vm_compute; reflexivity|].
  simpl. intros [=].
Qed.

(** C9 (amended). Two runs over the same site, whatever order each of them
    iterates its sets in, both end and leave the same pages, the same
    backend endpoints and the same function names in the findings; when
    the two runs iterate every set in the same order, their sequences of
    notifications are the same too. *)
Theorem crawl_findings_order_independent (W1 W2 : World) (base : string)
    (maxd : Z) (c1 c2 : crawler) :
  lawful W1 -> lawful W2 -> same_site W1 W2 ->
  init W1 base maxd = Some c1 -> init W2 base maxd = Some c2 ->
  exists st1 st2,
    (forall fuel, (queue_weight W1 c1 <= fuel)%nat ->
                  crawl W1 fuel c1 = Some st1)
    /\ (forall fuel, (queue_weight W2 c2 <= fuel)%nat ->
                     crawl W2 fuel c2 = Some st2)
    /\ html_pages st1 = html_pages st2
    /\ backend_endpoints st1 = backend_endpoints st2
    /\ functions st1 = functions st2
    /\ (set_iter W1 = set_iter W2 -> printed st1 = printed st2).
Proof.
  intros HW1 HW2 Hsite Hinit1 Hinit2.
  assert (c1 = c2) as <-.
  { rewrite (same_site_init W1 W2 Hsite) in Hinit1. congruence. }
  destruct (crawl_loop_result W1 base maxd c1 HW1 Hinit1)
    as (st1 & Hrun1 & Hv1 & Hh1 & Hb1 & Hf1).
  destruct (crawl_loop_result W2 base maxd c1 HW2 Hinit2)
    as (st2 & Hrun2 & Hv2 & Hh2 & Hb2 & Hf2).
  exists (set_stop_event true st1), (set_stop_event true st2).
  split; [intros fuel Hf; unfold crawl; by rewrite (Hrun1 fuel Hf)|].
  split; [intros fuel Hf; unfold crawl; by rewrite (Hrun2 fuel Hf)|].
  assert (forall u, u ∈ visited_urls st1 <-> u ∈ visited_urls st2) as Hv.
  { intros u. rewrite Hv1, Hv2. by apply same_site_within_depth. }
  simpl. repeat split.
  - apply set_eq. intros x. rewrite Hh1, Hh2.
    split; intros (v & Hvis & Hx); exists v; split; try (by apply Hv);
      destruct (same_site_page_trace W1 W2 Hsite (domain c1) v HW1 HW2)
        as [Ht _];
      by rewrite (html_keys_ext _ _ Ht) in *.
  - apply set_eq. intros x. rewrite Hb1, Hb2.
    split; intros (v & Hvis & Hx); exists v; split; try (by apply Hv);
      destruct (same_site_page_trace W1 W2 Hsite (domain c1) v HW1 HW2)
        as [Ht _];
      by rewrite (backend_keys_ext _ _ Ht) in *.
  - apply set_eq. intros x. rewrite Hf1, Hf2.
    split; intros (v & Hvis & Hx); exists v; split; try (by apply Hv);
      destruct (same_site_page_trace W1 W2 Hsite (domain c1) v HW1 HW2)
        as [_ Ht];
      by rewrite Ht in *.
  - intros Hiter.
    assert (W1 = W2) as <-.
    { destruct W1, W2, Hsite as (? & ? & ? & ?). simpl in *. congruence. }
    pose proof (Hrun1 _ (Nat.le_refl _)) as E1.
    rewrite (Hrun2 _ (Nat.le_refl _)) in E1. congruence.
Qed.

Lemma crawl_findings_order_independent_witness :
  exists st1 st2,
    crawl Site.W1 20 Site.start = Some st1
    /\ crawl Site.W2 20 Site.start = Some st2
    /\ html_pages st1 = html_pages st2
    /\ backend_endpoints st1 = backend_endpoints st2
    /\ functions st1 = functions st2.
Proof.
  destruct (crawl_findings_order_independent Site.W1 Site.W2 Site.seed 3
              Site.start Site.start)
    as (st1 & st2 & H1 & H2 & Hh & Hb & Hf & _).
  - intros s. reflexivity.
  - intros s. symmetry. apply Permutation_rev.
  - by repeat split.
  - vm_compute. reflexivity.
  - vm_compute. reflexivity.
  - exists st1, st2.
    split; [apply H1, Nat.leb_le; vm_compute; reflexivity|].
    split; [apply H2, Nat.leb_le; vm_compute; reflexivity|]. done.
Defined.

(** ** Properties of the findings along a run *)

Lemma NoDup_pyset_of l : NoDup (pyset_of l).
Proof.
  unfold pyset_of.
  assert (forall acc, NoDup acc ->
            NoDup (foldl (fun s x => pyset_add x s) acc l)) as H.
  { induction l as [|x l IH]; intros acc Hacc; simpl; [done|].
    by apply IH, NoDup_pyset_add. }
  apply H. constructor.
Qed.

Lemma elem_of_pyset_of x l : x ∈ pyset_of l <-> x ∈ l.
Proof.
  unfold pyset_of.
  assert (forall acc, x ∈ foldl (fun s x => pyset_add x s) acc l
                      <-> x ∈ acc \/ x ∈ l) as H.
  { induction l as [|y l IH]; intros acc; simpl.
    - rewrite elem_of_nil. tauto.
    - rewrite IH, elem_of_pyset_add, elem_of_cons. tauto. }
  rewrite H, elem_of_nil. tauto.
Qed.

Lemma js_trace_NoDup W dom url : NoDup (default [] (js_trace W dom url).2).
Proof.
  unfold js_trace. destruct (requests_get W url); [|constructor].
  destruct (api_trace W dom url _) as [us raised]. simpl.
  destruct raised; simpl; [constructor|apply NoDup_pyset_of].
Qed.

Lemma same_findings_refl st : same_findings st st.
Proof. by repeat split. Qed.

(** A property of the findings and the output that [process_endpoint] and
    the merge of function names keep is kept by every loop iteration. *)
Section FindingsInvariant.
Variable W : World.
Variable P : crawler -> Prop.
Hypothesis P_same : forall st st', same_findings st st' -> P st -> P st'.
Hypothesis P_endpoint : forall u st, P st -> P (process_endpoint u st).
Hypothesis P_merge :
  forall fns st, NoDup fns -> P st -> P (merge_functions W fns st).

Lemma process_all_keeps us st : P st -> P (process_all us st).
Proof.
  revert st. induction us as [|u us IH]; intros st H; [done|].
  apply IH. by apply P_endpoint.
Qed.

Lemma crawl_scripts_keeps url scripts st :
  P st -> P (crawl_scripts W url scripts st).1.
Proof.
  revert st. induction scripts as [|script rest IH]; intros st H; simpl;
    [done|].
  destruct (script_src W script) as [src|]; [|by apply IH].
  destruct (urljoin W url src) as [js_url|]; [|done].
  rewrite analyze_js_trace. apply IH, P_merge; [apply js_trace_NoDup|].
  by apply process_all_keeps.
Qed.

Lemma crawl_links_keeps links d st : P st -> P (crawl_links links d st).
Proof.
  unfold crawl_links. revert st.
  induction links as [|link links IH]; intros st H; simpl; [done|].
  apply IH. case_bool_decide; [by apply P_endpoint|].
  eapply P_same; [|by apply (P_endpoint link)]. by repeat split.
Qed.

Lemma crawl_page_keeps url d st : P st -> P (crawl_page W url d st).
Proof.
  intros H. unfold crawl_page.
  destruct (requests_get W url) as [text|]; [|done].
  destruct (find_links W _ _ url) as [links|]; [|by apply P_endpoint].
  by apply crawl_scripts_keeps, crawl_links_keeps, P_endpoint.
Qed.

Lemma crawl_step_keeps st st' : P st -> crawl_step W st = Some st' -> P st'.
Proof.
  intros H. unfold crawl_step. destruct (stop_event st); [done|].
  destruct (queue st) as [|[url d] q]; [done|].
  destruct (_ || _); intros [= <-].
  - eapply P_same; [|exact H]. by repeat split.
  - apply crawl_page_keeps. eapply P_same; [|exact H]. by repeat split.
Qed.

End FindingsInvariant.

Lemma notified_app t st l :
  (filter (fun n : finding_type * string => n.1 = t) (printed st ++ l)).*2
  = notified t st ++ (filter (fun n => n.1 = t) l).*2.
Proof. unfold notified. by rewrite filter_app, fmap_app. Qed.

Lemma notified_fmap t t' (l : list string) :
  (filter (fun n : finding_type * string => n.1 = t)
          ((fun x => (t', x)) <$> l)).*2
  = if decide (t' = t) then l else [].
Proof.
  destruct (decide (t' = t)) as [Ht|Ht].
  - induction l as [|x l IH]; [done|].
    rewrite fmap_cons, filter_cons. cbn [fst].
    rewrite decide_True by done. rewrite fmap_cons. cbn [snd].
    by rewrite IH.
  - induction l as [|x l IH]; [done|].
    rewrite fmap_cons, filter_cons. cbn [fst].
    by rewrite decide_False by done.
Qed.

Lemma notified_print t t' value st :
  notified t (print_finding t' value st)
  = notified t st ++ (if decide (t' = t) then [value] else []).
Proof.
  unfold notified at 1. simpl. rewrite notified_app, filter_cons. simpl.
  by destruct (decide (t' = t)).
Qed.

Lemma notified_add_html t x st : notified t (add_html x st) = notified t st.
Proof. done. Qed.

Lemma notified_add_backend t x st :
  notified t (add_backend x st) = notified t st.
Proof. done. Qed.

Lemma notifications_agree_endpoint u st :
  notifications_agree st -> notifications_agree (process_endpoint u st).
Proof.
  intros (Hdh & Hh & Hdb & Hb & Hf). unfold process_endpoint.
  destruct (bool_decide (classify_endpoint u = Html)
            && negb (bool_decide (clean_url u ∈ html_pages st))) eqn:C1.
  - apply andb_prop in C1 as [_ Hnew%negb_true_iff%bool_decide_eq_false].
    unfold notifications_agree.
    rewrite !notified_print, !notified_add_html. simpl.
    rewrite !app_nil_r. split; [|split; [|split; [|split]]]; try done.
    + apply NoDup_app. split; [done|]. split; [|apply NoDup_singleton].
      intros x Hx ->%list_elem_of_singleton. by apply Hnew, Hh.
    + intros x. rewrite elem_of_app, list_elem_of_singleton, Hh. set_solver.
  - destruct (bool_decide (classify_endpoint u = Backend)
              && negb (bool_decide (clean_url u ∈ backend_endpoints st)))
      eqn:C2; [|done].
    apply andb_prop in C2 as [_ Hnew%negb_true_iff%bool_decide_eq_false].
    unfold notifications_agree.
    rewrite !notified_print, !notified_add_backend. simpl.
    rewrite !app_nil_r. split; [|split; [|split; [|split]]]; try done.
    + apply NoDup_app. split; [done|]. split; [|apply NoDup_singleton].
      intros x Hx ->%list_elem_of_singleton. by apply Hnew, Hb.
    + intros x. rewrite elem_of_app, list_elem_of_singleton, Hb. set_solver.
Qed.

Lemma notifications_agree_merge W fns st :
  lawful W ->
  notifications_agree st -> notifications_agree (merge_functions W fns st).
Proof.
  intros HW (Hdh & Hh & Hdb & Hb & Hf).
  destruct (merge_functions_effect W fns st) as (_ & Eh & Eb & Ef & Ep).
  unfold notifications_agree, notified. rewrite Eh, Eb, Ef, Ep.
  rewrite !notified_app, !notified_fmap. simpl. rewrite !app_nil_r.
  split; [|split; [|split; [|split]]]; try done.
  intros x. rewrite elem_of_app, Hf, (lawful_elem_of W fns x HW). set_solver.
Qed.

(** X1. In every state of a run the printed page notifications are the
    keys in [html_pages], each printed once; the printed backend
    notifications are the keys in [backend_endpoints], each printed once;
    and the function names printed are those in [found['functions']]. *)
Theorem run_notifications_agree (W : World) (base : string) (maxd : Z)
    (c0 st : crawler) :
  lawful W -> init W base maxd = Some c0 -> reachable W c0 st ->
  notifications_agree st.
Proof.
  intros HW Hinit Hr.
  apply (reachable_invariant W notifications_agree c0 st); [| |exact Hr].
  - apply init_fields in Hinit
      as (_ & _ & _ & _ & Hh & Hb & Hf & _ & Hp & _).
    unfold notifications_agree, notified. rewrite Hh, Hb, Hf, Hp. simpl.
    split; [|split; [|split; [|split]]]; try apply NoDup_nil_2;
      intros x; rewrite elem_of_nil; set_solver.
  - intros s s'. apply crawl_step_keeps.
    + intros s1 s2 (E1 & E2 & E3 & E4). unfold notifications_agree, notified.
      by rewrite E1, E2, E3, E4.
    + apply notifications_agree_endpoint.
    + intros fns s1 _. by apply notifications_agree_merge.
Qed.

Lemma run_notifications_agree_witness :
  exists st,
    crawl_loop Site.W1 10 Site.start = Some st /\ notifications_agree st.
Proof.
  eexists. split; [vm_compute; reflexivity|].
  apply (run_notifications_agree Site.W1 Site.seed 3 Site.start).
  - intros s. reflexivity.
  - vm_compute. reflexivity.
  - apply (crawl_loop_reachable Site.W1 10). vm_compute. reflexivity.
Defined.

Lemma extends_refl st : extends st st.
Proof. by repeat split. Qed.

Lemma extends_trans st1 st2 st3 :
  extends st1 st2 -> extends st2 st3 -> extends st1 st3.
Proof.
  intros (A1 & A2 & A3 & A4 & A5 & A6) (B1 & B2 & B3 & B4 & B5 & B6).
  repeat split; try (by etrans); set_solver.
Qed.

Lemma crawl_step_extends W st st' :
  crawl_step W st = Some st' -> extends st st'.
Proof.
  intros Hstep.
  assert (html_pages st ⊆ html_pages st'
          /\ backend_endpoints st ⊆ backend_endpoints st'
          /\ functions st ⊆ functions st'
          /\ printed st `prefix_of` printed st') as (H1 & H2 & H3 & H4).
  { apply (crawl_step_keeps W
             (fun s => html_pages st ⊆ html_pages s
                       /\ backend_endpoints st ⊆ backend_endpoints s
                       /\ functions st ⊆ functions s
                       /\ printed st `prefix_of` printed s)) with st;
      [| | |done|done].
    - intros s1 s2 (E1 & E2 & E3 & E4). by rewrite E1, E2, E3, E4.
    - intros u s (A1 & A2 & A3 & A4).
      rewrite process_endpoint_html, process_endpoint_backend,
        process_endpoint_functions, process_endpoint_printed.
      repeat split; [set_solver..|done|by apply prefix_app_r].
    - intros fns s _ (A1 & A2 & A3 & A4).
      destruct (merge_functions_effect W fns s) as (_ & -> & -> & -> & ->).
      repeat split; [done|done|set_solver|by apply prefix_app_r]. }
  repeat split; try done.
  - apply crawl_step_effect in Hstep
      as (url & d & q & _ & _ & [[_ ->]|Hproc]); [done|].
    destruct Hproc as (_ & _ & _ & _ & _ & _ & -> & _). set_solver.
  - apply crawl_step_effect in Hstep
      as (url & d & q & _ & _ & [[_ ->]|Hproc]); [done|].
    destruct Hproc as (_ & _ & _ & _ & _ & _ & _ & -> & _).
    by apply prefix_app_r.
Qed.

(** X2. Along a run nothing is ever taken back: the three containers of
    findings and the visited set only grow, and the printed output and
    the sequence of processed entries are only appended to. *)
Theorem run_extends (W : World) (st st' : crawler) :
  reachable W st st' -> extends st st'.
Proof.
  induction 1 as [|s s' _ IH Hstep]; [apply extends_refl|].
  eapply extends_trans; [exact IH|]. by eapply crawl_step_extends.
Qed.

Lemma run_extends_witness :
  exists st1 st2,
    crawl_step Site.W1 Site.start = Some st1
    /\ crawl_loop Site.W1 10 st1 = Some st2
    /\ extends st1 st2.
Proof.
  eexists. eexists. split; [vm_compute; reflexivity|].
  split; [vm_compute; reflexivity|].
  apply (run_extends Site.W1).
  apply (crawl_loop_reachable Site.W1 10). vm_compute. reflexivity.
Defined.

(** ** The bookkeeping of the loop *)

Lemma crawl_links_counters links d st :
  crawled (prog (crawl_links links d st)) = crawled (prog st)
  /\ depth (prog (crawl_links links d st)) = depth (prog st).
Proof.
  unfold crawl_links. revert st.
  induction links as [|link links IH]; intros st; simpl; [done|].
  destruct (IH (if bool_decide (link ∈ visited_urls (process_endpoint link st))
                then process_endpoint link st
                else enqueue link (d + 1) (process_endpoint link st)))
    as [-> ->].
  destruct (process_endpoint_control link st) as (_ & _ & _ & _ & _ & _ & E & _).
  case_bool_decide; simpl; by rewrite E.
Qed.

Lemma crawl_page_counters W url d st :
  crawled (prog (crawl_page W url d st)) = crawled (prog st)
  /\ depth (prog (crawl_page W url d st)) = depth (prog st).
Proof.
  unfold crawl_page. destruct (requests_get W url) as [text|]; [|done].
  destruct (process_endpoint_control url st)
    as (_ & _ & _ & _ & _ & _ & E & _).
  destruct (find_links W _ _ url) as [links|]; [|by rewrite E].
  destruct (crawl_scripts_effect W url
              (find_all ["script"] (BeautifulSoup W text))
              (crawl_links (set_iter W links) d (process_endpoint url st)))
    as ((_ & _ & _ & _ & _ & _ & -> & _) & _).
  destruct (crawl_links_counters (set_iter W links) d
              (process_endpoint url st)) as [-> ->].
  by rewrite E.
Qed.

Lemma bookkeeping_step W st st' :
  bookkeeping st -> crawl_step W st = Some st' -> bookkeeping st'.
Proof.
  intros (Hnd & Hv & Hc & Hs & Hd) Hstep.
  pose proof Hstep as Heff.
  apply crawl_step_effect in Heff
    as (url & d & q & Hstop & Hq & [[_ ->]|Hproc]); [done|].
  destruct Hproc as (Hnv & _ & _ & _ & _ & _ & Hv' & Hp' & _).
  unfold crawl_step in Hstep. rewrite Hstop, Hq in Hstep. simpl in Hstep.
  rewrite (bool_decide_eq_false_2 _ Hnv) in Hstep. simpl in Hstep.
  destruct (d >? max_depth st); injection Hstep as <-.
  { exfalso. simpl in Hp'. revert Hp'. clear.
    intros H. apply (f_equal length) in H. rewrite length_app in H.
    simpl in H. lia. }
  destruct (crawl_page_counters W url d
              (mark_visited url d (set_queue q st))) as [Ec Ed].
  unfold bookkeeping. rewrite Hv', Hp', Ec, Ed. simpl.
  rewrite fmap_app, length_app, last_snoc. simpl.
  split; [|split; [|split; [|split]]].
  - apply NoDup_app. split; [done|]. split; [|apply NoDup_singleton].
    intros x Hx ->%list_elem_of_singleton. apply Hnv. rewrite Hv.
    by apply elem_of_list_to_set.
  - rewrite list_to_set_app_L, Hv. simpl. set_solver.
  - lia.
  - rewrite size_union by set_solver. rewrite size_singleton. lia.
  - by intros e [= <-].
Qed.

(** X3. In every state of a run each URL has been processed at most once,
    the visited set is the set of processed URLs, the [crawled] counter and
    the size of the visited set equal the number of processed entries, and
    the [depth] counter is the depth of the entry processed last. *)
Theorem run_bookkeeping (W : World) (base : string) (maxd : Z)
    (c0 st : crawler) :
  init W base maxd = Some c0 -> reachable W c0 st -> bookkeeping st.
Proof.
  intros Hinit Hr.
  apply (reachable_invariant W bookkeeping c0 st); [| |exact Hr].
  - unfold init in Hinit. destruct (urlparse W base); [|done].
    injection Hinit as <-. unfold bookkeeping. simpl.
    split; [constructor|]. by repeat split.
  - intros s s'. apply bookkeeping_step.
Qed.

Lemma run_bookkeeping_witness :
  exists st, crawl_loop Site.W1 10 Site.start = Some st /\ bookkeeping st.
Proof.
  eexists. split; [vm_compute; reflexivity|].
  apply (run_bookkeeping Site.W1 Site.seed 3 Site.start).
  - vm_compute. reflexivity.
  - apply (crawl_loop_reachable Site.W1 10). vm_compute. reflexivity.
Defined.

(** ** The frontier *)

Lemma crawl_links_queued links d st :
  queued (prog st) = Z.of_nat (length (queue st)) ->
  queued (prog (crawl_links links d st))
  = Z.of_nat (length (queue (crawl_links links d st))).
Proof.
  unfold crawl_links. revert st.
  induction links as [|link links IH]; intros st H; simpl; [done|].
  apply IH.
  destruct (process_endpoint_control link st)
    as (_ & _ & _ & _ & Eq & _ & Ep & _).
  case_bool_decide; [by rewrite Eq, Ep|done].
Qed.

Lemma crawl_page_queued W url d st :
  queued (prog st) = Z.of_nat (length (queue st)) ->
  queued (prog (crawl_page W url d st))
  = Z.of_nat (length (queue (crawl_page W url d st))).
Proof.
  intros H. unfold crawl_page.
  destruct (requests_get W url) as [text|]; [|done].
  destruct (process_endpoint_control url st)
    as (_ & _ & _ & _ & Eq & _ & Ep & _).
  destruct (find_links W _ _ url) as [links|]; [|by rewrite Eq, Ep].
  destruct (crawl_scripts_effect W url
              (find_all ["script"] (BeautifulSoup W text))
              (crawl_links (set_iter W links) d (process_endpoint url st)))
    as ((_ & _ & _ & _ & -> & _ & -> & _) & _).
  apply crawl_links_queued. by rewrite Eq, Ep.
Qed.

(** X4. In every state of a run the frontier holds the seed at depth 0 and
    otherwise only URLs that passed the validator, at depths from 1 to one
    more than the configured maximum; and the [queued] counter is at least
    the length of the frontier. *)
Theorem run_frontier (W : World) (base : string) (maxd : Z)
    (c0 st : crawler) :
  lawful W -> init W base maxd = Some c0 -> reachable W c0 st ->
  frontier_ok W base (domain c0) maxd st.
Proof.
  intros HW Hinit Hr.
  cut (domain st = domain c0 /\ max_depth st = maxd
       /\ frontier_ok W base (domain c0) maxd st); [by intros (_ & _ & ?)|].
  apply (reachable_invariant W
           (fun st => domain st = domain c0 /\ max_depth st = maxd
                      /\ frontier_ok W base (domain c0) maxd st) c0 st);
    [| |exact Hr].
  - unfold init in Hinit. destruct (urlparse W base); [|done].
    injection Hinit as <-. unfold frontier_ok. simpl.
    repeat split; [|lia]. intros u d [= -> ->]%list_elem_of_singleton.
    by left.
  - clear st Hr. intros st st' (Hdom & Hmax & Hq & Hn) Hstep.
    pose proof Hstep as Heff.
    apply crawl_step_effect in Heff
      as (url & d & q & Hstop & Hqq & [[_ ->]|Hproc]).
    + simpl. split; [done|]. split; [done|]. split.
      * intros u k Hu. apply Hq. rewrite Hqq. by right.
      * rewrite Hqq in Hn. cbn [length] in Hn. simpl. lia.
    + destruct Hproc
        as (Hnv & Hle & _ & Hd' & Hm' & _ & _ & _ & _ & _ & _ & Hq').
      split; [congruence|]. split; [congruence|]. split.
      * rewrite Hq'. intros u k [Hu|Hu]%elem_of_app.
        { apply Hq. rewrite Hqq. by right. }
        right. unfold fresh_entries in Hu.
        apply list_elem_of_fmap in Hu as (l & [= -> ->] & Hl).
        apply list_elem_of_filter in Hl as [_ Hl]. rewrite Hdom in Hl.
        split; [by eapply page_links_valid|].
        destruct (Hq url d) as [[_ ->]|[_ ?]]; [rewrite Hqq; by left|lia|lia].
      * unfold crawl_step in Hstep. rewrite Hstop, Hqq in Hstep.
        simpl in Hstep. rewrite (bool_decide_eq_false_2 _ Hnv) in Hstep.
        assert ((d >? max_depth st) = false) as Hgt
          by (rewrite Z.gtb_ltb; apply Z.ltb_ge; lia).
        rewrite Hgt in Hstep. simpl in Hstep. injection Hstep as <-.
        rewrite crawl_page_queued; [lia|done].
Qed.

Lemma run_frontier_witness :
  exists st,
    crawl_step Site.W1 Site.start = Some st
    /\ frontier_ok Site.W1 Site.seed "x.test" 3 st.
Proof.
  eexists. split; [vm_compute; reflexivity|].
  apply (run_frontier Site.W1 Site.seed 3 Site.start).
  - intros s. reflexivity.
  - vm_compute. reflexivity.
  - eapply reachable_step; [apply reachable_start|].
    vm_compute. reflexivity.
Defined.

(** ** Complete runs, again *)

Lemma crawl_step_running W st st' :
  crawl_step W st = Some st' -> stop_event st = false /\ stop_event st' = false.
Proof.
  intros (url & d & q & Hs & _ & [[_ ->]|Hproc])%crawl_step_effect; [done|].
  split; [done|]. apply Hproc.
Qed.

(** X5. The loop ends from every state, for every site and every depth
    bound: [queue_weight] iterations suffice (the number of frontier
    entries the links of the pending entries can give rise to within the
    bound), more fuel changes nothing, and when the loop was not stopped
    from outside it ends with an empty frontier. *)
Theorem crawl_terminates (W : World) (st : crawler) :
  exists st',
    (forall fuel, (queue_weight W st <= fuel)%nat ->
                  crawl W fuel st = Some (set_stop_event true st'))
    /\ crawl_step W st' = None
    /\ (stop_event st = false -> queue st' = []).
Proof.
  destruct (crawl_loop_terminates W (queue_weight W st) st ltac:(lia))
    as [st' Hst].
  exists st'. split; [|split].
  - intros fuel Hf. unfold crawl.
    by rewrite (crawl_loop_fuel_mono _ _ _ _ _ Hst Hf).
  - by eapply crawl_loop_exit.
  - intros Hrun.
    assert (stop_event st' = false) as Hrun'.
    { apply (reachable_invariant W (fun s => stop_event s = false) st st');
        [done| |by eapply crawl_loop_reachable].
      intros s s' _ Hs. by apply crawl_step_running in Hs as [_ ?]. }
    pose proof (crawl_loop_exit _ _ _ _ Hst) as Hexit.
    unfold crawl_step in Hexit. rewrite Hrun' in Hexit.
    destruct (queue st') as [|[u d] q]; [done|]. by destruct (_ || _).
Qed.

Lemma crawl_terminates_witness :
  exists st',
    crawl Site.W1 13 Site.start = Some (set_stop_event true st')
    /\ queue st' = [].
Proof.
  destruct (crawl_terminates Site.W1 Site.start) as (st' & Hrun & _ & Hq).
  exists st'. split.
  - apply Hrun, Nat.leb_le. vm_compute. reflexivity.
  - apply Hq. reflexivity.
Defined.

(** X6. A complete run from the initial state visits exactly the URLs
    that can be reached from the seed by following at most [max_depth]
    links, each taken from a page that was fetched and scanned without an
    exception. *)
Theorem crawl_visits_within_depth (W : World) (base : string) (maxd : Z)
    (c0 : crawler) :
  lawful W -> init W base maxd = Some c0 ->
  exists st,
    crawl W (queue_weight W c0) c0 = Some st
    /\ forall u, u ∈ visited_urls st <->
                 within_depth W (domain c0) base maxd u.
Proof.
  intros HW Hinit.
  destruct (crawl_loop_result W base maxd c0 HW Hinit)
    as (st & Hrun & Hv & _).
  exists (set_stop_event true st). split; [|done].
  unfold crawl. by rewrite (Hrun _ (Nat.le_refl _)).
Qed.

Lemma crawl_visits_within_depth_witness :
  exists st,
    crawl Site.W1 (queue_weight Site.W1 Site.start) Site.start = Some st
    /\ forall u, u ∈ visited_urls st <->
                 within_depth Site.W1 "x.test" Site.seed 3 u.
Proof.
  apply (crawl_visits_within_depth Site.W1 Site.seed 3 Site.start).
  - intros s. reflexivity.
  - vm_compute. reflexivity.
Defined.

(** X7. In every state of a run the findings are exactly what the pages
    visited so far contribute: a key is in [html_pages] (in
    [backend_endpoints]) just when some visited page handed a URL with that
    key and that classification to [process_endpoint], and a name is in
    [found['functions']] just when the scripts of some visited page
    returned it. *)
Theorem run_findings_of_visited (W : World) (base : string) (maxd : Z)
    (c0 st : crawler) :
  init W base maxd = Some c0 -> reachable W c0 st ->
  findings_inv W (domain c0) st.
Proof.
  intros Hinit Hr.
  cut (domain st = domain c0 /\ findings_inv W (domain c0) st);
    [by intros [_ ?]|].
  apply (reachable_invariant W
           (fun st => domain st = domain c0
                      /\ findings_inv W (domain c0) st) c0 st);
    [| |exact Hr].
  - split; [done|]. by eapply findings_inv_init.
  - intros s s' [Hd Hf] Hstep. split.
    + apply crawl_step_effect in Hstep
        as (url & d & q & _ & _ & [[_ ->]|Hproc]); [done|].
      destruct Hproc as (_ & _ & _ & -> & _). done.
    + by eapply findings_inv_step.
Qed.

Lemma run_findings_of_visited_witness :
  exists st,
    crawl_loop Site.W1 10 Site.start = Some st
    /\ findings_inv Site.W1 "x.test" st.
Proof.
  eexists. split; [vm_compute; reflexivity|].
  apply (run_findings_of_visited Site.W1 Site.seed 3 Site.start).
  - vm_compute. reflexivity.
  - apply (crawl_loop_reachable Site.W1 10). vm_compute. reflexivity.
Defined.

(** ** Breadth-first order *)

Lemma breadth_first_step W base dom maxd st st' k u d q1 q2 :
  lawful W ->
  bfs_inv W base dom maxd st k ((u, d) :: q1) q2 ->
  (forall v e, (v, e) ∈ processed st -> e <= Z.of_nat k) ->
  breadth_first W base dom st ->
  crawl_step W st = Some st' ->
  (exists q2', bfs_inv W base dom maxd st' k q1 q2')
  /\ (forall v e, (v, e) ∈ processed st' -> e <= Z.of_nat k)
  /\ breadth_first W base dom st'.
Proof.
  intros HW Hinv Hk [Hsorted Hshort] Hstep.
  split; [by eapply bfs_inv_step|].
  destruct Hinv as [Hq H1 _ Hbelow _ _ _ _ _ Hmax _].
  destruct (H1 u d ltac:(by left)) as [-> Hpu].
  apply crawl_step_effect in Hstep
    as (url & d0 & q & _ & Hq0 & Hcases).
  rewrite Hq in Hq0. simpl in Hq0. injection Hq0 as <- <- <-.
  destruct Hcases as [[_ ->]|Hproc]; [done|].
  destruct Hproc as (Hnv & Hle & _ & _ & _ & _ & _ & Hp' & _).
  rewrite Hmax in Hle. unfold breadth_first. rewrite Hp'. split; [|split].
  - intros v e [Hv|[= -> ->]%list_elem_of_singleton]%elem_of_app;
      [by eapply Hk|lia].
  - rewrite fmap_app. apply StronglySorted_app_2; [|done|].
    + intros x1 x2 Hx1 ->%list_elem_of_singleton.
      apply list_elem_of_fmap in Hx1 as ([v e] & -> & Hve). simpl.
      by eapply Hk.
    + repeat constructor.
  - intros v e [Hv|[= -> ->]%list_elem_of_singleton]%elem_of_app;
      [by apply Hshort|].
    exists k. split; [done|]. split; [done|].
    intros m Hm Hpath. apply Hnv, (Hbelow m); [done|lia|done].
Qed.

(** X8. The traversal is breadth-first: in every state of a run the
    depths of the processed entries never decrease along the sequence, and
    every URL was processed at the depth that is the least number of links
    leading to it from the seed. *)
Theorem run_breadth_first (W : World) (base : string) (maxd : Z)
    (c0 st : crawler) :
  lawful W -> init W base maxd = Some c0 -> reachable W c0 st ->
  breadth_first W base (domain c0) st.
Proof.
  intros HW Hinit Hr.
  pose (Q := fun st =>
    exists k q1 q2,
      bfs_inv W base (domain c0) maxd st k q1 q2
      /\ (forall v e, (v, e) ∈ processed st -> e <= Z.of_nat k)
      /\ breadth_first W base (domain c0) st).
  cut (Q st); [by intros (k & q1 & q2 & _ & _ & ?)|].
  apply (reachable_invariant W Q c0 st); [| |exact Hr].
  - exists 0%nat, [(base, 0)], []. split; [by apply bfs_inv_init|].
    apply init_fields in Hinit
      as (_ & _ & _ & _ & _ & _ & _ & _ & _ & Hp & _).
    unfold breadth_first. rewrite Hp. split; [by intros v e []%elem_of_nil|].
    split; [constructor|by intros v e []%elem_of_nil].
  - clear st Hr. intros st st' (k & q1 & q2 & Hinv & Hk & Hbf) Hstep.
    destruct q1 as [|[u d] q1].
    + apply bfs_inv_advance in Hinv. destruct q2 as [|[u d] q2].
      * exfalso. destruct Hinv as [Hq _ _ _ _ _ _ _ _ _ Hrun].
        unfold crawl_step in Hstep. by rewrite Hrun, Hq in Hstep.
      * destruct (breadth_first_step W base (domain c0) maxd st st' (S k)
                    u d q2 [] HW Hinv) as ((q2' & ?) & ? & ?); try done.
        { intros v e Hve. specialize (Hk v e Hve). lia. }
        by exists (S k), q2, q2'.
    + destruct (breadth_first_step W base (domain c0) maxd st st' k
                  u d q1 q2 HW Hinv) as ((q2' & ?) & ? & ?); try done.
      by exists k, q1, q2'.
Qed.

Lemma run_breadth_first_witness :
  exists st,
    crawl_loop Site.W1 10 Site.start = Some st
    /\ breadth_first Site.W1 Site.seed "x.test" st.
Proof.
  eexists. split; [vm_compute; reflexivity|].
  apply (run_breadth_first Site.W1 Site.seed 3 Site.start).
  - intros s. reflexivity.
  - vm_compute. reflexivity.
  - apply (crawl_loop_reachable Site.W1 10). vm_compute. reflexivity.
Defined.

(** ** What the link extractor returns *)

Lemma find_links_loop_exact W dom elements base links r :
  find_links_loop W dom elements base links = Some r ->
  NoDup links ->
  NoDup r
  /\ forall l, l ∈ r <->
       l ∈ links
       \/ exists e ref, e ∈ elements /\ offers e ref
                        /\ urljoin W base ref = Some l
                        /\ is_valid_url W dom l = Some true.
Proof.
  revert links. induction elements as [|e els IH]; simpl; intros links H Hnd.
  - injection H as <-. split; [done|]. intros l. split; [by left|].
    by intros [?|(e & ref & []%elem_of_nil & _)].
  - destruct (link_attr (tag_name e)) as [attr|] eqn:Hattr.
    + destruct (urljoin W base (tag_get e attr)) as [url|] eqn:Hjoin;
        [|done].
      destruct (is_valid_url W dom url) as [valid|] eqn:Hvalid; [|done].
      destruct (IH _ H) as [Hnd' Hiff].
      { destruct valid; [by apply NoDup_pyset_add|done]. }
      split; [done|]. intros l. rewrite Hiff. split.
      * intros [Hl|(e' & ref & He' & Hrest)].
        -- destruct valid; [|by left].
           apply elem_of_pyset_add in Hl as [->|?]; [|by left].
           right. exists e, (tag_get e attr).
           split; [by left|]. split; [by exists attr|done].
        -- right. exists e', ref. split; [by right|done].
      * intros [Hl|(e' & ref & [->|He']%elem_of_cons & Hoff & Hj & Hv)].
        -- left. destruct valid; [|done]. apply elem_of_pyset_add. by right.
        -- left. destruct Hoff as (attr' & Hattr' & <-).
           rewrite Hattr in Hattr'. injection Hattr' as <-.
           rewrite Hjoin in Hj. injection Hj as <-.
           rewrite Hvalid in Hv. injection Hv as ->.
           apply elem_of_pyset_add. by left.
        -- right. by exists e', ref.
    + destruct (IH _ H Hnd) as [Hnd' Hiff]. split; [done|].
      intros l. rewrite Hiff. split.
      * intros [?|(e' & ref & He' & Hrest)]; [by left|].
        right. exists e', ref. split; [by right|done].
      * intros [?|(e' & ref & [->|He']%elem_of_cons & Hoff & Hrest)];
          [by left| |right; by exists e', ref].
        destruct Hoff as (attr' & Hattr' & _). congruence.
Qed.

Lemma find_links_loop_raises W dom elements base links :
  find_links_loop W dom elements base links = None <->
  exists e ref, e ∈ elements /\ offers e ref
                /\ (urljoin W base ref = None
                    \/ exists url, urljoin W base ref = Some url
                                   /\ is_valid_url W dom url = None).
Proof.
  revert links. induction elements as [|e els IH]; simpl; intros links.
  - split; [done|]. by intros (e & ref & []%elem_of_nil & _).
  - destruct (link_attr (tag_name e)) as [attr|] eqn:Hattr.
    + destruct (urljoin W base (tag_get e attr)) as [url|] eqn:Hjoin.
      * destruct (is_valid_url W dom url) as [valid|] eqn:Hvalid.
        -- rewrite IH. split.
           ++ intros (e' & ref & He' & Hrest). exists e', ref.
              split; [by right|done].
           ++ intros (e' & ref & [->|He']%elem_of_cons & Hoff & Hrest);
                [|by exists e', ref].
              destruct Hoff as (attr' & Hattr' & <-).
              rewrite Hattr in Hattr'. injection Hattr' as <-.
              rewrite Hjoin in Hrest.
              destruct Hrest as [?|(url' & [= <-] & ?)]; congruence.
        -- split; [intros _|done]. exists e, (tag_get e attr).
           split; [by left|]. split; [by exists attr|].
           right. by exists url.
      * split; [intros _|done]. exists e, (tag_get e attr).
        split; [by left|]. split; [by exists attr|by left].
    + rewrite IH. split.
      * intros (e' & ref & He' & Hrest). exists e', ref.
        split; [by right|done].
      * intros (e' & ref & [->|He']%elem_of_cons & Hoff & Hrest);
          [|by exists e', ref].
        destruct Hoff as (attr' & Hattr' & _). congruence.
Qed.

Lemma elem_of_scanned e ref soup :
  e ∈ find_all ["a"; "form"; "frame"; "iframe"; "script"; "link"] soup
  /\ offers e ref
  <-> e ∈ soup /\ offers e ref.
Proof.
  unfold find_all. rewrite list_elem_of_filter. split; [tauto|].
  intros [He Hoff]. split; [|done]. split; [|done].
  destruct Hoff as (attr & Hattr & _).
  assert (is_Some (link_attr (tag_name e))) as Hk by eauto.
  apply link_attr_kinds in Hk. revert Hk.
  rewrite !elem_of_cons, !elem_of_nil. tauto.
Qed.

(** X9. When [find_links] returns, its result has no duplicates and holds
    exactly the URLs that are the resolution of the reference offered by
    some element of a scanned kind and that pass the validator; it raises
    exactly when resolving or validating the reference of some such
    element raises.  Elements of other kinds play no part. *)
Theorem find_links_exact (W : World) (dom : string) (soup : list Tag)
    (base : string) :
  (forall links, find_links W dom soup base = Some links ->
     NoDup links
     /\ forall l, l ∈ links <->
          exists e ref, e ∈ soup /\ offers e ref
                        /\ urljoin W base ref = Some l
                        /\ is_valid_url W dom l = Some true)
  /\ (find_links W dom soup base = None <->
      exists e ref, e ∈ soup /\ offers e ref
                    /\ (urljoin W base ref = None
                        \/ exists url, urljoin W base ref = Some url
                                       /\ is_valid_url W dom url = None)).
Proof.
  unfold find_links. split.
  - intros links H.
    destruct (find_links_loop_exact _ _ _ _ _ _ H (NoDup_nil_2))
      as [Hnd Hiff].
    split; [done|]. intros l. rewrite Hiff. split.
    + intros [[]%elem_of_nil|(e & ref & He & Hoff & Hrest)].
      exists e, ref.
      by destruct (proj1 (elem_of_scanned e ref soup) (conj He Hoff)).
    + intros (e & ref & He & Hoff & Hrest). right. exists e, ref.
      by destruct (proj2 (elem_of_scanned e ref soup) (conj He Hoff)).
  - rewrite find_links_loop_raises. split.
    + intros (e & ref & He & Hoff & Hrest). exists e, ref.
      by destruct (proj1 (elem_of_scanned e ref soup) (conj He Hoff)).
    + intros (e & ref & He & Hoff & Hrest). exists e, ref.
      by destruct (proj2 (elem_of_scanned e ref soup) (conj He Hoff)).
Qed.

Lemma find_links_exact_witness :
  NoDup ["http://x.test/page?action=show"; "http://x.test/page";
         "http://x.test/"].
Proof.
  apply (proj1 (find_links_exact Site.W1 "x.test" (Site.parse "home")
                  Site.seed)).
  vm_compute. reflexivity.
Defined.

(** ** The validator *)

Lemma remove_app p a b :
  Str.remove p (a +:+ b) = Str.remove p a +:+ Str.remove p b.
Proof.
  induction a as [|c a IH]; simpl; [done|].
  destruct (p c); simpl; by rewrite IH.
Qed.

Lemma remove_none p a :
  Str.forallb (fun c => negb (p c)) a = true -> Str.remove p a = a.
Proof.
  induction a as [|c a IH]; simpl; [done|].
  intros [Hc Ha]%andb_prop. apply negb_true_iff in Hc. rewrite Hc.
  by rewrite IH.
Qed.

Lemma before_app_stop p a b :
  Str.forallb (fun c => negb (p c)) a = true ->
  match b with EmptyString => true | String c _ => p c end = true ->
  Str.before p (a +:+ b) = a.
Proof.
  intros Ha Hb. induction a as [|c a IH]; simpl in *.
  - destruct b as [|c b]; [done|]. simpl. by rewrite Hb.
  - apply andb_prop in Ha as [Hc Ha]. apply negb_true_iff in Hc.
    rewrite Hc. by rewrite IH.
Qed.

Lemma forallb_impl (p q : ascii -> bool) s :
  (forall c, p c = true -> q c = true) ->
  Str.forallb p s = true -> Str.forallb q s = true.
Proof.
  intros Hpq. induction s as [|c s IH]; simpl; [done|].
  intros [Hc Hs]%andb_prop. by rewrite (Hpq _ Hc), IH.
Qed.

Lemma contains_none c s :
  Str.forallb (fun a => negb (Str.ceqb a c)) s = true ->
  Str.contains c s = false.
Proof.
  induction s as [|a s IH]; simpl; [done|].
  intros [Ha Hs]%andb_prop. apply negb_true_iff in Ha.
  by rewrite Ha, IH.
Qed.

Lemma host_char_parts c :
  host_char c = true ->
  Urllib.netloc_delim c = false /\ Urllib.unsafe_byte c = false
  /\ Str.ceqb c "[" = false /\ Str.ceqb c "]" = false.
Proof.
  unfold host_char. intros H%negb_true_iff.
  apply orb_false_iff in H as [H H3]. apply orb_false_iff in H as [H H2].
  apply orb_false_iff in H as [H H1]. done.
Qed.

Lemma url_head_plain scheme host rest :
  scheme ∈ ["http"; "https"] ->
  Str.forallb host_char host = true ->
  at_delimiter rest = true ->
  url_head (scheme +:+ "://" +:+ host +:+ rest) = (scheme, host).
Proof.
  intros Hs Hhost Hrest.
  assert (Str.remove Urllib.unsafe_byte (host +:+ rest)
          = host +:+ Str.remove Urllib.unsafe_byte rest) as Hrem.
  { rewrite remove_app, remove_none; [done|].
    eapply forallb_impl; [|exact Hhost].
    intros c Hc. apply host_char_parts in Hc as (_ & -> & _). done. }
  assert (Str.before Urllib.netloc_delim
            (host +:+ Str.remove Urllib.unsafe_byte rest) = host) as Hbef.
  { apply before_app_stop.
    - eapply forallb_impl; [|exact Hhost].
      intros c Hc. apply host_char_parts in Hc as (-> & _). done.
    - destruct rest as [|c rest]; [done|]. simpl in *.
      destruct (Urllib.unsafe_byte c) eqn:Hu; [|done].
      exfalso. revert Hrest Hu. clear.
      unfold Urllib.netloc_delim, Urllib.unsafe_byte.
      intros [[->%StrFacts.ceqb_eq| ->%StrFacts.ceqb_eq]%orb_prop
             | ->%StrFacts.ceqb_eq]%orb_prop; by vm_compute. }
  unfold url_head.
  assert (forall x,
            Str.remove Urllib.unsafe_byte
              (Str.lstrip Urllib.c0_control_or_space (scheme +:+ "://" +:+ x))
            = scheme +:+ "://" +:+ Str.remove Urllib.unsafe_byte x) as ->.
  { intros x. apply elem_of_cons in Hs as [->|Hs];
      [|apply list_elem_of_singleton in Hs as ->]; reflexivity. }
  assert (forall y,
            Urllib.split_scheme (scheme +:+ "://" +:+ y) EmptyString
            = (scheme, "//" +:+ y)) as ->.
  { intros y. apply elem_of_cons in Hs as [->|Hs];
      [|apply list_elem_of_singleton in Hs as ->]; reflexivity. }
  rewrite Hrem.
  change (Urllib.split_netloc ("//" +:+ host +:+
                                Str.remove Urllib.unsafe_byte rest)).1
    with (Str.before Urllib.netloc_delim
            (host +:+ Str.remove Urllib.unsafe_byte rest)).
  by rewrite Hbef.
Qed.

Lemma urlparse_none W url :
  check_netloc W (url_head url).2 = false -> urlparse W url = None.
Proof.
  intros Hc. destruct (urlparse W url) as [p|] eqn:Hp; [|done].
  apply urlparse_some in Hp as (Hh & _ & Hc'). rewrite <- Hh in Hc.
  simpl in Hc. congruence.
Qed.

(** X10. The canonical key of a URL that passes the validator passes the
    validator. *)
Theorem is_valid_url_clean (W : World) (dom url : string) :
  is_valid_url W dom url = Some true ->
  is_valid_url W dom (clean_url url) = Some true.
Proof.
  rewrite !is_valid_url_on_target. apply on_target_clean.
Qed.

Lemma is_valid_url_clean_witness :
  is_valid_url Site.W1 "x.test" (clean_url "http://x.test/page?action=show")
  = Some true.
Proof.
  apply (is_valid_url_clean Site.W1 "x.test"). vm_compute. reflexivity.
Defined.

(** X11. The validator compares hosts exactly: for a URL made of the
    scheme http or https, [://], a plain host and a rest that is empty or
    starts with [/], [?] or [#], it answers whether the host is the target
    domain character for character (letter case and any port included),
    and raises only when the check of the network location does. *)
Theorem is_valid_url_exact_host (W : World) (dom scheme host rest : string) :
  scheme ∈ ["http"; "https"] ->
  Str.forallb host_char host = true ->
  at_delimiter rest = true ->
  is_valid_url W dom (scheme +:+ "://" +:+ host +:+ rest)
  = if check_netloc W host then Some (Str.eqb host dom) else None.
Proof.
  intros Hs Hhost Hrest.
  pose proof (url_head_plain scheme host rest Hs Hhost Hrest) as Hhead.
  unfold is_valid_url.
  destruct (check_netloc W host) eqn:Hc.
  - destruct (urlparse_is_some W (scheme +:+ "://" +:+ host +:+ rest))
      as (p & -> & Hp).
    + rewrite Hhead. simpl. unfold Urllib.bracket_mismatch.
      rewrite !contains_none; [done|..];
        (eapply forallb_impl; [|exact Hhost]);
        intros c Hch; apply host_char_parts in Hch as (_ & _ & H1 & H2);
        by rewrite ?H1, ?H2.
    + by rewrite Hhead.
    + rewrite Hhead in Hp. simpl. injection Hp as -> ->.
      assert (Str.among ["http"; "https"] scheme = true) as ->
        by (by apply StrFacts.among_spec).
      by rewrite andb_true_r.
  - rewrite urlparse_none; [done|]. by rewrite Hhead.
Qed.

Lemma is_valid_url_exact_host_witness :
  is_valid_url Site.W1 "x.test" "https://X.TEST/index.html" = Some false
  /\ is_valid_url Site.W1 "x.test" "http://x.test:80?q" = Some false
  /\ is_valid_url Site.W1 "x.test" "http://x.test#top" = Some true.
Proof.
  split; [|split].
  - apply (is_valid_url_exact_host Site.W1 "x.test" "https" "X.TEST"
             "/index.html"); [set_solver|reflexivity|reflexivity].
  - apply (is_valid_url_exact_host Site.W1 "x.test" "http" "x.test:80"
             "?q"); [set_solver|reflexivity|reflexivity].
  - apply (is_valid_url_exact_host Site.W1 "x.test" "http" "x.test"
             "#top"); [set_solver|reflexivity|reflexivity].
Defined.

(** ** What the backend patterns accept *)

Lemma scan_here icase r prev s m :
  Re.match_here icase r prev s = Some m -> Re.scan icase r prev s = Some m.
Proof. intros H. destruct s; simpl; by rewrite H. Qed.

(** A match at some position makes the search succeed. *)
Lemma scan_later icase r pre s :
  (forall prev, is_Some (Re.match_here icase r prev s)) ->
  forall prev, is_Some (Re.scan icase r prev (pre +:+ s)).
Proof.
  intros H. induction pre as [|c pre IH]; intros prev.
  - change (EmptyString +:+ s) with s.
    destruct (H prev) as [m Hm]. rewrite (scan_here _ _ _ _ _ Hm). by eexists.
  - change (String c pre +:+ s) with (String c (pre +:+ s)). simpl.
    destruct (Re.match_here icase r prev (String c (pre +:+ s))); [by eexists|].
    apply IH.
Qed.

Lemma search_later r pre s :
  (forall prev, is_Some (Re.match_here true r prev s)) ->
  Re.search true r (pre +:+ s) = true.
Proof.
  intros H. unfold Re.search. apply bool_decide_eq_true. by apply scan_later.
Qed.

(** The last character of a text that is a given non-empty word up to
    case. *)
Lemma rmatch_lit {A} word text prev s caps (k : Re.cont (A:=A)) :
  word <> EmptyString -> same_text word text = true ->
  exists c, Re.rmatch true (Re.lit word) prev (text +:+ s) caps k
            = k (Some c) s caps
            /\ exists front, text = front +:+ String c EmptyString.
Proof.
  revert text prev. induction word as [|a word IH]; intros text prev Hne H;
    [done|].
  destruct text as [|c text]; [done|]. simpl in H.
  apply andb_prop in H as [Hc H].
  destruct word as [|b word].
  - destruct text; [|done]. exists c. simpl. rewrite Hc.
    split; [done|]. by exists EmptyString.
  - destruct (IH text (Some c) ltac:(done) H) as (c' & Hk & front & ->).
    exists c'. split; [|by exists (String c front)].
    change (Re.lit (String a (String b word)))
      with (Re.RSeq (Re.RChar a) (Re.lit (String b word))).
    simpl in *. rewrite Hc. exact Hk.
Qed.

Lemma rmatch_alt_l {A} r1 r2 prev s caps (k : Re.cont (A:=A)) :
  is_Some (Re.rmatch true r1 prev s caps k) ->
  is_Some (Re.rmatch true (Re.RAlt r1 r2) prev s caps k).
Proof. intros [x Hx]. simpl. rewrite Hx. by eexists. Qed.

Lemma rmatch_alt_r {A} r1 r2 prev s caps (k : Re.cont (A:=A)) :
  is_Some (Re.rmatch true r2 prev s caps k) ->
  is_Some (Re.rmatch true (Re.RAlt r1 r2) prev s caps k).
Proof.
  intros H. simpl. destruct (Re.rmatch true r1 prev s caps k); [by eexists|].
  done.
Qed.

(** One of several words, up to case, followed by something the
    continuation accepts. *)
Lemma rmatch_alts_lit {A} words word text prev s caps (k : Re.cont (A:=A)) :
  word ∈ words -> word <> EmptyString -> same_text word text = true ->
  (forall c front, text = front +:+ String c EmptyString ->
                   is_Some (k (Some c) s caps)) ->
  is_Some (Re.rmatch true (Re.alts (Re.lit <$> words)) prev (text +:+ s)
             caps k).
Proof.
  intros Hin Hne Hsame Hk.
  assert (is_Some (Re.rmatch true (Re.lit word) prev (text +:+ s) caps k))
    as Hword.
  { destruct (rmatch_lit word text prev s caps k Hne Hsame)
      as (c & -> & front & Hfront). by eapply Hk. }
  induction words as [|w words IH]; [by apply elem_of_nil in Hin|].
  destruct words as [|w' words].
  - apply list_elem_of_singleton in Hin as ->. exact Hword.
  - change (Re.alts (Re.lit <$> w :: w' :: words))
      with (Re.RAlt (Re.lit w) (Re.alts (Re.lit <$> w' :: words))).
    apply elem_of_cons in Hin as [->|Hin].
    + by apply rmatch_alt_l.
    + by apply rmatch_alt_r, IH.
Qed.

Lemma same_text_word word text :
  Str.forallb Str.is_lower word = true -> same_text word text = true ->
  Str.forallb Re.is_word text = true.
Proof.
  revert text. induction word as [|a word IH]; intros [|c text]; simpl;
    try done.
  intros [Ha Hw]%andb_prop [Hc Hs]%andb_prop. rewrite (IH _ Hw Hs), andb_true_r.
  unfold Re.is_word, Str.is_alpha.
  destruct (Str.is_upper c) eqn:Hup; [done|].
  apply StrFacts.ceqb_eq in Hc. unfold Str.lower in Hc. rewrite Hup in Hc.
  assert (Str.is_upper a = false) as Hna.
  { revert Ha. unfold Str.is_lower, Str.is_upper, Str.in_range.
    change (Str.code "a") with 97%N. change (Str.code "z") with 122%N.
    change (Str.code "A") with 65%N. change (Str.code "Z") with 90%N.
    intros [H1%N.leb_le H2%N.leb_le]%andb_prop.
    apply andb_false_iff. right. apply N.leb_gt. lia. }
  rewrite Hna in Hc. subst c. by rewrite Ha.
Qed.

Lemma forallb_snoc p front c :
  Str.forallb p (front +:+ String c EmptyString) = true -> p c = true.
Proof.
  induction front as [|a front IH]; simpl.
  - by intros [? _]%andb_prop.
  - by intros [_ ?%IH]%andb_prop.
Qed.

Lemma classify_backend_search p url :
  p ∈ Patterns.backend_patterns -> Re.search true p url = true ->
  classify_endpoint url = Backend.
Proof.
  intros Hp Hs. unfold classify_endpoint.
  assert (any_search Patterns.backend_patterns url = true) as ->; [|done].
  apply any_search_true. by exists p.
Qed.

(** ** Canonical keys, again *)

Lemma before_from p s : s = Str.before p s +:+ Str.from p s.
Proof.
  induction s as [|a s IH]; simpl; [done|].
  destruct (p a); [done|].
  change (String a s = String a (Str.before p s +:+ Str.from p s)).
  f_equal. exact IH.
Qed.

Lemma from_head p s :
  match Str.from p s with EmptyString => true | String c _ => p c end = true.
Proof.
  induction s as [|a s IH]; simpl; [done|].
  by destruct (p a) eqn:Ha; simpl; [rewrite Ha|].
Qed.

Lemma contains_before_false c p s :
  p c = true -> Str.contains c (Str.before p s) = false.
Proof.
  intros Hc. induction s as [|a s IH]; simpl; [done|].
  destruct (p a) eqn:Ha; simpl; [done|]. rewrite IH, orb_false_r.
  unfold Str.ceqb. apply bool_decide_eq_false. intros ->. congruence.
Qed.

Lemma before_fixed p s :
  Str.before p s = s <-> Str.forallb (fun c => negb (p c)) s = true.
Proof.
  split; [|apply StrFacts.before_none].
  intros H. rewrite <- H. apply StrFacts.before_clear.
Qed.

(** X13. The canonical key of a URL is the part of the URL before its
    first [?] or [#]: the URL is the key followed by a rest that is empty
    or starts with [?] or [#]; the key contains neither character; and the
    key is the URL itself exactly when the URL contains neither. *)
Theorem clean_url_is_prefix (u : string) :
  (exists rest, u = clean_url u +:+ rest
                /\ match rest with
                   | EmptyString => true
                   | String c _ => query_or_fragment c
                   end = true)
  /\ Str.contains "?" (clean_url u) = false
  /\ Str.contains "#" (clean_url u) = false
  /\ (clean_url u = u <->
      Str.forallb (fun c => negb (query_or_fragment c)) u = true).
Proof.
  rewrite clean_url_before. split; [|split; [|split]].
  - exists (Str.from query_or_fragment u).
    split; [apply before_from|apply from_head].
  - by apply contains_before_false.
  - by apply contains_before_false.
  - apply before_fixed.
Qed.

(** ** The report *)

Lemma compare_not_gt_trans s1 s2 s3 :
  String.compare s1 s2 <> Gt -> String.compare s2 s3 <> Gt ->
  String.compare s1 s3 <> Gt.
Proof.
  revert s2 s3. induction s1 as [|a s1 IH]; intros [|b s2] [|c s3]; simpl;
    try done.
  unfold Ascii.compare.
  destruct (N.compare_spec (N_of_ascii a) (N_of_ascii b)) as [Eab|Lab|Gab];
    destruct (N.compare_spec (N_of_ascii b) (N_of_ascii c)) as [Ebc|Lbc|Gbc];
    destruct (N.compare_spec (N_of_ascii a) (N_of_ascii c)) as [Eac|Lac|Gac];
    try done; try lia.
  apply IH.
Qed.

Lemma str_le_compare a b : str_le a b <-> String.compare a b <> Gt.
Proof. unfold str_le, String.leb. by destruct (String.compare a b). Qed.

Global Instance str_le_total : Total str_le.
Proof. intros a b. apply String.leb_total. Qed.

Global Instance str_le_trans : Transitive str_le.
Proof.
  intros a b c. rewrite !str_le_compare. apply compare_not_gt_trans.
Qed.

Lemma py_sorted_spec (s : gset string) :
  StronglySorted str_le (py_sorted s) /\ NoDup (py_sorted s)
  /\ (forall x, x ∈ py_sorted s <-> x ∈ s)
  /\ length (py_sorted s) = size s.
Proof.
  unfold py_sorted.
  pose proof (merge_sort_Permutation str_le (elements s)) as Hperm.
  split; [apply StronglySorted_merge_sort; apply _|].
  split; [rewrite Hperm; apply NoDup_elements|].
  split; [intros x; by rewrite Hperm, elem_of_elements|].
  by rewrite Hperm.
Qed.

(** X14. The report lists the pages, the backend endpoints and the
    function names in ascending order (by code point), each member of the
    corresponding container exactly once and nothing else; each total in
    the statistics is the length of its list; the target and the maximum
    depth are those of the crawler. *)
Theorem generate_report_lists (st : crawler) :
  let r := generate_report st in
  (StronglySorted str_le (report_html_pages r)
   /\ NoDup (report_html_pages r)
   /\ (forall x, x ∈ report_html_pages r <-> x ∈ html_pages st)
   /\ total_html (report_stats r) = length (report_html_pages r))
  /\ (StronglySorted str_le (report_backend_endpoints r)
      /\ NoDup (report_backend_endpoints r)
      /\ (forall x, x ∈ report_backend_endpoints r
                    <-> x ∈ backend_endpoints st)
      /\ total_backend (report_stats r)
         = length (report_backend_endpoints r))
  /\ (StronglySorted str_le (report_functions r)
      /\ NoDup (report_functions r)
      /\ (forall x, x ∈ report_functions r <-> x ∈ functions st)
      /\ total_functions (report_stats r) = length (report_functions r))
  /\ report_target r = base_url st
  /\ stats_max_depth (report_stats r) = max_depth st.
Proof.
  unfold generate_report.
  cbn [report_target report_html_pages report_backend_endpoints
       report_functions report_stats total_html total_backend
       total_functions stats_max_depth].
  destruct (py_sorted_spec (html_pages st)) as (? & ? & ? & ?).
  destruct (py_sorted_spec (backend_endpoints st)) as (? & ? & ? & ?).
  destruct (py_sorted_spec (functions st)) as (? & ? & ? & ?).
  split; [|split; [|split; [|split]]]; try reflexivity.
  - split; [|split; [|split]]; try assumption. by symmetry.
  - split; [|split; [|split]]; try assumption. by symmetry.
  - split; [|split; [|split]]; try assumption. by symmetry.
Qed.

(** ** Script analysis and endpoint processing as operations *)

(** X15. What a call of [analyze_js] does to the crawler, whether or not
    it fails: it leaves the frontier, the visited set, the counters and the
    function names alone and removes nothing from the two endpoint
    containers; every key it adds to them is the canonical key of a URL on
    the target (host equal to the domain, scheme http or https); and the
    names it returns are pairwise distinct. *)
Theorem analyze_js_effect (W : World) (url : string) (st : crawler) :
  let fns := (analyze_js W url st).1 in
  let st' := (analyze_js W url st).2 in
  same_control st st'
  /\ functions st' = functions st
  /\ NoDup fns
  /\ html_pages st ⊆ html_pages st'
  /\ backend_endpoints st ⊆ backend_endpoints st'
  /\ (forall x, x ∈ html_pages st' ->
                x ∈ html_pages st \/ on_target W (domain st) x)
  /\ (forall x, x ∈ backend_endpoints st' ->
                x ∈ backend_endpoints st \/ on_target W (domain st) x).
Proof.
  rewrite analyze_js_trace.
  cbn [fst snd].
  split; [apply process_all_control|].
  split; [apply process_all_functions|].
  split; [apply js_trace_NoDup|].
  rewrite process_all_html, process_all_backend.
  split; [set_solver|]. split; [set_solver|]. split.
  - intros x [Hx|Hx]%elem_of_union; [by left|right].
    apply elem_of_html_keys in Hx as (u & Hu & _ & <-).
    by apply on_target_clean, (js_trace_valid W _ url).
  - intros x [Hx|Hx]%elem_of_union; [by left|right].
    apply elem_of_backend_keys in Hx as (u & Hu & _ & <-).
    by apply on_target_clean, (js_trace_valid W _ url).
Qed.

Lemma process_endpoint_unknown u st :
  classify_endpoint u = Unknown -> process_endpoint u st = st.
Proof.
  intros Hu. unfold process_endpoint. rewrite Hu.
  rewrite !bool_decide_eq_false_2 by done. done.
Qed.

Lemma process_endpoint_known u st :
  (classify_endpoint u = Html -> clean_url u ∈ html_pages st) ->
  (classify_endpoint u = Backend -> clean_url u ∈ backend_endpoints st) ->
  process_endpoint u st = st.
Proof.
  intros Hh Hb. unfold process_endpoint.
  destruct (classify_endpoint u) eqn:Hu.
  - rewrite (bool_decide_eq_false_2 (Backend = Html)) by done.
    rewrite (bool_decide_eq_true_2 (clean_url u ∈ backend_endpoints st))
      by auto.
    by rewrite andb_false_r.
  - rewrite (bool_decide_eq_true_2 (clean_url u ∈ html_pages st)) by auto.
    rewrite (bool_decide_eq_false_2 (Html = Backend)) by done.
    by rewrite andb_false_r.
  - rewrite !bool_decide_eq_false_2 by done. done.
Qed.

(** X16. How calls of [process_endpoint] compose.  Processing a URL a
    second time changes nothing, not even the output, and neither does
    processing any URL with the same canonical key and the same class; a
    URL of class unknown changes nothing at all; and the contents of the
    containers after two calls do not depend on the order of the calls
    (only the order of the two notifications does). *)
Theorem process_endpoint_compose (u v : string) (st : crawler) :
  process_endpoint u (process_endpoint u st) = process_endpoint u st
  /\ (clean_url v = clean_url u ->
      classify_endpoint v = classify_endpoint u ->
      process_endpoint v (process_endpoint u st) = process_endpoint u st)
  /\ (classify_endpoint u = Unknown -> process_endpoint u st = st)
  /\ same_control st (process_endpoint v (process_endpoint u st))
  /\ html_pages (process_endpoint v (process_endpoint u st))
     = html_pages (process_endpoint u (process_endpoint v st))
  /\ backend_endpoints (process_endpoint v (process_endpoint u st))
     = backend_endpoints (process_endpoint u (process_endpoint v st))
  /\ functions (process_endpoint v (process_endpoint u st)) = functions st.
Proof.
  assert (forall w, clean_url w = clean_url u ->
            classify_endpoint w = classify_endpoint u ->
            process_endpoint w (process_endpoint u st)
            = process_endpoint u st) as Hsame.
  { intros w Hc Hk. apply process_endpoint_known; rewrite Hc, Hk; intros Hu.
    - rewrite process_endpoint_html. apply elem_of_union_r.
      apply elem_of_html_keys. exists u. by rewrite list_elem_of_singleton.
    - rewrite process_endpoint_backend. apply elem_of_union_r.
      apply elem_of_backend_keys. exists u. by rewrite list_elem_of_singleton. }
  split; [by apply Hsame|]. split; [exact (Hsame v)|].
  split; [apply process_endpoint_unknown|].
  split.
  { eapply same_control_trans; apply process_endpoint_control. }
  rewrite !process_endpoint_html, !process_endpoint_backend,
    !process_endpoint_functions.
  split; [set_solver|]. split; [set_solver|done].
Qed.

Lemma process_endpoint_compose_witness :
  process_endpoint "http://x.test/page?b=2"
    (process_endpoint "http://x.test/page?a=1" Site.start)
  = process_endpoint "http://x.test/page?a=1" Site.start
  /\ process_endpoint "http://x.test/image.png" Site.start = Site.start.
Proof.
  destruct (process_endpoint_compose "http://x.test/page?a=1"
              "http://x.test/page?b=2" Site.start) as (_ & H2 & _).
  destruct (process_endpoint_compose "http://x.test/image.png" ""
              Site.start) as (_ & _ & H3 & _).
  split; [apply H2|apply H3]; vm_compute; reflexivity.
Defined.

(** ** The command line *)

Lemma crawl_step_config W st st' :
  crawl_step W st = Some st' ->
  base_url st' = base_url st /\ domain st' = domain st
  /\ max_depth st' = max_depth st.
Proof.
  intros (url & d & q & _ & _ & [[_ ->]|Hproc])%crawl_step_effect; [done|].
  destruct Hproc as (_ & _ & ? & ? & ? & _). done.
Qed.

Lemma reachable_config W c0 st :
  reachable W c0 st ->
  base_url st = base_url c0 /\ domain st = domain c0
  /\ max_depth st = max_depth c0.
Proof.
  intros Hr.
  apply (reachable_invariant W
           (fun s => base_url s = base_url c0 /\ domain s = domain c0
                     /\ max_depth s = max_depth c0) c0 st); [done| |exact Hr].
  intros s s' (H1 & H2 & H3) (? & ? & ?)%crawl_step_config.
  split; [congruence|]. split; congruence.
Qed.

(** X17. A negative maximum depth, which [main] announces as "unlimited",
    makes the crawl do nothing: the loop discards the seed in its first
    iteration and ends, so no URL is ever requested or visited and every
    container and the output stay empty in every state of the run. *)
Theorem negative_depth_crawls_nothing (W : World) (base : string) (maxd : Z)
    (c0 : crawler) :
  maxd < 0 -> init W base maxd = Some c0 ->
  announced_depth maxd = None
  /\ (forall fuel, (1 <= fuel)%nat ->
        crawl W fuel c0 = Some (set_stop_event true (set_queue [] c0)))
  /\ (forall st, reachable W c0 st ->
        processed st = [] /\ visited_urls st = ∅ /\ html_pages st = ∅
        /\ backend_endpoints st = ∅ /\ functions st = ∅ /\ printed st = []).
Proof.
  intros Hd Hinit.
  assert (crawl_step W c0 = Some (set_queue [] c0)
          /\ crawl_step W (set_queue [] c0) = None) as [Hs1 Hs2].
  { unfold init in Hinit. destruct (urlparse W base) as [p|]; [|done].
    simpl in Hinit. injection Hinit as <-.
    unfold crawl_step. cbn.
    assert ((0 >? maxd) = true) as -> by (apply Z.gtb_lt; lia).
    by rewrite orb_true_r. }
  split; [|split].
  - unfold announced_depth.
    assert ((maxd >? 0) = false) as ->; [|done].
    rewrite Z.gtb_ltb. apply Z.ltb_ge. lia.
  - intros [|fuel] Hf; [lia|].
    unfold crawl. cbn [crawl_loop]. rewrite Hs1.
    destruct fuel; cbn [crawl_loop]; by rewrite Hs2.
  - intros st Hr.
    assert (st = c0 \/ st = set_queue [] c0) as Hst.
    { apply (reachable_invariant W
               (fun s => s = c0 \/ s = set_queue [] c0) c0 st);
        [by left| |exact Hr].
      intros s s' [->| ->] Hs; [right; congruence|congruence]. }
    apply init_fields in Hinit
      as (_ & _ & Hv & _ & Hh & Hb & Hf & _ & Hp & Hpr & _).
    by destruct Hst as [->| ->].
Qed.

Lemma negative_depth_crawls_nothing_witness :
  let c0 := mkCrawler Site.seed "x.test" (-1) ∅ [(Site.seed, 0)] ∅ ∅ ∅ false
              (mkProgress 0 1 0) [] [] in
  -1 < 0 /\ init Site.W1 Site.seed (-1) = Some c0
  /\ announced_depth (-1) = None
  /\ crawl Site.W1 1 c0 = Some (set_stop_event true (set_queue [] c0)).
Proof.
  intros c0.
  assert (-1 < 0) as Hd by lia.
  assert (init Site.W1 Site.seed (-1) = Some c0) as Hinit
    by (vm_compute; reflexivity).
  split; [exact Hd|]. split; [exact Hinit|].
  destruct (negative_depth_crawls_nothing Site.W1 Site.seed (-1) c0 Hd Hinit)
    as (Ha & Hc & _).
  split; [exact Ha|]. apply Hc. lia.
Defined.

Lemma url_head_http x :
  url_head ("http://" +:+ x)
  = ("http", Str.before Urllib.netloc_delim (Str.remove Urllib.unsafe_byte x)).
Proof. reflexivity. Qed.

Lemma is_empty_spec s : Str.is_empty s = true <-> s = EmptyString.
Proof. by destruct s. Qed.

(** X18. The target [main] hands to the crawler, for an input in ASCII.
    Whenever it can be
    built, the crawler finds a scheme in it.  An input in which [urlparse]
    finds no scheme gets [http://] in front, and the crawler then takes
    the scheme http and, as its domain, the input up to its first [/], [?]
    or [#].  An input in which [urlparse] does find a scheme is only
    stripped of surrounding whitespace: this includes inputs of the form
    host:port, where the host is read as the scheme. *)
Theorem normalize_target_scheme (W : World) (url t : string) :
  ascii_text url = true ->
  normalize_target W url = Some t ->
  let s := Str.strip Re.is_space url in
  (forall p, urlparse W t = Some p -> Urllib.scheme p <> EmptyString)
  /\ (forall p0, urlparse W s = Some p0 ->
        Urllib.scheme p0 <> EmptyString -> t = s)
  /\ (forall p0, urlparse W s = Some p0 ->
        Urllib.scheme p0 = EmptyString ->
        t = "http://" +:+ s
        /\ forall d c, init W t d = Some c ->
             domain c = Str.before Urllib.netloc_delim
                          (Str.remove Urllib.unsafe_byte s)
             /\ exists p, urlparse W t = Some p
                          /\ Urllib.scheme p = "http").
Proof.
  intros _ Hn s. unfold normalize_target in Hn. fold s in Hn.
  destruct (urlparse W s) as [p0|] eqn:Hp0; [|done].
  injection Hn as <-.
  assert (forall p, urlparse W ("http://" +:+ s) = Some p ->
            Urllib.scheme p = "http"
            /\ Urllib.netloc p = Str.before Urllib.netloc_delim
                                   (Str.remove Urllib.unsafe_byte s)) as Hhttp.
  { intros p (Hh & _)%urlparse_some. rewrite url_head_http in Hh.
    by injection Hh as -> ->. }
  split; [|split].
  - intros p Hp. destruct (Str.is_empty (Urllib.scheme p0)) eqn:He.
    + apply Hhttp in Hp as [-> _]. done.
    + rewrite Hp0 in Hp. injection Hp as <-.
      intros Hs%is_empty_spec. congruence.
  - intros ? [= <-] Hs.
    destruct (Str.is_empty (Urllib.scheme p0)) eqn:He; [|done].
    by apply is_empty_spec in He.
  - intros ? [= <-] Hs. rewrite Hs. cbn [Str.is_empty]. split; [done|].
    intros d c Hinit.
    apply init_fields in Hinit as (_ & _ & _ & _ & _ & _ & _ & _ & _ & _
                                   & p & Hp & ->).
    destruct (Hhttp p Hp) as [Hsch Hnet]. split; [done|]. by exists p.
Qed.

Lemma normalize_target_scheme_witness :
  normalize_target Site.W1 "  x.test/a  " = Some "http://x.test/a"
  /\ (forall c, init Site.W1 "http://x.test/a" 3 = Some c ->
                domain c = "x.test")
  /\ normalize_target Site.W1 "x.test:8080/a" = Some "x.test:8080/a".
Proof.
  assert (normalize_target Site.W1 "  x.test/a  " = Some "http://x.test/a")
    as H1 by (vm_compute; reflexivity).
  assert (normalize_target Site.W1 "x.test:8080/a" = Some "x.test:8080/a")
    as H2 by (vm_compute; reflexivity).
  split; [exact H1|]. split; [|exact H2].
  intros c Hc.
  destruct (normalize_target_scheme Site.W1 "  x.test/a  " "http://x.test/a"
              eq_refl H1) as (_ & _ & H3).
  destruct (H3 (Urllib.mkParse "" "" "x.test/a" "" "" "")) as [_ H4];
    [vm_compute; reflexivity|reflexivity|].
  by destruct (H4 3 c Hc) as [-> _].
Defined.

Lemma contains_app c a b :
  Str.contains c (a +:+ b) = Str.contains c a || Str.contains c b.
Proof.
  induction a as [|x a IH]; [done|].
  change (String x a +:+ b) with (String x (a +:+ b)).
  cbn [Str.contains]. by rewrite IH, orb_assoc.
Qed.

Lemma contains_replace_char a b s :
  a <> b -> Str.contains a (replace_char a b s) = false.
Proof.
  intros Hab. unfold replace_char.
  induction s as [|x s IH]; [done|].
  cbn [Str.map Str.contains]. rewrite IH, orb_false_r.
  unfold Str.ceqb. destruct (bool_decide (x = a)) eqn:Hx.
  - apply bool_decide_eq_false. congruence.
  - apply bool_decide_eq_false. by apply bool_decide_eq_false in Hx.
Qed.

(** X19. [main] as a whole, for an input in ASCII.  When [urlparse] rejects the normalised target
    (the constructor of the crawler then raises), [main] produces no
    report.  Otherwise it always produces one: the crawl ends, the report
    is that of the state the loop ends in, its target is the normalised
    target and its maximum depth the depth given on the command line, and
    the name of the report file is the host of the target with every
    colon replaced, so it contains no colon. *)
Theorem main_report (W : World) (url t : string) (d : Z) :
  ascii_text url = true ->
  normalize_target W url = Some t ->
  (urlparse W t = None -> forall fuel, main W url d fuel = None)
  /\ (forall p, urlparse W t = Some p ->
        exists c st filename,
          init W t d = Some c /\ reachable W c st
          /\ crawl_step W st = None
          /\ (forall fuel, (queue_weight W c <= fuel)%nat ->
                main W url d fuel
                = Some (filename, generate_report (set_stop_event true st)))
          /\ filename
             = replace_char ":" "_" (Urllib.netloc p) +:+ "_security_scan.json"
          /\ Str.contains ":" filename = false
          /\ report_target (generate_report (set_stop_event true st)) = t
          /\ stats_max_depth
               (report_stats (generate_report (set_stop_event true st))) = d).
Proof.
  intros _ Hn. split.
  - intros Hp fuel. unfold main, init. by rewrite Hn, Hp.
  - intros p Hp.
    assert (exists c, init W t d = Some c) as [c Hc].
    { unfold init. rewrite Hp. by eexists. }
    destruct (crawl_loop_terminates W (queue_weight W c) c ltac:(lia))
      as [st Hst].
    pose proof (crawl_loop_reachable _ _ _ _ Hst) as Hr.
    exists c, st, (replace_char ":" "_" (Urllib.netloc p)
                   +:+ "_security_scan.json").
    split; [done|]. split; [done|].
    split; [by eapply crawl_loop_exit|].
    split; [|split; [done|split; [|split]]].
    + intros fuel Hf. unfold main, crawl, report_filename.
      rewrite Hn, Hc, (crawl_loop_fuel_mono _ _ _ _ _ Hst Hf), Hp. done.
    + rewrite contains_app, contains_replace_char by done. done.
    + apply reachable_config in Hr as (Hb & _).
      apply init_fields in Hc as (Hc & _).
      change (base_url st = t). congruence.
    + apply reachable_config in Hr as (_ & _ & Hm).
      apply init_fields in Hc as (_ & Hc & _).
      change (max_depth st = d). congruence.
Qed.

Lemma main_report_witness :
  (forall fuel, main Site.W1 "[x" 3 fuel = None)
  /\ exists st,
       main Site.W1 " x.test/ " 3 13
       = Some ("x.test_security_scan.json",
               generate_report (set_stop_event true st)).
Proof.
  split.
  - apply (main_report Site.W1 "[x" "http://[x" 3); vm_compute; reflexivity.
  - destruct (main_report Site.W1 " x.test/ " "http://x.test/" 3
                eq_refl ltac:(vm_compute; reflexivity)) as [_ H].
    destruct (H (Urllib.mkParse "http" "x.test" "/" "" "" "")
                ltac:(vm_compute; reflexivity))
      as (c & st & filename & Hc & _ & _ & Hm & -> & _).
    exists st. apply Hm.
    assert (c = Site.start) as ->
      by (apply (inj Some); rewrite <- Hc; vm_compute; reflexivity).
    apply Nat.leb_le. vm_compute. reflexivity.
Defined.

(** ** The matcher and what a pattern matches *)

Lemma rmatch_sound {A : Type} icase r :
  forall prev s caps (k : Re.cont) (x : A),
    Re.rmatch icase r prev s caps k = Some x ->
    exists p' s' c',
      re_matches icase r prev s caps p' s' c' /\ k p' s' c' = Some x.
Proof.
  induction r as [|a|negated items|r1 IH1 r2 IH2|r1 IH1 r2 IH2|r1 IH1
                  |n r1 IH1| |]; intros prev s caps k x H; cbn [Re.rmatch] in H.
  - eexists _, _, _. split; [constructor|done].
  - destruct s as [|c s']; [done|].
    destruct (Re.char_match icase a c) eqn:Hc; [|done].
    eexists _, _, _. split; [by constructor|done].
  - destruct s as [|c s']; [done|].
    destruct (Re.set_match icase negated items c) eqn:Hc; [|done].
    eexists _, _, _. split; [by constructor|done].
  - apply IH1 in H as (p1 & s1 & c1 & H1 & H).
    apply IH2 in H as (p2 & s2 & c2 & H2 & H).
    eexists _, _, _. split; [by eapply matches_seq|done].
  - destruct (Re.rmatch icase r1 prev s caps k) as [y|] eqn:Hl.
    + injection H as ->. apply IH1 in Hl as (p1 & s1 & c1 & H1 & H).
      eexists _, _, _. split; [by apply matches_alt_l|done].
    + apply IH2 in H as (p1 & s1 & c1 & H1 & H).
      eexists _, _, _. split; [by apply matches_alt_r|done].
  - revert H. generalize (String.length s) at 1. intros fuel.
    revert prev s caps. induction fuel as [|fuel IHf]; intros prev s caps H.
    + apply IH1 in H as (p1 & s1 & c1 & H1 & H).
      eexists _, _, _. split; [by apply matches_plus_one|done].
    + apply IH1 in H as (p1 & s1 & c1 & H1 & H).
      destruct (String.length s1 <? String.length s)%nat.
      * match type of H with
        | match ?t with _ => _ end = _ => destruct t as [y|] eqn:Hl
        end.
        -- injection H as ->. apply IHf in Hl as (p2 & s2 & c2 & H2 & H).
           eexists _, _, _. split; [by eapply matches_plus_more|done].
        -- eexists _, _, _. split; [by apply matches_plus_one|done].
      * eexists _, _, _. split; [by apply matches_plus_one|done].
  - apply IH1 in H as (p1 & s1 & c1 & H1 & H).
    eexists _, _, _. split; [by apply matches_group|done].
  - destruct (xorb _ _) eqn:Hx; [|done].
    eexists _, _, _. split; [by constructor|done].
  - destruct (Re.at_end s) eqn:He; [|done].
    eexists _, _, _. split; [by constructor|done].
Qed.
Lemma append_assoc (a b c : string) : (a +:+ b) +:+ c = a +:+ b +:+ c.
Proof.
  induction a as [|x a IH]; [done|].
  change (String x ((a +:+ b) +:+ c) = String x (a +:+ b +:+ c)).
  by rewrite IH.
Qed.

Lemma append_nil_r (a : string) : a +:+ EmptyString = a.
Proof.
  induction a as [|x a IH]; [done|].
  change (String x (a +:+ EmptyString) = String x a). by rewrite IH.
Qed.

Lemma length_append (a b : string) :
  String.length (a +:+ b) = (String.length a + String.length b)%nat.
Proof.
  induction a as [|x a IH]; [done|].
  change (S (String.length (a +:+ b))
          = S (String.length a + String.length b)).
  by rewrite IH.
Qed.

Lemma last_char_app prev a b :
  last_char prev (a +:+ b) = last_char (last_char prev a) b.
Proof. revert prev. induction a as [|x a IH]; intros prev; [done|]. apply IH. Qed.

Lemma forallb_app p a b :
  Str.forallb p (a +:+ b) = Str.forallb p a && Str.forallb p b.
Proof.
  induction a as [|x a IH]; [done|].
  change (p x && Str.forallb p (a +:+ b)
          = p x && Str.forallb p a && Str.forallb p b).
  by rewrite IH, andb_assoc.
Qed.

Lemma consumed_app mid s' : Re.consumed (mid +:+ s') s' = mid.
Proof.
  unfold Re.consumed. rewrite length_append.
  replace (String.length mid + String.length s' - String.length s')%nat
    with (String.length mid) by lia.
  induction mid as [|x mid IH].
  - by destruct s'.
  - change (String x (Str.take (String.length mid) (mid +:+ s'))
            = String x mid).
    by rewrite IH.
Qed.

(** A match reads a prefix of the text. *)
Lemma re_matches_prefix icase r prev s caps p' s' c' :
  re_matches icase r prev s caps p' s' c' ->
  exists mid, s = mid +:+ s' /\ p' = last_char prev mid.
Proof.
  induction 1 as [prev s caps|a c s prev caps Hc|negated items c s prev caps Hc
                  |r1 r2 prev s caps p1 s1 c1 p2 s2 c2 _ IH1 _ IH2
                  |r1 r2 prev s caps p1 s1 c1 _ IH
                  |r1 r2 prev s caps p1 s1 c1 _ IH
                  |r prev s caps p1 s1 c1 _ IH
                  |r prev s caps p1 s1 c1 p2 s2 c2 _ IH1 _ IH2
                  |n r prev s caps p1 s1 c1 _ IH
                  |prev s caps Hx|prev s caps He];
    try (by exists EmptyString); try done.
  - by exists (String c EmptyString).
  - by exists (String c EmptyString).
  - destruct IH1 as (m1 & -> & ->), IH2 as (m2 & -> & ->).
    exists (m1 +:+ m2). by rewrite append_assoc, last_char_app.
  - destruct IH1 as (m1 & -> & ->), IH2 as (m2 & -> & ->).
    exists (m1 +:+ m2). by rewrite append_assoc, last_char_app.
Qed.

Lemma scan_sound icase r : forall s prev p s' caps,
  Re.scan icase r prev s = Some (p, s', caps) ->
  exists pre rest,
    s = pre +:+ rest
    /\ re_matches icase r (last_char prev pre) rest [] p s' caps.
Proof.
  induction s as [|c s IH]; intros prev p s' caps H; cbn [Re.scan] in H.
  - destruct (Re.match_here icase r prev "") as [m|] eqn:Hm; [|done].
    injection H as ->. apply rmatch_sound in Hm as (p1 & s1 & c1 & Hm & [= <- <- <-]).
    by exists EmptyString, EmptyString.
  - destruct (Re.match_here icase r prev (String c s)) as [m|] eqn:Hm.
    + injection H as ->.
      apply rmatch_sound in Hm as (p1 & s1 & c1 & Hm & [= <- <- <-]).
      by exists EmptyString, (String c s).
    + apply IH in H as (pre & rest & -> & H).
      by exists (String c pre), rest.
Qed.

Lemma findall_aux_sound icase r c : forall fuel prev s,
  c ∈ Re.findall_aux fuel icase r prev s ->
  exists pre rest p s',
    s = pre +:+ rest
    /\ re_matches icase r (last_char prev pre) rest [] p s' c.
Proof.
  induction fuel as [|fuel IH]; intros prev s H; cbn [Re.findall_aux] in H.
  { by apply elem_of_nil in H. }
  destruct (Re.scan icase r prev s) as [[[p s'] c0]|] eqn:Hs;
    [|by apply elem_of_nil in H].
  apply scan_sound in Hs as (pre & rest & -> & Hm).
  apply elem_of_cons in H as [->|H]; [by exists pre, rest, p, s'|].
  destruct (re_matches_prefix _ _ _ _ _ _ _ _ Hm) as (mid & -> & ->).
  destruct (String.length s' <? String.length (pre +:+ mid +:+ s'))%nat.
  - apply IH in H as (pre2 & rest2 & p2 & s2 & -> & H).
    exists (pre +:+ mid +:+ pre2), rest2, p2, s2.
    split; [by rewrite !append_assoc|].
    by rewrite <- !append_assoc, !last_char_app in *.
  - destruct s' as [|a s'']; [by apply elem_of_nil in H|].
    apply IH in H as (pre2 & rest2 & p2 & s2 & -> & H).
    exists (pre +:+ mid +:+ String a pre2), rest2, p2, s2.
    split; [by rewrite !append_assoc|].
    change (String a pre2) with (String a EmptyString +:+ pre2).
    by rewrite <- !append_assoc, !last_char_app in *.
Qed.

Lemma findall_sound icase r content c :
  c ∈ Re.findall icase r content ->
  exists pre rest p s',
    content = pre +:+ rest
    /\ re_matches icase r (last_char None pre) rest [] p s' c.
Proof. apply findall_aux_sound. Qed.
Lemma matches_seq_inv icase r1 r2 prev s caps p s' c :
  re_matches icase (Re.RSeq r1 r2) prev s caps p s' c ->
  exists p1 s1 c1,
    re_matches icase r1 prev s caps p1 s1 c1
    /\ re_matches icase r2 p1 s1 c1 p s' c.
Proof. inversion 1; subst; eauto. Qed.

Lemma matches_group_inv icase n r prev s caps p s' c :
  re_matches icase (Re.RGroup n r) prev s caps p s' c ->
  exists c1, c = (n, Re.consumed s s') :: c1
             /\ re_matches icase r prev s caps p s' c1.
Proof. inversion 1; subst; eauto. Qed.

Lemma matches_wordb_inv icase prev s caps p s' c :
  re_matches icase Re.RWordB prev s caps p s' c ->
  p = prev /\ s' = s /\ c = caps
  /\ xorb (Re.word_opt prev) (Re.word_opt (Re.peek s)) = true.
Proof. inversion 1; subst; eauto. Qed.

Lemma matches_end_inv icase prev s caps p s' c :
  re_matches icase Re.REnd prev s caps p s' c ->
  p = prev /\ s' = s /\ c = caps /\ Re.at_end s = true.
Proof. inversion 1; subst; eauto. Qed.

Lemma matches_char_inv icase a prev s caps p s' c :
  re_matches icase (Re.RChar a) prev s caps p s' c ->
  exists x, s = String x s' /\ p = Some x /\ c = caps
            /\ Re.char_match icase a x = true.
Proof. inversion 1; subst; eauto. Qed.

Lemma matches_set_inv icase negated items prev s caps p s' c :
  re_matches icase (Re.RSet negated items) prev s caps p s' c ->
  exists x, s = String x s' /\ p = Some x /\ c = caps
            /\ Re.set_match icase negated items x = true.
Proof. inversion 1; subst; eauto. Qed.

Lemma matches_alt_inv icase r1 r2 prev s caps p s' c :
  re_matches icase (Re.RAlt r1 r2) prev s caps p s' c ->
  re_matches icase r1 prev s caps p s' c
  \/ re_matches icase r2 prev s caps p s' c.
Proof. inversion 1; subst; eauto. Qed.

(** A repeated character class reads one or more characters of the
    class. *)
Lemma matches_plus_set icase negated items prev s caps p s' c :
  re_matches icase (Re.RPlus (Re.RSet negated items)) prev s caps p s' c ->
  exists a mid,
    s = String a mid +:+ s'
    /\ Str.forallb (Re.set_match icase negated items) (String a mid) = true
    /\ c = caps.
Proof.
  remember (Re.RPlus (Re.RSet negated items)) as r eqn:Hr.
  induction 1 as [| | | | | |r0 prev s caps p1 s1 c1 H1 _
                  |r0 prev s caps p1 s1 c1 p2 s2 c2 H1 _ H2 IH2| | |];
    try discriminate; injection Hr as ->.
  - apply matches_set_inv in H1 as (x & -> & -> & -> & Hx).
    exists x, EmptyString. cbn [Str.forallb]. by rewrite Hx.
  - apply matches_set_inv in H1 as (x & -> & -> & -> & Hx).
    destruct (IH2 eq_refl) as (a & mid & -> & Hall & ->).
    exists x, (String a mid). split; [done|]. split; [|done].
    change (Re.set_match icase negated items x
            && Str.forallb (Re.set_match icase negated items) (String a mid)
            = true).
    by rewrite Hx, Hall.
Qed.

(** A literal reads its own text, up to the case of letters when case is
    ignored. *)
Lemma matches_lit icase w :
  w <> EmptyString ->
  forall prev s caps p s' c,
    re_matches icase (Re.lit w) prev s caps p s' c ->
    exists mid,
      s = mid +:+ s' /\ c = caps
      /\ same_text w mid = true /\ (icase = false -> mid = w).
Proof.
  assert (forall a x, Re.char_match icase a x = true ->
            Re.char_match true a x = true /\ (icase = false -> x = a)) as Hch.
  { intros a x. destruct icase; [done|]. unfold Re.char_match.
    intros ->%StrFacts.ceqb_eq. split; [|done].
    by apply bool_decide_eq_true. }
  induction w as [|a w IH]; [done|]. intros _ prev s caps p s' c H.
  destruct w as [|b w].
  - apply matches_char_inv in H as (x & -> & -> & -> & Hx).
    apply Hch in Hx as [Hx Hx']. exists (String x EmptyString).
    split; [done|]. split; [done|]. split.
    + cbn [same_text]. by rewrite Hx.
    + intros Hi. by rewrite (Hx' Hi).
  - change (Re.lit (String a (String b w)))
      with (Re.RSeq (Re.RChar a) (Re.lit (String b w))) in H.
    apply matches_seq_inv in H as (p1 & s1 & c1 & H1 & H2).
    apply matches_char_inv in H1 as (x & -> & -> & -> & Hx).
    apply IH in H2 as (mid & -> & -> & Hs & Hm); [|done].
    apply Hch in Hx as [Hx Hx']. exists (String x mid).
    split; [done|]. split; [done|]. split.
    + change (Re.char_match true a x && same_text (String b w) mid = true).
      by rewrite Hx, Hs.
    + intros Hi. by rewrite (Hx' Hi), (Hm Hi).
Qed.

Lemma matches_alts_lit icase ws prev s caps p s' c :
  ws <> [] ->
  re_matches icase (Re.alts (Re.lit <$> ws)) prev s caps p s' c ->
  exists w, w ∈ ws /\ re_matches icase (Re.lit w) prev s caps p s' c.
Proof.
  induction ws as [|w ws IH]; [done|]. intros _ H.
  destruct ws as [|w' ws].
  - exists w. split; [apply list_elem_of_here|done].
  - change (Re.alts (Re.lit <$> w :: w' :: ws))
      with (Re.RAlt (Re.lit w) (Re.alts (Re.lit <$> w' :: ws))) in H.
    apply matches_alt_inv in H as [H|H].
    + exists w. split; [apply list_elem_of_here|done].
    + destruct (IH ltac:(done) H) as (w0 & Hw0 & H0).
      exists w0. split; [by apply list_elem_of_further|done].
Qed.

(** ** The texts the script analysis reads *)
Lemma declaration_sound content name :
  name ∈ Re.group 2 <$> Re.findall false Patterns.declaration content ->
  declared_in content name.
Proof.
  intros (caps & -> & Hc)%list_elem_of_fmap.
  apply findall_sound in Hc as (pre & rest & p & s' & -> & H).
  unfold Patterns.declaration in H. cbn [Re.seq] in H.
  apply matches_seq_inv in H as (p0 & s0 & c0 & Hb & H).
  apply matches_wordb_inv in Hb as (-> & -> & -> & Hb).
  apply matches_seq_inv in H as (p1 & s1 & c1 & Hk & H).
  apply matches_group_inv in Hk as (c1' & -> & Hk).
  apply matches_alts_lit in Hk as (kw & Hkw & Hk); [|done].
  apply matches_lit in Hk as (kw' & -> & -> & _ & Hk');
    [|by intros ->; revert Hkw; rewrite !elem_of_cons, elem_of_nil;
       intros [|[|[|[|]]]]].
  rewrite (Hk' eq_refl) in *. clear Hk' kw'.
  apply matches_seq_inv in H as (p2 & s2 & c2 & Hsp & H).
  apply matches_plus_set in Hsp as (a & sp & -> & Hsp & ->).
  apply matches_seq_inv in H as (p3 & s3 & c3 & Hn & H).
  apply matches_wordb_inv in H as (-> & -> & -> & He).
  apply matches_group_inv in Hn as (c3' & -> & Hn).
  pose proof (re_matches_prefix _ _ _ _ _ _ _ _ Hn) as (mid & Hmid & Hp3).
  apply matches_seq_inv in Hn as (p4 & s4 & c4 & H1 & H2).
  apply matches_set_inv in H1 as (x & -> & -> & -> & Hx).
  apply matches_plus_set in H2 as (y & more & -> & Hmore & _).
  change (String x (String y more +:+ s3))
    with (String x (String y more) +:+ s3) in Hmid.
  assert (mid = String x (String y more)) as ->.
  { revert Hmid. clear. generalize (String x (String y more)). intros m.
    revert mid. induction m as [|z m IH]; intros [|z' mid] H.
    - done.
    - exfalso. apply (f_equal String.length) in H.
      rewrite !length_append in H. cbn in H. lia.
    - exfalso. apply (f_equal String.length) in H.
      rewrite !length_append in H. cbn in H. lia.
    - injection H as -> H. by rewrite (IH _ H). }
  change (String x (String y more +:+ s3))
    with (String x (String y more) +:+ s3).
  rewrite consumed_app. cbn [Re.group Nat.eqb].
  exists pre, kw, (String a sp), s3, x, (String y more).
  split; [done|]. split; [done|]. split.
  { destruct (Re.word_opt (last_char None pre)); [|done].
    exfalso. revert Hb Hkw. rewrite !elem_of_cons, elem_of_nil.
    by intros Hb [->|[->|[->|[->|[]]]]]. }
  split; [done|]. split.
  { eapply forallb_impl; [|exact Hsp]. intros c.
    unfold Re.set_match, Re.item_match. cbn.
    by rewrite !orb_false_r. }
  split; [done|]. split.
  { revert Hx. unfold Re.set_match, Re.item_match, ident_start, Str.is_alpha,
      Str.is_upper, Str.is_lower. cbn. rewrite !orb_false_r.
    intros H. apply orb_prop in H as [->|H]; [by rewrite ?orb_true_r|].
    apply orb_prop in H as [->|H]; [done|].
    by apply orb_prop in H as [<-%StrFacts.ceqb_eq| <-%StrFacts.ceqb_eq]. }
  split; [done|]. split.
  { eapply forallb_impl; [|exact Hmore]. intros c.
    unfold Re.set_match, Re.item_match, ident_char. cbn.
    rewrite !orb_false_r.
    intros H. apply orb_prop in H as [->|H]; [done|].
    apply StrFacts.ceqb_eq in H as <-. by rewrite orb_true_r. }
  rewrite Hp3 in He. exact He.
Qed.
Lemma quote_set_match c :
  Re.set_match true false [Re.CChar "'"; Re.CChar Patterns.dquote] c = true ->
  quote_char c = true.
Proof. destruct c as [[] [] [] [] [] [] [] []]; vm_compute; done. Qed.

Lemma not_quote_set_match c :
  Re.set_match true true [Re.CChar "'"; Re.CChar Patterns.dquote] c = true ->
  negb (quote_char c) = true.
Proof. destruct c as [[] [] [] [] [] [] [] []]; vm_compute; done. Qed.

Lemma paren_char_match c : Re.char_match true "(" c = true -> c = "("%char.
Proof. destruct c as [[] [] [] [] [] [] [] []]; vm_compute; done. Qed.

Lemma api_call_sound content ep :
  ep ∈ Re.group 1 <$> Re.findall true Patterns.api_call content ->
  called_in content ep.
Proof.
  intros (caps & -> & Hc)%list_elem_of_fmap.
  apply findall_sound in Hc as (pre & rest & p & s' & -> & H).
  unfold Patterns.api_call in H. cbn [Re.seq] in H.
  apply matches_seq_inv in H as (p1 & s1 & c1 & Hk & H).
  apply matches_alts_lit in Hk as (w & Hw & Hk); [|done].
  apply matches_lit in Hk as (callee & -> & -> & Hcallee & _);
    [|by intros ->; revert Hw; rewrite !elem_of_cons, elem_of_nil;
       intros [|[|[|[|]]]]].
  apply matches_seq_inv in H as (p2 & s2 & c2 & Hp & H).
  apply matches_char_inv in Hp as (x & -> & -> & -> & ->%paren_char_match).
  apply matches_seq_inv in H as (p3 & s3 & c3 & Hq & H).
  apply matches_set_inv in Hq as (q & -> & -> & -> & Hq%quote_set_match).
  apply matches_group_inv in H as (c4 & -> & H).
  apply matches_plus_set in H as (a & mid & -> & Hmid & _).
  rewrite consumed_app. cbn [Re.group Nat.eqb].
  exists pre, callee, q, s', w.
  split; [done|]. split; [done|]. split; [done|]. split; [done|].
  split; [done|].
  eapply forallb_impl; [|exact Hmid]. apply not_quote_set_match.
Qed.

Lemma elem_of_api_trace W dom url calls u :
  u ∈ (api_trace W dom url calls).1 ->
  exists ep, ep ∈ calls /\ urljoin W url ep = Some u
             /\ is_valid_url W dom u = Some true.
Proof.
  induction calls as [|ep rest IH]; simpl; [by intros []%elem_of_nil|].
  destruct (urljoin W url ep) as [full|] eqn:Hj; [|by intros []%elem_of_nil].
  destruct (is_valid_url W dom full) as [valid|] eqn:Hv;
    [|by intros []%elem_of_nil].
  destruct (api_trace W dom url rest) as [us raised]. simpl in *.
  rewrite elem_of_app. intros [Hu|Hu].
  - destruct valid; [|by apply elem_of_nil in Hu].
    apply list_elem_of_singleton in Hu as ->.
    exists ep. split; [apply list_elem_of_here|done].
  - destruct (IH Hu) as (ep' & ? & ? & ?).
    exists ep'. split; [by apply list_elem_of_further|done].
Qed.

Lemma elem_of_js_trace W dom url u :
  u ∈ (js_trace W dom url).1 ->
  exists content ep,
    requests_get W url = Some content /\ called_in content ep
    /\ urljoin W url ep = Some u /\ is_valid_url W dom u = Some true.
Proof.
  unfold js_trace.
  destruct (requests_get W url) as [content|]; [|by intros []%elem_of_nil].
  pose proof (elem_of_api_trace W dom url
                (Re.group 1 <$> Re.findall true Patterns.api_call content) u)
    as H.
  destruct (api_trace W dom url _) as [us raised]. simpl in *.
  intros (ep & Hep & Hj & Hv)%H.
  exists content, ep. split; [done|]. split; [by apply api_call_sound|done].
Qed.

Lemma js_trace_names W dom url name :
  name ∈ default [] (js_trace W dom url).2 ->
  exists content,
    requests_get W url = Some content /\ declared_in content name.
Proof.
  unfold js_trace.
  destruct (requests_get W url) as [content|]; [|by intros []%elem_of_nil].
  destruct (api_trace W dom url _) as [us raised]. simpl.
  destruct raised; simpl; [by intros []%elem_of_nil|].
  rewrite elem_of_pyset_of. intros H%declaration_sound. by exists content.
Qed.

Lemma declared_in_length content name :
  declared_in content name -> (2 <= String.length name)%nat.
Proof.
  intros (pre & kw & sp & post & c & rest & _ & _ & _ & _ & _ & -> & _
          & Hrest & _).
  destruct rest; [done|]. cbn. lia.
Qed.
(** ** From shapes to matches *)

Lemma ascii_word_end_peek post :
  ascii_word_end post = true -> Re.word_opt (Re.peek post) = false.
Proof.
  destruct post as [|c post]; [done|]. cbn.
  intros [_ H]%andb_prop. by apply negb_true_iff.
Qed.

Lemma lowercase_words (words : list string) :
  forallb (fun w => Str.forallb Str.is_lower w
                    && negb (Str.is_empty w)) words = true ->
  forall w, w ∈ words ->
            Str.forallb Str.is_lower w = true /\ w <> EmptyString.
Proof.
  intros H w Hw. rewrite forallb_forall in H.
  apply list_elem_of_In in Hw. apply H in Hw.
  apply andb_prop in Hw as [? Hne]. split; [done|].
  intros ->. done.
Qed.

Lemma search_marker marker text pre post :
  marker <> EmptyString -> same_text marker text = true ->
  Re.search true (Re.lit marker) (pre +:+ text +:+ post) = true.
Proof.
  intros Hne Hsame. apply search_later. intros prev. unfold Re.match_here.
  destruct (rmatch_lit marker text prev post []
              (fun p s' c => Some (p, s', c))) as (c & -> & _);
    [done|done|by eexists].
Qed.

Lemma search_first_key key text pre post :
  key ∈ ["action"; "method"; "api_key"] -> same_text key text = true ->
  Re.search true Patterns.backend_query
    (pre +:+ "?" +:+ text +:+ "=" +:+ post) = true.
Proof.
  intros Hk Hsame. apply search_later. intros prev. unfold Re.match_here.
  change (is_Some
    (Re.rmatch true
       (Re.alts (Re.lit <$> ["action"; "method"; "api_key"])) (Some "?"%char)
       (text +:+ "=" +:+ post) []
       (fun p1 s1 c1 =>
          Re.rmatch true (Re.RChar "=") p1 s1
            ((1%nat, Re.consumed (text +:+ "=" +:+ post) s1) :: c1)
            (fun p s' c => Some (p, s', c))))).
  apply rmatch_alts_lit with key; [done| |done|].
  - revert Hk. rewrite !elem_of_cons, !elem_of_nil.
    by intros [->|[->|[->|[]]]].
  - intros c front _. simpl. by eexists.
Qed.

(** A dot, one of the words [exts] and a word boundary. *)
Lemma search_extension exts ext text pre post :
  forallb (fun w => Str.forallb Str.is_lower w
                    && negb (Str.is_empty w)) exts = true ->
  ext ∈ exts -> same_text ext text = true ->
  Re.word_opt (Re.peek post) = false ->
  Re.search true
    (Re.seq [Re.RChar "."; Re.RGroup 1 (Re.alts (Re.lit <$> exts));
             Re.RWordB])
    (pre +:+ "." +:+ text +:+ post) = true.
Proof.
  intros Hexts He Hsame Hend.
  destruct (lowercase_words exts Hexts ext He) as [Hlow Hne].
  apply search_later. intros prev. unfold Re.match_here.
  change (is_Some
    (Re.rmatch true (Re.alts (Re.lit <$> exts)) (Some "."%char)
       (text +:+ post) []
       (fun p1 s1 c1 =>
          Re.rmatch true Re.RWordB p1 s1
            ((1%nat, Re.consumed (text +:+ post) s1) :: c1)
            (fun p s' c => Some (p, s', c))))).
  apply rmatch_alts_lit with ext; [done|done|done|].
  intros c front Hf. cbn [Re.rmatch Re.word_opt].
  assert (Re.is_word c = true) as ->.
  { subst text. apply (forallb_snoc _ front).
    by apply (same_text_word ext). }
  rewrite Hend. by eexists.
Qed.

Lemma search_cgi text pre post :
  same_text "cgi" text = true ->
  Re.word_opt (Re.peek post) = false ->
  Re.search true Patterns.backend_cgi (pre +:+ "." +:+ text +:+ post) = true.
Proof.
  intros Hsame Hend. apply search_later. intros prev. unfold Re.match_here.
  change (is_Some
    (Re.rmatch true (Re.lit ".cgi") prev (String "." text +:+ post) []
       (fun p1 s1 c1 =>
          Re.rmatch true Re.RWordB p1 s1 c1
            (fun p s' c => Some (p, s', c))))).
  destruct (rmatch_lit ".cgi" (String "." text) prev post []
              (fun p1 s1 c1 =>
                 Re.rmatch true Re.RWordB p1 s1 c1
                   (fun p s' c => Some (p, s', c))))
    as (c & -> & front & Hfront); [done|done|].
  destruct front as [|a front]; simpl in Hfront.
  { injection Hfront as _ Ht. by rewrite Ht in Hsame. }
  injection Hfront as <- Hfront. cbn [Re.rmatch Re.word_opt].
  assert (Re.is_word c = true) as ->.
  { subst text. apply (forallb_snoc _ front).
    by apply (same_text_word "cgi"). }
  rewrite Hend. by eexists.
Qed.

(** A repeated character class, one character at a time. *)
Lemma rmatch_plus_set_cons {A} icase negated items prev c s caps
    (k : Re.cont (A:=A)) :
  Re.rmatch icase (Re.RPlus (Re.RSet negated items)) prev (String c s) caps k
  = if Re.set_match icase negated items c
    then match Re.rmatch icase (Re.RPlus (Re.RSet negated items)) (Some c) s
                 caps k with
         | Some x => Some x
         | None => k (Some c) s caps
         end
    else None.
Proof.
  cbn [Re.rmatch String.length].
  destruct (Re.set_match icase negated items c); [|done].
  assert ((String.length s <? S (String.length s))%nat = true) as ->
    by (apply Nat.ltb_lt; lia).
  reflexivity.
Qed.

Lemma rmatch_plus_set_all {A} icase negated items (k : Re.cont (A:=A)) seg :
  seg <> EmptyString ->
  Str.forallb (Re.set_match icase negated items) seg = true ->
  (forall p c, is_Some (k p EmptyString c)) ->
  forall prev caps,
    is_Some (Re.rmatch icase (Re.RPlus (Re.RSet negated items)) prev seg
               caps k).
Proof.
  intros Hne Hall Hk. induction seg as [|c seg IH]; [done|].
  intros prev caps. rewrite rmatch_plus_set_cons.
  cbn [Str.forallb] in Hall. apply andb_prop in Hall as [-> Hall].
  destruct seg as [|c' seg].
  - destruct (Re.rmatch _ _ _ _ _ _); [by eexists|apply Hk].
  - destruct (IH ltac:(done) Hall (Some c) caps) as [x ->]. by eexists.
Qed.

Lemma plain_set_match c :
  Re.set_match true true [Re.CChar "/"; Re.CChar "."] c = plain_char c.
Proof. destruct c as [[] [] [] [] [] [] [] []]; vm_compute; done. Qed.

Lemma search_plain_end pre seg :
  seg <> EmptyString -> Str.forallb plain_char seg = true ->
  Re.search true Patterns.page_plain (pre +:+ "/" +:+ seg) = true.
Proof.
  intros Hne Hall. apply search_later. intros prev. unfold Re.match_here.
  change (is_Some
    (Re.rmatch true (Re.RPlus (Re.RSet true [Re.CChar "/"; Re.CChar "."]))
       (Some "/"%char) seg []
       (fun p1 s1 c1 =>
          Re.rmatch true Re.REnd p1 s1 c1 (fun p s' c => Some (p, s', c))))).
  apply rmatch_plus_set_all; [done| |].
  - eapply forallb_impl; [|exact Hall]. intros c. by rewrite plain_set_match.
  - intros p c. cbn. by eexists.
Qed.
(** ** From matches to shapes *)

Lemma search_sound icase r s :
  Re.search icase r s = true ->
  exists pre rest p s' caps,
    s = pre +:+ rest
    /\ re_matches icase r (last_char None pre) rest [] p s' caps.
Proof.
  unfold Re.search. intros [[[p s'] caps] H]%bool_decide_eq_true.
  apply scan_sound in H as (pre & rest & -> & H).
  by exists pre, rest, p, s', caps.
Qed.

Lemma dot_char_match c : Re.char_match true "." c = true -> c = "."%char.
Proof. destruct c as [[] [] [] [] [] [] [] []]; vm_compute; done. Qed.

Lemma slash_char_match c : Re.char_match true "/" c = true -> c = "/"%char.
Proof. destruct c as [[] [] [] [] [] [] [] []]; vm_compute; done. Qed.

Lemma question_char_match c : Re.char_match true "?" c = true -> c = "?"%char.
Proof. destruct c as [[] [] [] [] [] [] [] []]; vm_compute; done. Qed.

Lemma equals_char_match c : Re.char_match true "=" c = true -> c = "="%char.
Proof. destruct c as [[] [] [] [] [] [] [] []]; vm_compute; done. Qed.

Lemma ascii_text_app a b :
  ascii_text (a +:+ b) = ascii_text a && ascii_text b.
Proof. apply forallb_app. Qed.

Lemma last_char_forallb p prev s :
  s <> EmptyString -> Str.forallb p s = true ->
  exists c, last_char prev s = Some c /\ p c = true.
Proof.
  revert prev. induction s as [|a s IH]; intros prev Hne; [done|].
  cbn [Str.forallb last_char]. intros [Ha Hs]%andb_prop.
  destruct s as [|b s]; [by exists a|]. by apply IH.
Qed.

Lemma same_text_nonempty word text :
  word <> EmptyString -> same_text word text = true -> text <> EmptyString.
Proof. by destruct word, text. Qed.

(** After a word of lowercase letters, a word boundary means that no word
    character follows. *)
Lemma word_end_after word text prev post :
  Str.forallb Str.is_lower word = true -> word <> EmptyString ->
  same_text word text = true ->
  xorb (Re.word_opt (last_char prev text)) (Re.word_opt (Re.peek post)) = true ->
  ascii_text post = true ->
  ascii_word_end post = true.
Proof.
  intros Hlow Hne Hsame Hx Hascii.
  destruct (last_char_forallb Re.is_word prev text) as (c & Hc & Hw).
  { by eapply same_text_nonempty. }
  { by apply (same_text_word word). }
  rewrite Hc in Hx. cbn [Re.word_opt] in Hx. rewrite Hw in Hx.
  destruct post as [|x post]; [done|].
  cbn in Hascii. apply andb_prop in Hascii as [Hx1 _].
  cbn in Hx. cbn. rewrite Hx1. by destruct (Re.is_word x).
Qed.

Lemma extension_sound exts url :
  forallb (fun w => Str.forallb Str.is_lower w
                    && negb (Str.is_empty w)) exts = true ->
  exts <> [] -> ascii_text url = true ->
  Re.search true
    (Re.seq [Re.RChar "."; Re.RGroup 1 (Re.alts (Re.lit <$> exts));
             Re.RWordB]) url = true ->
  has_extension exts url.
Proof.
  intros Hexts Hne Hascii
    (pre & rest & p & s' & caps & -> & H)%search_sound.
  cbn [Re.seq] in H.
  apply matches_seq_inv in H as (p1 & s1 & c1 & Hd & H).
  apply matches_char_inv in Hd as (x & -> & -> & -> & ->%dot_char_match).
  apply matches_seq_inv in H as (p2 & s2 & c2 & Hg & H).
  apply matches_wordb_inv in H as (-> & -> & -> & Hb).
  apply matches_group_inv in Hg as (c3 & -> & Hg).
  apply matches_alts_lit in Hg as (ext & He & Hg); [|done].
  destruct (lowercase_words exts Hexts ext He) as [Hlow Hext].
  pose proof (re_matches_prefix _ _ _ _ _ _ _ _ Hg) as (mid & Hmid & Hp2).
  apply matches_lit in Hg as (text & -> & _ & Hsame & _); [|done].
  assert (mid = text) as ->.
  { revert Hmid. clear. revert mid.
    induction text as [|z m IH]; intros [|z' mid] H.
    - done.
    - exfalso. apply (f_equal String.length) in H.
      rewrite !length_append in H. cbn in H. lia.
    - exfalso. apply (f_equal String.length) in H.
      rewrite !length_append in H. cbn in H. lia.
    - injection H as -> H. by rewrite (IH _ H). }
  exists pre, text, s2, ext. split; [done|]. split; [done|].
  split; [done|].
  apply (word_end_after ext text (Some "."%char)); try done.
  - by rewrite <- Hp2.
  - rewrite ascii_text_app in Hascii. apply andb_prop in Hascii as [_ Ha].
    change (String "." (text +:+ s2)) with ("." +:+ text +:+ s2) in Ha.
    rewrite !ascii_text_app in Ha.
    by apply andb_prop in Ha as [_ [_ ?]%andb_prop].
Qed.

Lemma marker_sound marker url :
  marker <> EmptyString ->
  Re.search true (Re.lit marker) url = true ->
  has_marker [marker] url.
Proof.
  intros Hne (pre & rest & p & s' & caps & -> & H)%search_sound.
  apply matches_lit in H as (text & -> & _ & Hsame & _); [|done].
  exists pre, text, s', marker. split; [done|].
  split; [apply list_elem_of_here|done].
Qed.

Lemma first_key_sound url :
  Re.search true Patterns.backend_query url = true ->
  has_first_key ["action"; "method"; "api_key"] url.
Proof.
  intros (pre & rest & p & s' & caps & -> & H)%search_sound.
  unfold Patterns.backend_query in H. cbn [Re.seq] in H.
  apply matches_seq_inv in H as (p1 & s1 & c1 & Hq & H).
  apply matches_char_inv in Hq as (x & -> & -> & -> & ->%question_char_match).
  apply matches_seq_inv in H as (p2 & s2 & c2 & Hg & H).
  apply matches_char_inv in H as (y & -> & -> & -> & ->%equals_char_match).
  apply matches_group_inv in Hg as (c3 & _ & Hg).
  apply matches_alts_lit in Hg as (key & Hk & Hg); [|done].
  apply matches_lit in Hg as (text & -> & _ & Hsame & _);
    [|by intros ->; revert Hk; rewrite !elem_of_cons, elem_of_nil;
       intros [|[|[|]]]].
  by exists pre, text, s', key.
Qed.

Lemma cgi_sound url :
  ascii_text url = true ->
  Re.search true Patterns.backend_cgi url = true ->
  has_extension ["cgi"] url.
Proof.
  intros Hascii (pre & rest & p & s' & caps & -> & H)%search_sound.
  unfold Patterns.backend_cgi in H. cbn [Re.seq] in H.
  apply matches_seq_inv in H as (p1 & s1 & c1 & Hl & H).
  apply matches_wordb_inv in H as (-> & -> & -> & Hb).
  pose proof (re_matches_prefix _ _ _ _ _ _ _ _ Hl) as (mid & Hmid & Hp1).
  apply matches_lit in Hl as (text & -> & _ & Hsame & _); [|done].
  assert (mid = text) as ->.
  { revert Hmid. clear. revert mid.
    induction text as [|z m IH]; intros [|z' mid] H.
    - done.
    - exfalso. apply (f_equal String.length) in H.
      rewrite !length_append in H. cbn in H. lia.
    - exfalso. apply (f_equal String.length) in H.
      rewrite !length_append in H. cbn in H. lia.
    - injection H as -> H. by rewrite (IH _ H). }
  destruct text as [|x text]; [done|].
  cbn [same_text] in Hsame. apply andb_prop in Hsame as [Hx Hsame].
  apply dot_char_match in Hx as ->.
  exists pre, text, s1, "cgi". split; [done|].
  split; [apply list_elem_of_here|]. split; [done|].
  apply (word_end_after "cgi" text (Some "."%char)); try done.
  - by rewrite Hp1 in Hb.
  - rewrite ascii_text_app in Hascii. apply andb_prop in Hascii as [_ Ha].
    change (String "." text +:+ s1) with ("." +:+ text +:+ s1) in Ha.
    rewrite !ascii_text_app in Ha.
    by apply andb_prop in Ha as [_ [_ ?]%andb_prop].
Qed.

Lemma at_end_plain s :
  Re.at_end s = true -> Str.forallb plain_char s = true.
Proof.
  destruct s as [|c [|c' s]]; try done. cbn.
  intros ->%StrFacts.ceqb_eq. done.
Qed.

Lemma plain_end_sound url :
  Re.search true Patterns.page_plain url = true -> has_plain_end url.
Proof.
  intros (pre & rest & p & s' & caps & -> & H)%search_sound.
  unfold Patterns.page_plain in H. cbn [Re.seq] in H.
  apply matches_seq_inv in H as (p1 & s1 & c1 & Hs & H).
  apply matches_char_inv in Hs as (x & -> & -> & -> & ->%slash_char_match).
  apply matches_seq_inv in H as (p2 & s2 & c2 & Hp & H).
  apply matches_end_inv in H as (-> & -> & -> & He).
  apply matches_plus_set in Hp as (a & mid & -> & Hall & _).
  exists pre, (String a mid +:+ s2). split; [done|]. split; [done|].
  rewrite forallb_app. apply andb_true_iff. split.
  - eapply forallb_impl; [|exact Hall]. intros c.
    by rewrite plain_set_match.
  - by apply at_end_plain.
Qed.
Lemma has_extension_mono exts exts' url :
  exts ⊆ exts' -> has_extension exts url -> has_extension exts' url.
Proof.
  intros Hsub (pre & text & post & ext & ? & ? & ? & ?).
  exists pre, text, post, ext. split; [done|]. split; [by apply Hsub|done].
Qed.

Lemma has_marker_mono markers markers' url :
  markers ⊆ markers' -> has_marker markers url -> has_marker markers' url.
Proof.
  intros Hsub (pre & text & post & marker & ? & ? & ?).
  exists pre, text, post, marker. split; [done|]. split; [by apply Hsub|done].
Qed.

Lemma backend_patterns_shape url :
  ascii_text url = true ->
  matches_any Patterns.backend_patterns url <-> backend_shape url.
Proof.
  intros Hascii. unfold matches_any, Patterns.backend_patterns, backend_shape.
  split.
  - intros (p & Hp & Hs). revert Hp. rewrite !elem_of_cons, elem_of_nil.
    intros [->|[->|[->|[->|[->|[->|[]]]]]]].
    + left. eapply has_extension_mono; [|by apply extension_sound in Hs].
      unfold backend_extensions. set_solver.
    + right. left. eapply has_marker_mono; [|by apply marker_sound in Hs].
      set_solver.
    + right. left. eapply has_marker_mono; [|by apply marker_sound in Hs].
      set_solver.
    + right. left. eapply has_marker_mono; [|by apply marker_sound in Hs].
      set_solver.
    + right. right. by apply first_key_sound.
    + left. eapply has_extension_mono; [|by apply cgi_sound in Hs].
      unfold backend_extensions. set_solver.
  - intros [(pre & text & post & ext & -> & He & Hsame & Hend)
           |[(pre & text & post & marker & -> & Hm & Hsame)
            |(pre & text & post & key & -> & Hk & Hsame)]].
    + apply ascii_word_end_peek in Hend.
      destruct (decide (ext = "cgi")) as [->|Hcgi].
      * exists Patterns.backend_cgi. split; [set_solver|].
        by apply search_cgi.
      * exists Patterns.backend_ext. split; [set_solver|].
        apply search_extension with ext; try done.
        revert He Hcgi. unfold backend_extensions.
        rewrite !elem_of_cons, !elem_of_nil. tauto.
    + exists (Re.lit marker). split.
      * revert Hm. rewrite !elem_of_cons, !elem_of_nil.
        intros [->|[->|[->|[]]]]; tauto.
      * apply search_marker; [|done].
        revert Hm. rewrite !elem_of_cons, !elem_of_nil.
        by intros [->|[->|[->|[]]]].
    + exists Patterns.backend_query. split; [set_solver|].
      by apply (search_first_key key).
Qed.

Lemma page_patterns_shape url :
  ascii_text url = true ->
  matches_any Patterns.page_patterns url <-> page_shape url.
Proof.
  intros Hascii. unfold matches_any, Patterns.page_patterns, page_shape.
  split.
  - intros (p & Hp & Hs). revert Hp. rewrite !elem_of_cons, elem_of_nil.
    intros [->|[->|[]]].
    + left. by apply extension_sound in Hs.
    + right. by apply plain_end_sound.
  - intros [(pre & text & post & ext & -> & He & Hsame & Hend)
           |(pre & seg & -> & Hne & Hall)].
    + apply ascii_word_end_peek in Hend.
      exists Patterns.page_ext. split; [set_solver|].
      by apply search_extension with ext.
    + exists Patterns.page_plain. split; [set_solver|].
      by apply search_plain_end.
Qed.

(** Two URLs at which the patterns are narrower than their usual
    reading: a query key [action] that is not the first key does not make
    a URL a backend endpoint, and a URL whose last path component [about]
    has no extension is not a page when a dot follows in the query. *)
Lemma classify_endpoint_loose_rules :
  Urllib.query <$> urlparse Site.W1 "http://x.test/list?x=1&action=go"
  = Some "x=1&action=go"
  /\ classify_endpoint "http://x.test/list?x=1&action=go" = Html
  /\ Urllib.path <$> urlparse Site.W1 "http://x.test/about?v=1.5"
     = Some "/about"
  /\ classify_endpoint "http://x.test/about?v=1.5" = Unknown.
Proof. repeat split; vm_compute; reflexivity. Qed.

(** C4 (amended). For a URL in ASCII the classifier answers by the shape
    of the text of the URL, backend shapes first.  It answers backend
    exactly when the URL holds, in any case of the letters, a dot and one
    of the backend extensions that ends the URL or is followed by a
    character that is not a word character, or one of the markers [/api/],
    [/ws/] and [/rest/], or a question mark followed at once by [action],
    [method] or [api_key] and an equals sign.  Failing that it answers
    html exactly when the URL holds a dot and a page extension in the same
    way, or ends with a slash and a non-empty text without slash and dot.
    It answers unknown in every other case. *)
Theorem classify_endpoint_rules (url : string) :
  ascii_text url = true ->
  (classify_endpoint url = Backend <-> backend_shape url)
  /\ (classify_endpoint url = Html <->
      ~ backend_shape url /\ page_shape url)
  /\ (classify_endpoint url = Unknown <->
      ~ backend_shape url /\ ~ page_shape url).
Proof.
  intros Hascii.
  rewrite <- (backend_patterns_shape url Hascii).
  rewrite <- (page_patterns_shape url Hascii).
  rewrite <- !any_search_true. unfold classify_endpoint.
  destruct (any_search Patterns.backend_patterns url);
    destruct (any_search Patterns.page_patterns url);
    (split; [|split]); split; try done; try tauto;
    try (by intros [? ?]); try (by split).
Qed.

Lemma classify_endpoint_rules_witness :
  classify_endpoint "http://x.test/data.JSON?x=1" = Backend
  <-> backend_shape "http://x.test/data.JSON?x=1".
Proof.
  apply (classify_endpoint_rules "http://x.test/data.JSON?x=1").
  reflexivity.
Defined.

(** X12. Shapes the classifier always files as backend, whatever stands
    before and after them in the URL and whatever the case of the letters:
    the markers [/api/], [/ws/] and [/rest/]; a question mark followed by
    [action], [method] or [api_key] and an equals sign; and a dot followed
    by one of the backend extensions (or [cgi]) when the extension ends the
    URL or is followed by an ASCII character that is not a word
    character. *)
Theorem classify_backend_shapes (pre text post : string) :
  (forall marker, marker ∈ ["/api/"; "/ws/"; "/rest/"] ->
     same_text marker text = true ->
     classify_endpoint (pre +:+ text +:+ post) = Backend)
  /\ (forall key, key ∈ ["action"; "method"; "api_key"] ->
        same_text key text = true ->
        classify_endpoint (pre +:+ "?" +:+ text +:+ "=" +:+ post) = Backend)
  /\ (forall ext,
        ext ∈ backend_extensions ->
        same_text ext text = true -> ascii_word_end post = true ->
        classify_endpoint (pre +:+ "." +:+ text +:+ post) = Backend).
Proof.
  split; [|split].
  - intros marker Hm Hsame.
    apply (classify_backend_search (Re.lit marker)).
    { revert Hm. unfold Patterns.backend_patterns.
      rewrite !elem_of_cons, !elem_of_nil. intros [->|[->|[->|[]]]]; tauto. }
    apply search_marker; [|done].
    revert Hm. rewrite !elem_of_cons, !elem_of_nil.
    by intros [->|[->|[->|[]]]].
  - intros key Hk Hsame.
    apply (classify_backend_search Patterns.backend_query).
    { unfold Patterns.backend_patterns. rewrite !elem_of_cons. tauto. }
    by apply (search_first_key key).
  - intros ext He Hsame Hend%ascii_word_end_peek.
    destruct (decide (ext = "cgi")) as [->|Hcgi].
    + apply (classify_backend_search Patterns.backend_cgi).
      { unfold Patterns.backend_patterns. rewrite !elem_of_cons. tauto. }
      by apply search_cgi.
    + apply (classify_backend_search Patterns.backend_ext).
      { unfold Patterns.backend_patterns. rewrite !elem_of_cons. tauto. }
      apply search_extension with ext; try done.
      revert He Hcgi. unfold backend_extensions.
      rewrite !elem_of_cons, !elem_of_nil. tauto.
Qed.

Lemma classify_backend_shapes_witness :
  classify_endpoint ("http://x.test" +:+ "/API/" +:+ "users") = Backend
  /\ classify_endpoint
       ("http://x.test/list" +:+ "?" +:+ "Method" +:+ "=" +:+ "all")
     = Backend
  /\ classify_endpoint ("http://x.test/index" +:+ "." +:+ "PHP" +:+ "?id=1")
     = Backend.
Proof.
  split; [|split].
  - apply (proj1 (classify_backend_shapes "http://x.test" "/API/" "users")
             "/api/"); [set_solver|reflexivity].
  - apply (proj1 (proj2 (classify_backend_shapes "http://x.test/list"
                           "Method" "all")) "method");
      [set_solver|reflexivity].
  - apply (proj2 (proj2 (classify_backend_shapes "http://x.test/index"
                           "PHP" "?id=1")) "php");
      [unfold backend_extensions; set_solver|reflexivity|reflexivity].
Defined.
(** ** The findings of a run, once more *)

Lemma reachable_findings W base maxd c0 st :
  init W base maxd = Some c0 -> reachable W c0 st ->
  domain st = domain c0 /\ findings_inv W (domain c0) st.
Proof.
  intros Hinit Hr.
  apply (reachable_invariant W
           (fun st => domain st = domain c0
                      /\ findings_inv W (domain c0) st) c0 st);
    [| |exact Hr].
  - split; [done|]. by eapply findings_inv_init.
  - intros s s' [Hd Hf] Hstep. split.
    + apply crawl_step_effect in Hstep
        as (url & d & q & _ & _ & [[_ ->]|Hproc]); [done|].
      destruct Hproc as (_ & _ & _ & -> & _). done.
    + by eapply findings_inv_step.
Qed.

(** C1 (amended). In every state of a run, a canonical key is in
    [html_pages] exactly when a URL with that key that was handed to
    [process_endpoint] is classified as a page, and in [backend_endpoints]
    exactly when such a URL is classified as a backend endpoint.  So a key
    is in both containers exactly when two distinct URLs handed to
    [process_endpoint] share the key and are classified differently, one
    as a page and one as a backend endpoint. *)
Theorem findings_overlap_exact (W : World) (base : string) (maxd : Z)
    (c0 st : crawler) :
  init W base maxd = Some c0 ->
  reachable W c0 st ->
  (forall x, x ∈ html_pages st <->
             exists u, handed W (domain c0) st u
                       /\ classify_endpoint u = Html /\ clean_url u = x)
  /\ (forall x, x ∈ backend_endpoints st <->
                exists u, handed W (domain c0) st u
                          /\ classify_endpoint u = Backend
                          /\ clean_url u = x)
  /\ (forall x, x ∈ html_pages st ∩ backend_endpoints st <->
                exists u1 u2,
                  handed W (domain c0) st u1 /\ handed W (domain c0) st u2
                  /\ u1 <> u2 /\ clean_url u1 = x /\ clean_url u2 = x
                  /\ classify_endpoint u1 = Html
                  /\ classify_endpoint u2 = Backend).
Proof.
  intros Hinit Hr.
  destruct (reachable_findings W base maxd c0 st Hinit Hr)
    as (_ & Hh & Hb & _).
  assert (forall x, x ∈ html_pages st <->
             exists u, handed W (domain c0) st u
                       /\ classify_endpoint u = Html /\ clean_url u = x)
    as Hh'.
  { intros x. rewrite Hh. unfold handed. split.
    - intros (v & Hv & (u & Hu & Hc & Hk)%elem_of_html_keys).
      exists u. split; [by exists v|done].
    - intros (u & (v & Hv & Hu) & Hc & Hk).
      exists v. split; [done|]. apply elem_of_html_keys. by exists u. }
  assert (forall x, x ∈ backend_endpoints st <->
             exists u, handed W (domain c0) st u
                       /\ classify_endpoint u = Backend /\ clean_url u = x)
    as Hb'.
  { intros x. rewrite Hb. unfold handed. split.
    - intros (v & Hv & (u & Hu & Hc & Hk)%elem_of_backend_keys).
      exists u. split; [by exists v|done].
    - intros (u & (v & Hv & Hu) & Hc & Hk).
      exists v. split; [done|]. apply elem_of_backend_keys. by exists u. }
  split; [exact Hh'|]. split; [exact Hb'|].
  intros x. rewrite elem_of_intersection, Hh', Hb'. split.
  - intros [(u1 & H1 & Hc1 & Hk1) (u2 & H2 & Hc2 & Hk2)].
    exists u1, u2. repeat split; try done. intros ->. congruence.
  - intros (u1 & u2 & H1 & H2 & _ & Hk1 & Hk2 & Hc1 & Hc2).
    split; [by exists u1|by exists u2].
Qed.

Lemma findings_overlap_exact_witness :
  exists st,
    crawl_loop Site.W1 10 Site.start = Some st
    /\ forall x, x ∈ html_pages st ∩ backend_endpoints st <->
                 exists u1 u2,
                   handed Site.W1 "x.test" st u1
                   /\ handed Site.W1 "x.test" st u2
                   /\ u1 <> u2 /\ clean_url u1 = x /\ clean_url u2 = x
                   /\ classify_endpoint u1 = Html
                   /\ classify_endpoint u2 = Backend.
Proof.
  eexists. split; [vm_compute; reflexivity|].
  apply (findings_overlap_exact Site.W1 Site.seed 3 Site.start).
  - vm_compute. reflexivity.
  - apply (crawl_loop_reachable Site.W1 10). vm_compute. reflexivity.
Defined.

(** ** Notifications with the parser the crawler uses *)




(** ** A failure in the middle of the script analysis *)

Lemma api_trace_raises W dom url done ep rest :
  Forall (fun e => is_Some (call_target W dom url e)) done ->
  call_target W dom url ep = None ->
  api_trace W dom url (done ++ ep :: rest)
  = (stored_targets W dom url done, true).
Proof.
  intros Hdone Hep. induction Hdone as [|e done [[full valid] He] _ IH].
  - cbn [app api_trace]. unfold call_target in Hep.
    destruct (urljoin W url ep) as [full|]; [|done].
    by destruct (is_valid_url W dom full).
  - cbn [app api_trace]. rewrite IH.
    assert (stored_targets W dom url (e :: done)
            = (if valid then [full] else [])
              ++ stored_targets W dom url done) as ->.
    { unfold stored_targets. simpl. rewrite He. by destruct valid. }
    unfold call_target in He.
    destruct (urljoin W url e) as [full'|]; [|done].
    destruct (is_valid_url W dom full') as [valid'|]; [|done].
    by injection He as -> ->.
Qed.

Lemma api_trace_raised W dom url calls :
  (api_trace W dom url calls).2 = true ->
  exists done ep rest,
    calls = done ++ ep :: rest
    /\ Forall (fun e => is_Some (call_target W dom url e)) done
    /\ call_target W dom url ep = None.
Proof.
  induction calls as [|e calls IH]; [done|]. cbn [api_trace].
  destruct (call_target W dom url e) as [[full valid]|] eqn:He.
  - unfold call_target in He.
    destruct (urljoin W url e) as [full'|] eqn:Hj; [|done].
    destruct (is_valid_url W dom full') as [valid'|] eqn:Hv; [|done].
    destruct (api_trace W dom url calls) as [us raised]. cbn [snd] in *.
    intros (done & ep & rest & -> & Hdone & Hep)%IH.
    exists (e :: done), ep, rest. split; [done|]. split; [|done].
    constructor; [|done]. unfold call_target. rewrite Hj, Hv. by eexists.
  - intros _. exists [], e, calls.
    split; [done|]. split; [constructor|done].
Qed.
(** C5 (amended). For a script whose text, if any, is ASCII.  When the
    request for the script fails, [analyze_js] returns the empty set and
    leaves the crawler as it was.  When [urljoin] or [is_valid_url] raises
    for an API call of the script, [analyze_js] returns the empty set as
    well, and the crawler is left exactly as the calls before the failing
    one made it: every valid URL among them has been handed to
    [process_endpoint], so its canonical key stays in the container of its
    class; the calls after the failing one and the function names are not
    looked at.  These are the only ways for the [try] block to fail, and
    no exception leaves [analyze_js]. *)
Theorem analyze_js_failure_exact (W : World) (url : string) (st : crawler) :
  (forall content, requests_get W url = Some content ->
                   ascii_text content = true) ->
  (requests_get W url = None -> analyze_js W url st = ([], st))
  /\ (forall content done ep rest,
        requests_get W url = Some content ->
        Re.group 1 <$> Re.findall true Patterns.api_call content
        = done ++ ep :: rest ->
        Forall (fun e => is_Some (call_target W (domain st) url e)) done ->
        call_target W (domain st) url ep = None ->
        analyze_js W url st
        = ([], process_all (stored_targets W (domain st) url done) st)
        /\ forall e full,
             e ∈ done ->
             call_target W (domain st) url e = Some (full, true) ->
             (classify_endpoint full = Html ->
              clean_url full ∈ html_pages (analyze_js W url st).2)
             /\ (classify_endpoint full = Backend ->
                 clean_url full
                 ∈ backend_endpoints (analyze_js W url st).2))
  /\ ((analyze_js_try W url st).1 = None ->
      (analyze_js W url st).1 = []
      /\ (requests_get W url = None
          \/ exists content done ep rest,
               requests_get W url = Some content
               /\ Re.group 1 <$> Re.findall true Patterns.api_call content
                  = done ++ ep :: rest
               /\ Forall (fun e => is_Some (call_target W (domain st) url e))
                    done
               /\ call_target W (domain st) url ep = None)).
Proof.
  intros _. split; [|split].
  - intros Hget. unfold analyze_js, analyze_js_try. by rewrite Hget.
  - intros content done ep rest Hget Hcalls Hdone Hep.
    assert (analyze_js W url st
            = ([], process_all (stored_targets W (domain st) url done) st))
      as Heq.
    { rewrite analyze_js_trace. unfold js_trace. rewrite Hget, Hcalls.
      by rewrite (api_trace_raises W _ url done ep rest Hdone Hep). }
    split; [exact Heq|]. intros e full He Hfull. rewrite Heq. cbn [snd].
    rewrite process_all_html, process_all_backend.
    assert (full ∈ stored_targets W (domain st) url done) as Hin.
    { unfold stored_targets. apply list_elem_of_omap.
      exists e. split; [done|]. by rewrite Hfull. }
    split; intros Hc; apply elem_of_union_r.
    + apply elem_of_html_keys. by exists full.
    + apply elem_of_backend_keys. by exists full.
  - rewrite analyze_js_trace, analyze_js_try_trace. cbn [fst].
    intros Hnone. rewrite Hnone. split; [done|].
    unfold js_trace in Hnone.
    destruct (requests_get W url) as [content|]; [|by left].
    right. exists content.
    pose proof (api_trace_raised W (domain st) url
                  (Re.group 1 <$> Re.findall true Patterns.api_call content))
      as Hr.
    destruct (api_trace W (domain st) url _) as [us raised].
    destruct raised; [|done].
    destruct (Hr eq_refl) as (done & ep & rest & ? & ? & ?).
    by exists done, ep, rest.
Qed.

Lemma analyze_js_failure_exact_witness :
  analyze_js Site.W1 "http://x.test/missing.js" Site.start = ([], Site.start)
  /\ analyze_js Site.W1 "http://x.test/broken.js" Site.start
     = ([], process_all ["http://x.test/api/a"] Site.start).
Proof.
  split.
  - apply (analyze_js_failure_exact Site.W1 "http://x.test/missing.js"
             Site.start).
    + intros content H. vm_compute in H. discriminate.
    + vm_compute. reflexivity.
  - assert (forall content,
              requests_get Site.W1 "http://x.test/broken.js" = Some content ->
              ascii_text content = true) as Hascii.
    { intros content H. vm_compute in H. injection H as <-. reflexivity. }
    destruct (analyze_js_failure_exact Site.W1 "http://x.test/broken.js"
                Site.start Hascii) as (_ & H & _).
    apply (H "fetch('/api/a'); fetch('//['); function late(){}"
             ["/api/a"] "//[" []).
    + vm_compute. reflexivity.
    + vm_compute. reflexivity.
    + constructor; [|constructor]. vm_compute. by eexists.
    + vm_compute. reflexivity.
Defined.

(** ** What the script analysis returns *)

(** X20. For a script in ASCII, every name [analyze_js] returns is read
    off the text of the script: the name stands in it after one of the
    keywords function, const, let and var (not preceded by a word
    character) and whitespace, starts with a letter, [_] or [$], goes on
    with at least one word character or [$], and ends at a word boundary.
    So no returned name is shorter than two characters. *)
Theorem analyze_js_names (W : World) (url : string) (st : crawler)
    (content name : string) :
  requests_get W url = Some content -> ascii_text content = true ->
  name ∈ (analyze_js W url st).1 ->
  declared_in content name /\ (2 <= String.length name)%nat.
Proof.
  intros Hget _. rewrite analyze_js_trace. cbn [fst].
  intros (content' & Hget' & Hdecl)%js_trace_names.
  assert (content' = content) as -> by congruence.
  split; [done|]. by eapply declared_in_length.
Qed.

Lemma analyze_js_names_witness :
  declared_in "fetch('/api/orders'); function loadData(){}" "loadData"
  /\ (2 <= String.length "loadData")%nat.
Proof.
  apply (analyze_js_names Site.W1 "http://x.test/app.js" Site.start).
  - vm_compute. reflexivity.
  - reflexivity.
  - by_compute.
Defined.

(** X21. For a script in ASCII, every key [analyze_js] adds to
    [html_pages] or to [backend_endpoints] comes from an API call in the
    text of the script: the script holds one of the callee names fetch,
    axios, .ajax and XMLHttpRequest (in any case), an opening parenthesis,
    a quote and a non-empty reference without quotes; [urljoin] resolves
    the reference against the URL of the script to a URL that passes
    [is_valid_url], and the key is the canonical key of that URL, filed
    under the class of that URL. *)
Theorem analyze_js_endpoints (W : World) (url : string) (st : crawler)
    (x : string) :
  (forall content, requests_get W url = Some content ->
                   ascii_text content = true) ->
  let st' := (analyze_js W url st).2 in
  (x ∈ html_pages st' ->
   x ∈ html_pages st \/ key_of_call W (domain st) url Html x)
  /\ (x ∈ backend_endpoints st' ->
      x ∈ backend_endpoints st \/ key_of_call W (domain st) url Backend x).
Proof.
  intros _. rewrite analyze_js_trace. cbn [snd].
  rewrite process_all_html, process_all_backend. split.
  - intros [Hx|Hx]%elem_of_union; [by left|right].
    apply elem_of_html_keys in Hx as (u & Hu & Hk & Hc).
    apply elem_of_js_trace in Hu as (content & ep & ? & ? & ? & ?).
    by exists content, ep, u.
  - intros [Hx|Hx]%elem_of_union; [by left|right].
    apply elem_of_backend_keys in Hx as (u & Hu & Hk & Hc).
    apply elem_of_js_trace in Hu as (content & ep & ? & ? & ? & ?).
    by exists content, ep, u.
Qed.

Lemma analyze_js_endpoints_witness :
  "http://x.test/api/orders" ∈ backend_endpoints Site.start
  \/ key_of_call Site.W1 "x.test" "http://x.test/app.js" Backend
       "http://x.test/api/orders".
Proof.
  apply (analyze_js_endpoints Site.W1 "http://x.test/app.js" Site.start
           "http://x.test/api/orders").
  - intros content H. vm_compute in H. injection H as <-. reflexivity.
  - by_compute.
Defined.
